(** * better-svg: the JSX <-> SVG transcoder of [svgTransform.ts]

    A shallow embedding of the transcoder (payload codec, attribute
    dictionary, dialect detector, expression scanner, forward and reverse
    transforms, optimization bridge) together with the properties stated
    for it.

    JavaScript strings are sequences of UTF-16 code units; they are
    modelled as lists of integers.  [Buffer.from(s)] is the UTF-8 encoder
    of Node (an unpaired surrogate becomes U+FFFD), [toString('base64')]
    and [Buffer.from(s, 'base64')] are the base64 codec, and
    [toString('utf-8')] is the UTF-8 decoder with replacement. *)

From Stdlib Require Import String Ascii DecimalString.
From Stdlib Require Import ZArith Arith Bool Lia List.
Import ListNotations.
Local Open Scope Z_scope.

(* ================================================================== *)
(** ** JavaScript strings *)

Definition jsstring : Type := list Z.

(** A literal of the source, as its list of code units. *)
Definition lit (s : string) : jsstring :=
  map (fun a => Z.of_N (N_of_ascii a)) (list_ascii_of_string s).

(** The double quote, which the literals of this file do not contain. *)
Definition dq : jsstring := [34].

Definition ch_dquote : Z := 34.
Definition ch_squote : Z := 39.
Definition ch_backtick : Z := 96.
Definition ch_backslash : Z := 92.
Definition ch_lbrace : Z := 123.
Definition ch_rbrace : Z := 125.
Definition ch_equals : Z := 61.
Definition ch_underscore : Z := 95.

(** [s.startsWith(p)] *)
Fixpoint startsWith (s p : jsstring) {struct p} : bool :=
  match p with
  | [] => true
  | a :: p' =>
      match s with
      | [] => false
      | b :: s' => (b =? a) && startsWith s' p'
      end
  end.

(** [s.endsWith(p)] *)
Definition endsWith (s p : jsstring) : bool :=
  startsWith (rev s) (rev p).

(** [s.slice(b, e)] for indices [0 <= b], [0 <= e]; an index past the end
    is clamped, and [e < b] gives the empty string. *)
Definition slice (s : jsstring) (b e : nat) : jsstring :=
  firstn (e - b) (skipn b s).

(** [s.slice(b)] *)
Definition sliceFrom (s : jsstring) (b : nat) : jsstring := skipn b s.

(** [s.indexOf(pat, from)]; [None] stands for [-1]. [indexOfAt] walks the
    suffix of [s] that starts at index [i]. *)
Fixpoint indexOfAt (pat rest : jsstring) (i : nat) : option nat :=
  match rest with
  | [] => if startsWith [] pat then Some i else None
  | _ :: rest' =>
      if startsWith rest pat then Some i else indexOfAt pat rest' (S i)
  end.

Definition indexOf (s pat : jsstring) (from : nat) : option nat :=
  indexOfAt pat (skipn from s) (Nat.min from (length s)).

(** [s.includes(pat)] *)
Definition includes (s pat : jsstring) : bool :=
  match indexOf s pat 0 with Some _ => true | None => false end.

(** Decimal rendering of a counter, as in a template literal. *)
Definition decimal (n : nat) : jsstring :=
  lit (NilEmpty.string_of_uint (Nat.to_uint n)).

(** Equality of strings, as a boolean. *)
Fixpoint jseqb (s t : jsstring) : bool :=
  match s, t with
  | [], [] => true
  | a :: s', b :: t' => (a =? b) && jseqb s' t'
  | _, _ => false
  end.

(* ================================================================== *)
(** ** UTF-8, as [Buffer.from(string)] and [buf.toString('utf-8')] *)

Definition isHighSurrogate (c : Z) : bool := (0xD800 <=? c) && (c <=? 0xDBFF).
Definition isLowSurrogate (c : Z) : bool := (0xDC00 <=? c) && (c <=? 0xDFFF).

(** The three bytes of U+FFFD. *)
Definition replacementBytes : list Z := [0xEF; 0xBF; 0xBD].

Fixpoint utf8_encode (s : jsstring) : list Z :=
  match s with
  | [] => []
  | c :: r =>
      if c <? 0x80 then c :: utf8_encode r
      else if c <? 0x800 then
        (0xC0 + c / 64) :: (0x80 + c mod 64) :: utf8_encode r
      else if isHighSurrogate c then
        match r with
        | d :: r' =>
            if isLowSurrogate d then
              let cp := 0x10000 + (c - 0xD800) * 0x400 + (d - 0xDC00) in
              (0xF0 + cp / 262144) :: (0x80 + (cp / 4096) mod 64)
                :: (0x80 + (cp / 64) mod 64) :: (0x80 + cp mod 64)
                :: utf8_encode r'
            else replacementBytes ++ utf8_encode r
        | [] => replacementBytes
        end
      else if isLowSurrogate c then replacementBytes ++ utf8_encode r
      else
        (0xE0 + c / 4096) :: (0x80 + (c / 64) mod 64) :: (0x80 + c mod 64)
          :: utf8_encode r
  end.

Definition inRange (lo hi b : Z) : bool := (lo <=? b) && (b <=? hi).
Definition isCont (b : Z) : bool := inRange 0x80 0xBF b.

(** Allowed range of the second byte after a three-byte lead. *)
Definition second3 (b0 b1 : Z) : bool :=
  if b0 =? 0xE0 then inRange 0xA0 0xBF b1
  else if b0 =? 0xED then inRange 0x80 0x9F b1
  else isCont b1.

(** Allowed range of the second byte after a four-byte lead. *)
Definition second4 (b0 b1 : Z) : bool :=
  if b0 =? 0xF0 then inRange 0x90 0xBF b1
  else if b0 =? 0xF4 then inRange 0x80 0x8F b1
  else isCont b1.

Definition replacementChar : Z := 0xFFFD.

(** The code units of a code point above the basic plane. *)
Definition surrogatePair (cp : Z) : jsstring :=
  [0xD800 + (cp - 0x10000) / 1024; 0xDC00 + (cp - 0x10000) mod 1024].

(** Decoding with replacement: an ill-formed sequence gives one U+FFFD for
    its maximal well-formed prefix, and decoding resumes at the byte that
    broke it. *)
Fixpoint utf8_decode (bs : list Z) : jsstring :=
  match bs with
  | [] => []
  | b0 :: r0 =>
      if inRange 0 0x7F b0 then b0 :: utf8_decode r0
      else if inRange 0xC2 0xDF b0 then
        match r0 with
        | [] => [replacementChar]
        | b1 :: r1 =>
            if isCont b1 then
              ((b0 - 0xC0) * 64 + (b1 - 0x80)) :: utf8_decode r1
            else replacementChar :: utf8_decode r0
        end
      else if inRange 0xE0 0xEF b0 then
        match r0 with
        | [] => [replacementChar]
        | b1 :: r1 =>
            if second3 b0 b1 then
              match r1 with
              | [] => [replacementChar]
              | b2 :: r2 =>
                  if isCont b2 then
                    ((b0 - 0xE0) * 4096 + (b1 - 0x80) * 64 + (b2 - 0x80))
                      :: utf8_decode r2
                  else replacementChar :: utf8_decode r1
              end
            else replacementChar :: utf8_decode r0
        end
      else if inRange 0xF0 0xF4 b0 then
        match r0 with
        | [] => [replacementChar]
        | b1 :: r1 =>
            if second4 b0 b1 then
              match r1 with
              | [] => [replacementChar]
              | b2 :: r2 =>
                  if isCont b2 then
                    match r2 with
                    | [] => [replacementChar]
                    | b3 :: r3 =>
                        if isCont b3 then
                          surrogatePair
                            ((b0 - 0xF0) * 262144 + (b1 - 0x80) * 4096
                             + (b2 - 0x80) * 64 + (b3 - 0x80))
                            ++ utf8_decode r3
                        else replacementChar :: utf8_decode r2
                    end
                  else replacementChar :: utf8_decode r1
              end
            else replacementChar :: utf8_decode r0
        end
      else replacementChar :: utf8_decode r0
  end.

(* ================================================================== *)
(** ** Base64, as [buf.toString('base64')] and [Buffer.from(s, 'base64')] *)

Definition base64Alphabet : jsstring :=
  Eval cbv in
    lit "ABCDEFGHIJKLMNOPQRSTUVWXYZabcdefghijklmnopqrstuvwxyz0123456789+/".

(** The character of a sextet. *)
Definition b64char (n : Z) : Z := nth (Z.to_nat n) base64Alphabet ch_equals.

Fixpoint base64_encode (bs : list Z) : jsstring :=
  match bs with
  | [] => []
  | [a] => [b64char (a / 4); b64char ((a mod 4) * 16); ch_equals; ch_equals]
  | [a; b] =>
      [b64char (a / 4); b64char ((a mod 4) * 16 + b / 16);
       b64char ((b mod 16) * 4); ch_equals]
  | a :: b :: c :: rest =>
      b64char (a / 4) :: b64char ((a mod 4) * 16 + b / 16)
        :: b64char ((b mod 16) * 4 + c / 64) :: b64char (c mod 64)
        :: base64_encode rest
  end.

(** The sextet of a character; the decoder also takes the URL-safe
    alphabet. *)
Definition unbase64 (c : Z) : option Z :=
  if inRange 65 90 c then Some (c - 65)
  else if inRange 97 122 c then Some (c - 97 + 26)
  else if inRange 48 57 c then Some (c - 48 + 52)
  else if (c =? 43) || (c =? 45) then Some 62
  else if (c =? 47) || (c =? 95) then Some 63
  else None.

(** The decoder skips characters outside the alphabet and stops at the
    first padding character. *)
Fixpoint sextets (s : jsstring) : list Z :=
  match s with
  | [] => []
  | c :: r =>
      if c =? ch_equals then []
      else match unbase64 c with
           | Some v => v :: sextets r
           | None => sextets r
           end
  end.

Fixpoint bytesOfSextets (l : list Z) : list Z :=
  match l with
  | a :: b :: c :: d :: r =>
      (a * 4 + b / 16) :: ((b mod 16) * 16 + c / 4) :: ((c mod 4) * 64 + d)
        :: bytesOfSextets r
  | [a; b; c] => [a * 4 + b / 16; (b mod 16) * 16 + c / 4]
  | [a; b] => [a * 4 + b / 16]
  | _ => []
  end.

Definition base64_decode (s : jsstring) : list Z := bytesOfSextets (sextets s).

(* ================================================================== *)
(** ** Payload codec *)

Definition BASE64_PREFIX : jsstring := Eval cbv in lit "__JSX_BASE64__".
Definition BASE64_SUFFIX : jsstring := Eval cbv in lit "__".

Definition encodeJsx (content : jsstring) : jsstring :=
  BASE64_PREFIX ++ base64_encode (utf8_encode content) ++ BASE64_SUFFIX.

(** [None] is the [null] of the source.  [content.slice(14, -2)]: the
    negative end counts from the end of the string. *)
Definition decodeJsx (content : jsstring) : option jsstring :=
  if startsWith content BASE64_PREFIX && endsWith content BASE64_SUFFIX then
    let b64 :=
      slice content (length BASE64_PREFIX)
            (length content - length BASE64_SUFFIX) in
    Some (utf8_decode (base64_decode b64))
  else None.

(* ================================================================== *)
(** ** Attribute dictionary *)

(** A [Record<string, string>] keeps its keys in insertion order, which is
    the order [Object.entries] and [Object.keys] walk; it is modelled as an
    association list. *)
Definition dict : Type := list (jsstring * jsstring).

Definition jsxToSvgAttributeMap : dict :=
  [ (lit "strokeWidth", lit "stroke-width");
    (lit "strokeLinecap", lit "stroke-linecap");
    (lit "strokeLinejoin", lit "stroke-linejoin");
    (lit "strokeDasharray", lit "stroke-dasharray");
    (lit "strokeDashoffset", lit "stroke-dashoffset");
    (lit "strokeMiterlimit", lit "stroke-miterlimit");
    (lit "strokeOpacity", lit "stroke-opacity");
    (lit "fillOpacity", lit "fill-opacity");
    (lit "fillRule", lit "fill-rule");
    (lit "clipPath", lit "clip-path");
    (lit "clipRule", lit "clip-rule");
    (lit "fontFamily", lit "font-family");
    (lit "fontSize", lit "font-size");
    (lit "fontStyle", lit "font-style");
    (lit "fontWeight", lit "font-weight");
    (lit "textAnchor", lit "text-anchor");
    (lit "textDecoration", lit "text-decoration");
    (lit "dominantBaseline", lit "dominant-baseline");
    (lit "alignmentBaseline", lit "alignment-baseline");
    (lit "baselineShift", lit "baseline-shift");
    (lit "stopColor", lit "stop-color");
    (lit "stopOpacity", lit "stop-opacity");
    (lit "colorInterpolation", lit "color-interpolation");
    (lit "colorInterpolationFilters", lit "color-interpolation-filters");
    (lit "floodColor", lit "flood-color");
    (lit "floodOpacity", lit "flood-opacity");
    (lit "lightingColor", lit "lighting-color");
    (lit "markerStart", lit "marker-start");
    (lit "markerMid", lit "marker-mid");
    (lit "markerEnd", lit "marker-end");
    (lit "paintOrder", lit "paint-order");
    (lit "vectorEffect", lit "vector-effect");
    (lit "shapeRendering", lit "shape-rendering");
    (lit "imageRendering", lit "image-rendering");
    (lit "pointerEvents", lit "pointer-events");
    (lit "xlinkHref", lit "xlink:href") ].

(** [m[k]]; [None] is [undefined]. *)
Fixpoint dictGet (m : dict) (k : jsstring) : option jsstring :=
  match m with
  | [] => None
  | (k', v) :: m' => if jseqb k' k then Some v else dictGet m' k
  end.

(** [m[k] = v]: an existing key keeps its place, a new key goes last. *)
Fixpoint dictSet (m : dict) (k v : jsstring) : dict :=
  match m with
  | [] => [(k, v)]
  | (k', v') :: m' =>
      if jseqb k' k then (k', v) :: m' else (k', v') :: dictSet m' k v
  end.

(** [Object.fromEntries] *)
Definition fromEntries (es : list (jsstring * jsstring)) : dict :=
  fold_left (fun m e => dictSet m (fst e) (snd e)) es [].

Definition dictKeys (m : dict) : list jsstring := map fst m.

Definition svgToJsxAttributeMap : dict :=
  fromEntries (map (fun e => (snd e, fst e)) jsxToSvgAttributeMap).

(* ================================================================== *)
(** ** Regular expressions

    Each pattern of the source is a matcher: given the code unit before the
    position (for [\b]) and the text from the position on, it returns the
    length of the match that the backtracking search finds there and the
    captured groups.  Every pattern of the source matches at least one
    code unit, and at any position it has at most one match, so that the
    order in which a search tries the repetitions does not matter; the
    patterns themselves are given further down ([pSpread] and the others)
    and each matcher is proved to find the match of its pattern. *)

Definition isUpper (c : Z) : bool := inRange 65 90 c.
Definition isDigit (c : Z) : bool := inRange 48 57 c.

(** [\w] *)
Definition isWordChar (c : Z) : bool :=
  inRange 65 90 c || inRange 97 122 c || inRange 48 57 c || (c =? ch_underscore).

Definition isWordBefore (prev : option Z) : bool :=
  match prev with Some c => isWordChar c | None => false end.

Definition isWordAfter (rest : jsstring) : bool :=
  match rest with c :: _ => isWordChar c | [] => false end.

(** [\b] *)
Definition wordBoundary (prev : option Z) (rest : jsstring) : bool :=
  xorb (isWordBefore prev) (isWordAfter rest).

(** The longest prefix whose code units satisfy [p] (a greedy class). *)
Fixpoint takeWhile (p : Z -> bool) (s : jsstring) : jsstring :=
  match s with
  | [] => []
  | c :: s' => if p c then c :: takeWhile p s' else []
  end.

Definition notRBrace (c : Z) : bool := negb (c =? ch_rbrace).
Definition notDQuote (c : Z) : bool := negb (c =? ch_dquote).
Definition notQuote (c : Z) : bool :=
  negb (c =? ch_dquote) && negb (c =? ch_squote).

Definition matcher (C : Type) : Type := option Z -> jsstring -> option (nat * C).

(** [open[^}]+\}] with the class captured: [open] is [={] or [{...]. *)
Definition reBraced (open : jsstring) : matcher jsstring :=
  fun _ rest =>
    if startsWith rest open then
      let body := takeWhile notRBrace (skipn (length open) rest) in
      match body with
      | [] => None
      | _ :: _ =>
          match skipn (length open + length body) rest with
          | _ :: _ => Some ((length open + length body + 1)%nat, body)
          | [] => None
          end
      end
    else None.

(** [/=\{[^}]+\}/] *)
Definition reExprValue : matcher jsstring := reBraced (lit "={").

(** [/\{\.\.\.([^}]+)\}/] *)
Definition reSpread : matcher jsstring := reBraced (lit "{...").

(** [\bname=], for a literal [name]. *)
Definition reWordLit (name : jsstring) : matcher unit :=
  fun prev rest =>
    if wordBoundary prev rest && startsWith rest (name ++ lit "=") then
      Some ((length name + 1)%nat, tt)
    else None.

(** [on[A-Z]\w*] at the head of [rest]: the captured name. *)
Definition eventName (rest : jsstring) : option jsstring :=
  if startsWith rest (lit "on") then
    match skipn 2 rest with
    | c :: rest' =>
        if isUpper c then Some (lit "on" ++ c :: takeWhile isWordChar rest')
        else None
    | [] => None
    end
  else None.

(** The event-handler pattern: [\b], then the captured name [on[A-Z]\w*],
    then [=]. *)
Definition reEvent : matcher jsstring :=
  fun prev rest =>
    if wordBoundary prev rest then
      match eventName rest with
      | Some name =>
          if startsWith (skipn (length name) rest) (lit "=") then
            Some ((length name + 1)%nat, name)
          else None
      | None => None
      end
    else None.

(** An equals sign, a double quote, the captured run of code units other
    than the double quote, and a double quote, at the head of [rest]: the
    length matched and the captured value. *)
Definition quotedValue (rest : jsstring) : option (nat * jsstring) :=
  if startsWith rest (lit "=" ++ dq) then
    let value := takeWhile notDQuote (skipn 2 rest) in
    match skipn (2 + length value) rest with
    | _ :: _ => Some ((2 + length value + 1)%nat, value)
    | [] => None
    end
  else None.

(** The spread placeholder pattern: [\bdata-spread-\d+] followed by a
    double-quoted value, which is captured. *)
Definition reSpreadPlaceholder : matcher jsstring :=
  fun prev rest =>
    let head := lit "data-spread-" in
    if wordBoundary prev rest && startsWith rest head then
      let digits := takeWhile isDigit (skipn (length head) rest) in
      match digits with
      | [] => None
      | _ :: _ =>
          match quotedValue (skipn (length head + length digits) rest) with
          | Some (n, value) =>
              Some ((length head + length digits + n)%nat, value)
          | None => None
          end
      end
    else None.

(** The event placeholder pattern: [\bdata-jsx-event-], the captured name
    [on[A-Z]\w*], and a double-quoted value, captured too. *)
Definition reEventPlaceholder : matcher (jsstring * jsstring) :=
  fun prev rest =>
    let head := lit "data-jsx-event-" in
    if wordBoundary prev rest && startsWith rest head then
      match eventName (skipn (length head) rest) with
      | Some name =>
          match quotedValue (skipn (length head + length name) rest) with
          | Some (n, value) =>
              Some ((length head + length name + n)%nat, (name, value))
          | None => None
          end
      | None => None
      end
    else None.

(** The payload pattern: a captured name [\w+], [=], a captured quote
    (double or single), the captured value, and the same quote again.  The
    value is [__JSX_BASE64__], a lazy run of code units that are not
    quotes, and [__]; the lazy run stops at the first [__] that the
    opening quote follows, which is the end of the whole run of code units
    that are not quotes. *)
Definition rePayloadAttr : matcher (jsstring * jsstring) :=
  fun _ rest =>
    let attr := takeWhile isWordChar rest in
    match attr with
    | [] => None
    | _ :: _ =>
        match skipn (length attr) rest with
        | e :: q :: rest' =>
            if (e =? ch_equals) && ((q =? ch_dquote) || (q =? ch_squote))
               && startsWith rest' BASE64_PREFIX then
              let body :=
                takeWhile notQuote (skipn (length BASE64_PREFIX) rest') in
              match skipn (length BASE64_PREFIX + length body) rest' with
              | q' :: _ =>
                  if (q' =? q) && endsWith body BASE64_SUFFIX then
                    Some ((length attr + 2 + length BASE64_PREFIX
                           + length body + 1)%nat,
                          (attr, BASE64_PREFIX ++ body))
                  else None
              | [] => None
              end
            else None
        | _ => None
        end
    end.

(** [re.test(s)]: is there a position where the pattern matches. *)
Fixpoint testFrom {C : Type} (re : matcher C) (prev : option Z)
    (rest : jsstring) : bool :=
  match re prev rest with
  | Some _ => true
  | None =>
      match rest with
      | [] => false
      | c :: rest' => testFrom re (Some c) rest'
      end
  end.

Definition regexTest {C : Type} (re : matcher C) (s : jsstring) : bool :=
  testFrom re None s.

Section GlobalReplace.
(** [s.replace(/re/g, fn)]: the matches are looked for from left to right,
    each search resuming where the previous match ended; the callback may
    update a state of its own (a counter), threaded here as [St]. *)
Context {C St : Type}.
Variable re : matcher C.
Variable fn : St -> jsstring -> C -> jsstring * St.

(** [skip] counts the code units of the current match still to be passed
    over. *)
Fixpoint replaceWalk (prev : option Z) (rest : jsstring) (skip : nat)
    (st : St) : jsstring * St :=
  match rest with
  | [] => ([], st)
  | c :: rest' =>
      match skip with
      | S k => replaceWalk (Some c) rest' k st
      | O =>
          match re prev rest with
          | Some (n, caps) =>
              let (rep, st1) := fn st (firstn n rest) caps in
              let (out, st2) := replaceWalk (Some c) rest' (n - 1) st1 in
              (rep ++ out, st2)
          | None =>
              let (out, st2) := replaceWalk (Some c) rest' 0 st in
              (c :: out, st2)
          end
      end
  end.

Definition replaceAllSt (s : jsstring) (st : St) : jsstring * St :=
  replaceWalk None s 0 st.
End GlobalReplace.

(** [s.replace(/re/g, fn)] for a callback without state. *)
Definition replaceAll {C : Type} (re : matcher C)
    (fn : jsstring -> C -> jsstring) (s : jsstring) : jsstring :=
  fst (replaceAllSt re (fun (st : unit) m caps => (fn m caps, st)) s tt).

(** [s.replace(/\bname=/g, 'to=')] *)
Definition renameAttr (name to : jsstring) (s : jsstring) : jsstring :=
  replaceAll (reWordLit name) (fun _ _ => to ++ lit "=") s.

(* ================================================================== *)
(** ** Dialect detector *)

Definition isJsxSvg (svgContent : jsstring) : bool :=
  if regexTest reExprValue svgContent then true
  else if regexTest reSpread svgContent then true
  else if regexTest (reWordLit (lit "className")) svgContent then true
  else
    existsb (fun jsxAttr => regexTest (reWordLit jsxAttr) svgContent)
            (dictKeys jsxToSvgAttributeMap).

(* ================================================================== *)
(** ** Expression scanner and expression substitution *)

Definition isQuoteChar (c : Z) : bool :=
  (c =? ch_dquote) || (c =? ch_squote) || (c =? ch_backtick).

Definition optEqb (o : option Z) (c : Z) : bool :=
  match o with Some q => c =? q | None => false end.

(** The inner loop of [replaceJsxExpressions]: [rest] is the text from
    index [j] on, [prevChar] is [content[j - 1]], and [stringChar] is
    [None] for the empty string it starts from.  The result is the value
    of [j] when the loop breaks with [found], or [None] when the text ends
    first. *)
Fixpoint scanBrace (rest : jsstring) (prevChar : Z) (j : nat) (balance : Z)
    (inString : bool) (stringChar : option Z) : option nat :=
  match rest with
  | [] => None
  | char :: rest' =>
      let '(inString1, stringChar1, balance1) :=
        if inString then
          if optEqb stringChar char && negb (prevChar =? ch_backslash)
          then (false, stringChar, balance)
          else (inString, stringChar, balance)
        else if isQuoteChar char then (true, Some char, balance)
        else if char =? ch_lbrace then (inString, stringChar, balance + 1)
        else if char =? ch_rbrace then (inString, stringChar, balance - 1)
        else (inString, stringChar, balance) in
      let j1 := S j in
      if negb inString1 && (balance1 =? 0) then Some j1
      else scanBrace rest' char j1 balance1 inString1 stringChar1
  end.

(** The scan that follows an opening [={] at [startIdx]: [j] starts at
    [startIdx + 2] with [balance = 1], outside a string. *)
Definition findClosing (content : jsstring) (startIdx : nat) : option nat :=
  scanBrace (skipn (startIdx + 2) content)
            (nth (startIdx + 1) content 0) (startIdx + 2) 1 false None.

(** The outer loop of [replaceJsxExpressions], run for at most [fuel]
    iterations; [None] means the budget ran out before the loop ended. *)
Fixpoint replaceLoop (fuel : nat) (content : jsstring) (currentIndex : nat)
    (result : jsstring) : option jsstring :=
  match fuel with
  | O => None
  | S fuel' =>
      if (currentIndex <? length content)%nat then
        match indexOf content (lit "={") currentIndex with
        | None => Some (result ++ sliceFrom content currentIndex)
        | Some startIdx =>
            let result1 := result ++ slice content currentIndex startIdx in
            match findClosing content startIdx with
            | Some j =>
                let expression := slice content (startIdx + 2) (j - 1) in
                replaceLoop fuel' content j
                  (result1 ++ lit "=" ++ dq ++ encodeJsx expression ++ dq)
            | None =>
                replaceLoop fuel' content (startIdx + 2)
                  (result1 ++ lit "={")
            end
        end
      else Some result
  end.

(** Every iteration moves [currentIndex] forward, so a budget of one more
    than the length of the text is never used up
    (see [replaceJsxExpressions_total]). *)
Definition replaceJsxExpressions (content : jsstring) : option jsstring :=
  replaceLoop (S (length content)) content 0 [].

(* ================================================================== *)
(** ** Forward transcoder *)

Definition spreadPlaceholder (spreadIndex : nat) (expression : jsstring)
    : jsstring :=
  lit "data-spread-" ++ decimal spreadIndex ++ lit "=" ++ dq
    ++ encodeJsx expression ++ dq.

(** The spread pass; the state is the counter [spreadIndex]. *)
Definition replaceSpreadsFrom (s : jsstring) (spreadIndex : nat)
    : jsstring * nat :=
  replaceAllSt reSpread
    (fun spreadIndex _ expression =>
       (spreadPlaceholder spreadIndex expression, S spreadIndex))
    s spreadIndex.

Definition replaceSpreads (s : jsstring) : jsstring :=
  fst (replaceSpreadsFrom s 0).

(** The loop over [Object.entries(m)], renaming every key to its value. *)
Definition renameByDict (m : dict) (s : jsstring) : jsstring :=
  fold_left (fun acc e => renameAttr (fst e) (snd e) acc) m s.

(** The passes of [convertJsxToSvg] that follow the expression pass. *)
Definition forwardRenames (svgContent : jsstring) : jsstring :=
  let svgContent := renameAttr (lit "className") (lit "class") svgContent in
  let svgContent := renameByDict jsxToSvgAttributeMap svgContent in
  let svgContent :=
    replaceAll reEvent
      (fun _ name => lit "data-jsx-event-" ++ name ++ lit "=") svgContent in
  renameAttr (lit "style") (lit "data-better-svg-style") svgContent.

Definition convertJsxToSvg (svgContent : jsstring) : option jsstring :=
  match replaceJsxExpressions svgContent with
  | Some svgContent => Some (forwardRenames (replaceSpreads svgContent))
  | None => None
  end.

(* ================================================================== *)
(** ** Reverse transcoder *)

(** [s.replace(/from/g, to)] for literal [from] and [to]. *)
Definition reLiteral (from : jsstring) : matcher unit :=
  fun _ rest =>
    match from with
    | [] => None
    | _ :: _ => if startsWith rest from then Some (length from, tt) else None
    end.

Definition replaceLiteral (from to : jsstring) (s : jsstring) : jsstring :=
  replaceAll (reLiteral from) (fun _ _ => to) s.

Definition unescapeEntities (value : jsstring) : jsstring :=
  replaceLiteral (lit "&amp;") (lit "&")
    (replaceLiteral (lit "&lt;") (lit "<")
       (replaceLiteral (lit "&gt;") (lit ">")
          (replaceLiteral (lit "&quot;") dq value))).

Definition restoreSpread (value : jsstring) : jsstring :=
  match decodeJsx value with
  | Some decoded => lit "{..." ++ decoded ++ lit "}"
  | None => lit "{..." ++ unescapeEntities value ++ lit "}"
  end.

Definition restorePayload (matched : jsstring) (caps : jsstring * jsstring)
    : jsstring :=
  let (attr, value) := caps in
  match decodeJsx value with
  | Some decoded => attr ++ lit "={" ++ decoded ++ lit "}"
  | None => matched
  end.

Definition convertSvgToJsx (svgContent : jsstring) : jsstring :=
  let svgContent := renameAttr (lit "class") (lit "className") svgContent in
  let svgContent := renameByDict svgToJsxAttributeMap svgContent in
  let svgContent :=
    replaceAll reSpreadPlaceholder (fun _ value => restoreSpread value)
               svgContent in
  let svgContent :=
    replaceAll reEventPlaceholder
      (fun _ caps => fst caps ++ lit "=" ++ dq ++ snd caps ++ dq)
      svgContent in
  let svgContent :=
    renameAttr (lit "data-better-svg-style") (lit "style") svgContent in
  replaceAll rePayloadAttr restorePayload svgContent.

(* ================================================================== *)
(** ** Optimization bridge *)

Record prepared : Type := { preparedSvg : jsstring; wasJsx : bool }.

Definition prepareForOptimization (svgContent : jsstring) : option prepared :=
  let wasJsx := isJsxSvg svgContent in
  if wasJsx then
    match convertJsxToSvg svgContent with
    | Some svg => Some {| preparedSvg := svg; wasJsx := true |}
    | None => None
    end
  else Some {| preparedSvg := svgContent; wasJsx := false |}.

Definition finalizeAfterOptimization (optimizedSvg : jsstring) (wasJsx : bool)
    : jsstring :=
  if wasJsx then convertSvgToJsx optimizedSvg else optimizedSvg.

(** The round trip of a text through both transcoders. *)
Definition roundTrip (x : jsstring) : option jsstring :=
  match convertJsxToSvg x with
  | Some svg => Some (convertSvgToJsx svg)
  | None => None
  end.

(* ================================================================== *)
(** ** Vocabulary of the properties *)

Definition isByte (b : Z) : Prop := 0 <= b < 256.

(** A well-formed string: every code unit is in range and every surrogate
    is half of a pair. *)
Fixpoint wellFormed (s : jsstring) : bool :=
  match s with
  | [] => true
  | c :: r =>
      if isHighSurrogate c then
        match r with
        | d :: r' => isLowSurrogate d && wellFormed r'
        | [] => false
        end
      else if isLowSurrogate c then false
      else inRange 0 0xFFFF c && wellFormed r
  end.

(** The characters of a payload: the underscore and the base64 alphabet
    with its padding character. *)
Definition isBase64Char (c : Z) : bool :=
  inRange 65 90 c || inRange 97 122 c || inRange 48 57 c
  || (c =? 43) || (c =? 47) || (c =? ch_equals).

Definition isPayloadChar (c : Z) : bool :=
  (c =? ch_underscore) || isBase64Char c.

(** The delimiters of markup and of expressions: both quotes, both braces
    and both angle brackets. *)
Definition delimiters : jsstring := Eval cbv in dq ++ lit "'{}<>".

(** The envelope of a payload: the text starts with the prefix and ends
    with the suffix. *)
Definition isEnvelope (s : jsstring) : Prop :=
  (exists t, s = lit "__JSX_BASE64__" ++ t) /\ (exists t, s = t ++ lit "__").

Fixpoint nodupb (l : list jsstring) : bool :=
  match l with
  | [] => true
  | x :: l' => negb (existsb (jseqb x) l') && nodupb l'
  end.

(** *** The expression scanner, as the specification words it

    A balance counter and a string mode with the remembered quote. *)
Inductive scanMode : Type :=
| Outside
| InString (quote : Z).

Definition scanState : Type := (Z * scanMode)%type.

(** The effect of one character [char], read after the character [prev]. *)
Inductive scanStep (prev char : Z) : scanState -> scanState -> Prop :=
| step_string_closes balance quote :
    char = quote -> prev <> ch_backslash ->
    scanStep prev char (balance, InString quote) (balance, Outside)
| step_string_inert balance quote :
    ~ (char = quote /\ prev <> ch_backslash) ->
    scanStep prev char (balance, InString quote) (balance, InString quote)
| step_string_opens balance :
    isQuoteChar char = true ->
    scanStep prev char (balance, Outside) (balance, InString char)
| step_brace_opens balance :
    char = ch_lbrace ->
    scanStep prev char (balance, Outside) (balance + 1, Outside)
| step_brace_closes balance :
    char = ch_rbrace ->
    scanStep prev char (balance, Outside) (balance - 1, Outside)
| step_other balance :
    isQuoteChar char = false -> char <> ch_lbrace -> char <> ch_rbrace ->
    scanStep prev char (balance, Outside) (balance, Outside).

(** [scanRun text j st r]: scanning [text] from index [j] in state [st]
    ends with [r], which is the index of the closing brace, or [None] when
    the text ends first.  The scan stops at the first character that brings
    the balance to 0 outside a string. *)
Inductive scanRun (text : jsstring) : nat -> scanState -> option nat -> Prop :=
| run_text_ends j st :
    (length text <= j)%nat -> scanRun text j st None
| run_found j st char :
    nth_error text j = Some char ->
    scanStep (nth (j - 1) text 0) char st (0, Outside) ->
    scanRun text j st (Some j)
| run_next j st st' char r :
    nth_error text j = Some char ->
    scanStep (nth (j - 1) text 0) char st st' ->
    st' <> (0, Outside) ->
    scanRun text (S j) st' r ->
    scanRun text j st r.

(** The state after the [={] that opens an expression. *)
Definition scanStart : scanState := (1, Outside).

(** The scanner state of the source, read as a state of the specification. *)
Definition scanStateOf (balance : Z) (inString : bool) (stringChar : option Z)
    : scanState :=
  match inString, stringChar with
  | true, Some q => (balance, InString q)
  | _, _ => (balance, Outside)
  end.

(** *** The spread substitution, as the specification words it

    The occurrences of [{...expr}] are taken from left to right, an
    expression being a non-empty run without closing brace; the [n]-th one
    becomes the placeholder of index [n], and any other character is kept. *)
Definition spreadOccurrence (expr rest : jsstring) : jsstring :=
  lit "{..." ++ expr ++ [ch_rbrace] ++ rest.

Definition startsWithSpread (s : jsstring) : Prop :=
  exists expr rest,
    expr <> [] /\ ~ In ch_rbrace expr /\ s = spreadOccurrence expr rest.

Inductive spreadRewrite : nat -> jsstring -> jsstring -> Prop :=
| spread_end n : spreadRewrite n [] []
| spread_match n expr rest out :
    expr <> [] -> ~ In ch_rbrace expr ->
    spreadRewrite (S n) rest out ->
    spreadRewrite n (spreadOccurrence expr rest)
                  (spreadPlaceholder n expr ++ out)
| spread_skip n c rest out :
    ~ startsWithSpread (c :: rest) ->
    spreadRewrite n rest out ->
    spreadRewrite n (c :: rest) (c :: out).

(** *** The detector, as the specification words it *)

(** The character before a position, given the text [pre] before it (or
    [prev] when [pre] is empty). *)
Fixpoint lastOr (prev : option Z) (pre : jsstring) : option Z :=
  match pre with
  | [] => prev
  | c :: pre' => lastOr (Some c) pre'
  end.

Definition charBefore (pre : jsstring) : option Z := lastOr None pre.

(** (a) a brace-delimited value, searched without nesting: [={], a
    non-empty run without closing brace, and a closing brace. *)
Definition hasExpressionValue (s : jsstring) : Prop :=
  exists pre body post,
    body <> [] /\ ~ In ch_rbrace body
    /\ s = pre ++ lit "={" ++ body ++ [ch_rbrace] ++ post.

(** (b) spread syntax. *)
Definition hasSpread (s : jsstring) : Prop :=
  exists pre expr post,
    expr <> [] /\ ~ In ch_rbrace expr /\ s = pre ++ spreadOccurrence expr post.

(** (c), (d) the attribute [name=] at a word boundary: the text before it
    is empty or ends with a character that is not a word character. *)
Definition hasAttribute (name s : jsstring) : Prop :=
  exists pre post,
    s = pre ++ name ++ lit "=" ++ post /\ isWordBefore (charBefore pre) = false.

(** *** Inputs of the examples *)

(** The attribute [name="value"], with a literal value in double quotes. *)
Definition attr (name value : string) : jsstring :=
  lit name ++ lit "=" ++ dq ++ lit value ++ dq.

(** Does the text of a result hold [pat]; a missing result holds nothing. *)
Definition resultIncludes (r : option jsstring) (pat : jsstring) : bool :=
  match r with
  | Some s => includes s pat
  | None => false
  end.

(** *** The patterns of the source, as regular expressions

    The fragment of the regular expressions that the source uses: literal
    text, a character class, a class repeated at least a given number of
    times (greedy or lazy), the word boundary, a capturing group, a back
    reference and sequencing. *)
Inductive regex : Type :=
| Lit (text : jsstring)
| Class (p : Z -> bool)
| Many (p : Z -> bool) (atLeast : nat)
| WordB
| Group (r : regex)
| Backref (k : nat)
| Seq (r1 r2 : regex).

(** [Match r prev s caps n caps']: after the character [prev], the pattern
    [r] matches the first [n] characters of [s]; [caps] are the groups
    captured before and [caps'] the groups captured after.  A search, greedy
    or lazy, finds one of these matches whenever there is one. *)
Inductive Match : regex -> option Z -> jsstring -> list jsstring -> nat
                  -> list jsstring -> Prop :=
| match_lit text prev rest caps :
    Match (Lit text) prev (text ++ rest) caps (length text) caps
| match_class p prev c rest caps :
    p c = true -> Match (Class p) prev (c :: rest) caps 1 caps
| match_many p atLeast prev run rest caps :
    Forall (fun c => p c = true) run -> (atLeast <= length run)%nat ->
    Match (Many p atLeast) prev (run ++ rest) caps (length run) caps
| match_wordb prev s caps :
    wordBoundary prev s = true -> Match WordB prev s caps 0 caps
| match_group r prev s caps n caps' :
    Match r prev s caps n caps' ->
    Match (Group r) prev s caps n (caps' ++ [firstn n s])
| match_backref k prev text rest caps :
    nth_error caps k = Some text ->
    Match (Backref k) prev (text ++ rest) caps (length text) caps
| match_seq r1 r2 prev s caps n1 caps1 n2 caps2 :
    Match r1 prev s caps n1 caps1 ->
    Match r2 (lastOr prev (firstn n1 s)) (skipn n1 s) caps1 n2 caps2 ->
    Match (Seq r1 r2) prev s caps (n1 + n2)%nat caps2.

Definition isAttrQuote (c : Z) : bool := (c =? ch_dquote) || (c =? ch_squote).

(** The pattern of the detector for a brace-delimited value. *)
Definition pExprValue : regex :=
  Seq (Lit (lit "={")) (Seq (Many notRBrace 1) (Lit (lit "}"))).

(** The spread pattern, with its group. *)
Definition pSpread : regex :=
  Seq (Lit (lit "{...")) (Seq (Group (Many notRBrace 1)) (Lit (lit "}"))).

(** [\bname=] *)
Definition pWordLit (name : jsstring) : regex :=
  Seq WordB (Lit (name ++ lit "=")).

(** [on[A-Z]\w*] *)
Definition pEventName : regex :=
  Seq (Lit (lit "on")) (Seq (Class isUpper) (Many isWordChar 0)).

(** The event-handler pattern. *)
Definition pEvent : regex :=
  Seq WordB (Seq (Group pEventName) (Lit (lit "="))).

(** An equals sign and a double-quoted value, the value captured. *)
Definition pQuotedValue : regex :=
  Seq (Lit (lit "=" ++ dq)) (Seq (Group (Many notDQuote 0)) (Lit dq)).

(** The spread placeholder pattern. *)
Definition pSpreadPlaceholder : regex :=
  Seq WordB (Seq (Lit (lit "data-spread-")) (Seq (Many isDigit 1) pQuotedValue)).

(** The event placeholder pattern. *)
Definition pEventPlaceholder : regex :=
  Seq WordB (Seq (Lit (lit "data-jsx-event-"))
                 (Seq (Group pEventName) pQuotedValue)).

(** The payload pattern; its back reference is to the second group. *)
Definition pPayloadAttr : regex :=
  Seq (Group (Many isWordChar 1))
    (Seq (Lit (lit "="))
       (Seq (Group (Class isAttrQuote))
          (Seq (Group (Seq (Lit (lit "__JSX_BASE64__"))
                           (Seq (Many notQuote 0) (Lit (lit "__")))))
               (Backref 1)))).

(* ================================================================== *)
(** ** The previews of [svgGutterPreview.ts]

    The hover provider and the gutter preview each carry a private
    [convertJsxToSvg] with a table of its own: a brace-delimited value is
    unwrapped into a quoted one (the pattern is the one of the detector,
    without nesting), then the attributes are renamed. *)

Module SvgHoverProvider.

Definition jsxToSvgAttributes : dict :=
  [ (lit "strokeWidth", lit "stroke-width");
    (lit "strokeLinecap", lit "stroke-linecap");
    (lit "strokeLinejoin", lit "stroke-linejoin");
    (lit "strokeDasharray", lit "stroke-dasharray");
    (lit "strokeDashoffset", lit "stroke-dashoffset");
    (lit "strokeMiterlimit", lit "stroke-miterlimit");
    (lit "strokeOpacity", lit "stroke-opacity");
    (lit "fillOpacity", lit "fill-opacity");
    (lit "fillRule", lit "fill-rule");
    (lit "clipPath", lit "clip-path");
    (lit "clipRule", lit "clip-rule");
    (lit "fontFamily", lit "font-family");
    (lit "fontSize", lit "font-size");
    (lit "fontStyle", lit "font-style");
    (lit "fontWeight", lit "font-weight");
    (lit "textAnchor", lit "text-anchor");
    (lit "textDecoration", lit "text-decoration");
    (lit "dominantBaseline", lit "dominant-baseline");
    (lit "alignmentBaseline", lit "alignment-baseline");
    (lit "baselineShift", lit "baseline-shift");
    (lit "stopColor", lit "stop-color");
    (lit "stopOpacity", lit "stop-opacity");
    (lit "colorInterpolation", lit "color-interpolation");
    (lit "colorInterpolationFilters", lit "color-interpolation-filters");
    (lit "floodColor", lit "flood-color");
    (lit "floodOpacity", lit "flood-opacity");
    (lit "lightingColor", lit "lighting-color");
    (lit "markerStart", lit "marker-start");
    (lit "markerMid", lit "marker-mid");
    (lit "markerEnd", lit "marker-end");
    (lit "paintOrder", lit "paint-order");
    (lit "vectorEffect", lit "vector-effect");
    (lit "shapeRendering", lit "shape-rendering");
    (lit "imageRendering", lit "image-rendering");
    (lit "pointerEvents", lit "pointer-events");
    (lit "xlinkHref", lit "xlink:href") ].

(** [s.replace(re, '="$1"')], [re] being the equals sign, the opening
    brace, the captured run without closing brace and the closing brace. *)
Definition convertJsxToSvg (svgContent : jsstring) : jsstring :=
  let svgContent :=
    replaceAll reExprValue (fun _ body => lit "=" ++ dq ++ body ++ dq)
               svgContent in
  let svgContent := renameAttr (lit "className") (lit "class") svgContent in
  renameByDict jsxToSvgAttributes svgContent.

End SvgHoverProvider.

Module SvgGutterPreview.

Definition jsxToSvgAttributes : dict :=
  [ (lit "strokeWidth", lit "stroke-width");
    (lit "strokeLinecap", lit "stroke-linecap");
    (lit "strokeLinejoin", lit "stroke-linejoin");
    (lit "strokeDasharray", lit "stroke-dasharray");
    (lit "strokeDashoffset", lit "stroke-dashoffset");
    (lit "strokeMiterlimit", lit "stroke-miterlimit");
    (lit "strokeOpacity", lit "stroke-opacity");
    (lit "fillOpacity", lit "fill-opacity");
    (lit "fillRule", lit "fill-rule");
    (lit "clipPath", lit "clip-path");
    (lit "clipRule", lit "clip-rule");
    (lit "fontFamily", lit "font-family");
    (lit "fontSize", lit "font-size");
    (lit "fontStyle", lit "font-style");
    (lit "fontWeight", lit "font-weight");
    (lit "textAnchor", lit "text-anchor");
    (lit "textDecoration", lit "text-decoration");
    (lit "dominantBaseline", lit "dominant-baseline");
    (lit "alignmentBaseline", lit "alignment-baseline");
    (lit "baselineShift", lit "baseline-shift");
    (lit "stopColor", lit "stop-color");
    (lit "stopOpacity", lit "stop-opacity");
    (lit "colorInterpolation", lit "color-interpolation");
    (lit "colorInterpolationFilters", lit "color-interpolation-filters");
    (lit "floodColor", lit "flood-color");
    (lit "floodOpacity", lit "flood-opacity");
    (lit "lightingColor", lit "lighting-color");
    (lit "markerStart", lit "marker-start");
    (lit "markerMid", lit "marker-mid");
    (lit "markerEnd", lit "marker-end");
    (lit "paintOrder", lit "paint-order");
    (lit "vectorEffect", lit "vector-effect");
    (lit "shapeRendering", lit "shape-rendering");
    (lit "imageRendering", lit "image-rendering");
    (lit "pointerEvents", lit "pointer-events");
    (lit "xlinkHref", lit "xlink:href") ].

Definition convertJsxToSvg (svgContent : jsstring) : jsstring :=
  let svgContent :=
    replaceAll reExprValue (fun _ body => lit "=" ++ dq ++ body ++ dq)
               svgContent in
  let svgContent := renameAttr (lit "className") (lit "class") svgContent in
  renameByDict jsxToSvgAttributes svgContent.

End SvgGutterPreview.

(* ================================================================== *)
(** ** The webview of the editor: [escapeHtml] of [SvgEditorProvider] *)

(** The table [map] of the function. *)
Definition escapeHtml_map : dict :=
  [ (lit "&", lit "&amp;");
    (lit "<", lit "&lt;");
    (lit ">", lit "&gt;");
    (dq, lit "&quot;");
    (lit "'", lit "&#039;") ].

Definition ch_amp : Z := 38.
Definition ch_lt : Z := 60.
Definition ch_gt : Z := 62.

(** The class of the ampersand, both angle brackets and both quotes. *)
Definition isHtmlSpecial (c : Z) : bool :=
  (c =? ch_amp) || (c =? ch_lt) || (c =? ch_gt) || (c =? ch_dquote)
  || (c =? ch_squote).

Definition reHtmlSpecial : matcher unit :=
  fun _ rest =>
    match rest with
    | c :: _ => if isHtmlSpecial c then Some (1%nat, tt) else None
    | [] => None
    end.

(** [text.replace(re, m => map[m])]; a key that the table lacks would read
    [undefined]. *)
Definition escapeHtml (text : jsstring) : jsstring :=
  replaceAll reHtmlSpecial
    (fun m _ =>
       match dictGet escapeHtml_map m with
       | Some entity => entity
       | None => lit "undefined"
       end)
    text.

(* ================================================================== *)
(** ** Vocabulary of the further properties *)

(** [String.prototype.toWellFormed]: every surrogate that is not half of a
    pair becomes U+FFFD. *)
Fixpoint toWellFormed (s : jsstring) : jsstring :=
  match s with
  | [] => []
  | c :: r =>
      if isHighSurrogate c then
        match r with
        | d :: r' =>
            if isLowSurrogate d then c :: d :: toWellFormed r'
            else replacementChar :: toWellFormed r
        | [] => [replacementChar]
        end
      else if isLowSurrogate c then replacementChar :: toWellFormed r
      else c :: toWellFormed r
  end.

(** A JavaScript string: every code unit is a 16-bit value. *)
Definition isCodeUnit (c : Z) : Prop := 0 <= c < 65536.

(** The braces of [e] are balanced when read at depth [depth]: no closing
    brace comes at depth 0 and the text ends at depth 0. *)
Fixpoint balancedFrom (e : jsstring) (depth : Z) : bool :=
  match e with
  | [] => depth =? 0
  | c :: r =>
      if c =? ch_lbrace then balancedFrom r (depth + 1)
      else if c =? ch_rbrace then (1 <=? depth) && balancedFrom r (depth - 1)
      else balancedFrom r depth
  end.

Definition balanced (e : jsstring) : bool := balancedFrom e 0.

(** A text without quote characters (double, single, backtick). *)
Definition quoteFree (e : jsstring) : Prop :=
  Forall (fun c => isQuoteChar c = false) e.

(** The effect of [escapeHtml] on one code unit. *)
Definition escapeChar (c : Z) : jsstring :=
  if c =? ch_amp then lit "&amp;"
  else if c =? ch_lt then lit "&lt;"
  else if c =? ch_gt then lit "&gt;"
  else if c =? ch_dquote then lit "&quot;"
  else if c =? ch_squote then lit "&#039;"
  else [c].

(** The global replacement with a callback without state, resumed after
    the character [prev]; [replaceAll] starts it at the head of the text. *)
Definition replaceFrom {C : Type} (re : matcher C)
    (fn : jsstring -> C -> jsstring) (prev : option Z) (s : jsstring)
    : jsstring :=
  fst (replaceWalk re (fun (st : unit) m caps => (fn m caps, st)) prev s 0 tt).

(** No occurrence of [from] starts inside the chunk, whatever follows. *)
Definition chunkFree (from chunk : jsstring) : Prop :=
  forall (rest : jsstring) (i : nat),
    (i < length chunk)%nat ->
    startsWith (skipn i (chunk ++ rest)) from = false.

(* ================================================================== *)
(** * Lemmas *)

(* ================================================================== *)
(** ** Strings: basic facts *)

Ltac zdm := Z.div_mod_to_equations; lia.

Lemma startsWith_app (p s : jsstring) : startsWith (p ++ s) p = true.
Proof.
  induction p as [|a p IH]; simpl; [reflexivity|].
  now rewrite Z.eqb_refl, IH.
Qed.

Lemma startsWith_true (s p : jsstring) :
  startsWith s p = true -> exists t, s = p ++ t.
Proof.
  revert s; induction p as [|a p IH]; intros s H; simpl in *.
  - now exists s.
  - destruct s as [|b s]; [discriminate|].
    apply andb_true_iff in H as [Hab Hs].
    apply Z.eqb_eq in Hab; subst b.
    destruct (IH _ Hs) as [t ->]. now exists t.
Qed.

Lemma startsWith_iff (s p : jsstring) :
  startsWith s p = true <-> exists t, s = p ++ t.
Proof.
  split; [apply startsWith_true|].
  intros [t ->]; apply startsWith_app.
Qed.

Lemma endsWith_app (s p : jsstring) : endsWith (s ++ p) p = true.
Proof. unfold endsWith. rewrite rev_app_distr. apply startsWith_app. Qed.

Lemma endsWith_iff (s p : jsstring) :
  endsWith s p = true <-> exists t, s = t ++ p.
Proof.
  unfold endsWith; rewrite startsWith_iff; split.
  - intros [t H]. exists (rev t).
    rewrite <- (rev_involutive s), H, rev_app_distr.
    now rewrite rev_involutive.
  - intros [t ->]. exists (rev t). apply rev_app_distr.
Qed.

Lemma slice_middle (p x q : jsstring) :
  slice (p ++ x ++ q) (length p) (length (p ++ x ++ q) - length q) = x.
Proof.
  unfold slice. rewrite skipn_app, skipn_all, Nat.sub_diag. simpl.
  rewrite !length_app.
  replace (length p + (length x + length q) - length q - length p)%nat
    with (length x + 0)%nat by lia.
  rewrite firstn_app_2. simpl. apply app_nil_r.
Qed.

(* ================================================================== *)
(** ** Base64: decoding undoes encoding *)

Lemma b64char_cases (n : Z) :
  0 <= n < 64 -> b64char n <> ch_equals /\ unbase64 (b64char n) = Some n.
Proof.
  intros H.
  assert (Hk : exists k, (k < 64)%nat /\ n = Z.of_nat k).
  { exists (Z.to_nat n). split; lia. }
  destruct Hk as (k & Hk & ->).
  do 64 (destruct k as [|k]; [split; [discriminate | reflexivity] | ]).
  lia.
Qed.

Lemma sextets_cons (n : Z) (s : jsstring) :
  0 <= n < 64 -> sextets (b64char n :: s) = n :: sextets s.
Proof.
  intros H. destruct (b64char_cases n H) as [Hne Hun].
  simpl. apply Z.eqb_neq in Hne. now rewrite Hne, Hun.
Qed.

Lemma base64_roundtrip (bs : list Z) :
  Forall isByte bs -> base64_decode (base64_encode bs) = bs.
Proof.
  unfold base64_decode.
  remember (length bs) as n eqn:Hn.
  revert bs Hn. induction n as [n IH] using lt_wf_ind. intros bs Hn Hb.
  destruct bs as [|a [|b [|c rest]]].
  - reflexivity.
  - inversion Hb as [|? ? Ha _]; subst. unfold isByte in Ha.
    cbn [base64_encode].
    rewrite !sextets_cons by zdm. cbn. f_equal. zdm.
  - inversion Hb as [|? ? Ha Hb']; subst.
    inversion Hb' as [|? ? Hb0 _]; subst. unfold isByte in *.
    cbn [base64_encode].
    rewrite !sextets_cons by zdm. cbn. f_equal; [zdm|]. f_equal. zdm.
  - inversion Hb as [|? ? Ha Hb']; subst.
    inversion Hb' as [|? ? Hb0 Hb'']; subst.
    inversion Hb'' as [|? ? Hc Hrest]; subst. unfold isByte in *.
    cbn [base64_encode].
    rewrite !sextets_cons by zdm. cbn [bytesOfSextets].
    rewrite (IH (length rest)); [| simpl; lia | reflexivity | assumption].
    f_equal; [zdm|]. f_equal; [zdm|]. f_equal. zdm.
Qed.

(* ================================================================== *)
(** ** UTF-8: decoding undoes encoding on well-formed strings *)

Lemma inRange_iff (lo hi b : Z) : inRange lo hi b = true <-> lo <= b <= hi.
Proof. unfold inRange. rewrite andb_true_iff, !Z.leb_le. tauto. Qed.

Lemma inRange_false_iff (lo hi b : Z) :
  inRange lo hi b = false <-> b < lo \/ hi < b.
Proof. unfold inRange. rewrite andb_false_iff, !Z.leb_gt. tauto. Qed.

Lemma second3_iff (b0 b1 : Z) :
  second3 b0 b1 = true <->
  (b0 = 0xE0 /\ 0xA0 <= b1 <= 0xBF) \/ (b0 = 0xED /\ 0x80 <= b1 <= 0x9F)
  \/ (b0 <> 0xE0 /\ b0 <> 0xED /\ 0x80 <= b1 <= 0xBF).
Proof.
  unfold second3, isCont.
  destruct (Z.eqb_spec b0 0xE0); [rewrite inRange_iff; lia|].
  destruct (Z.eqb_spec b0 0xED); rewrite inRange_iff; lia.
Qed.

Lemma second4_iff (b0 b1 : Z) :
  second4 b0 b1 = true <->
  (b0 = 0xF0 /\ 0x90 <= b1 <= 0xBF) \/ (b0 = 0xF4 /\ 0x80 <= b1 <= 0x8F)
  \/ (b0 <> 0xF0 /\ b0 <> 0xF4 /\ 0x80 <= b1 <= 0xBF).
Proof.
  unfold second4, isCont.
  destruct (Z.eqb_spec b0 0xF0); [rewrite inRange_iff; lia|].
  destruct (Z.eqb_spec b0 0xF4); rewrite inRange_iff; lia.
Qed.

Lemma three_byte_facts (c : Z) :
  0x800 <= c <= 0xFFFF -> ~ (0xD800 <= c <= 0xDFFF) ->
  let b0 := 0xE0 + c / 4096 in
  let b1 := 0x80 + (c / 64) mod 64 in
  let b2 := 0x80 + c mod 64 in
  0xE0 <= b0 <= 0xEF /\ second3 b0 b1 = true /\ 0x80 <= b2 <= 0xBF
  /\ (b0 - 0xE0) * 4096 + (b1 - 0x80) * 64 + (b2 - 0x80) = c.
Proof.
  intros Hc Hs b0 b1 b2. rewrite second3_iff. subst b0 b1 b2.
  zdm.
Qed.

Lemma four_byte_facts (cp : Z) :
  0x10000 <= cp <= 0x10FFFF ->
  let b0 := 0xF0 + cp / 262144 in
  let b1 := 0x80 + (cp / 4096) mod 64 in
  let b2 := 0x80 + (cp / 64) mod 64 in
  let b3 := 0x80 + cp mod 64 in
  0xF0 <= b0 <= 0xF4 /\ second4 b0 b1 = true /\ 0x80 <= b2 <= 0xBF
  /\ 0x80 <= b3 <= 0xBF
  /\ (b0 - 0xF0) * 262144 + (b1 - 0x80) * 4096 + (b2 - 0x80) * 64
     + (b3 - 0x80) = cp.
Proof.
  intros Hc b0 b1 b2 b3. rewrite second4_iff. subst b0 b1 b2 b3.
  zdm.
Qed.

Lemma surrogate_iff (c : Z) :
  (isHighSurrogate c = true <-> 0xD800 <= c <= 0xDBFF)
  /\ (isLowSurrogate c = true <-> 0xDC00 <= c <= 0xDFFF).
Proof. split; apply inRange_iff. Qed.

Lemma surrogate_false_iff (c : Z) :
  (isHighSurrogate c = false <-> c < 0xD800 \/ 0xDBFF < c)
  /\ (isLowSurrogate c = false <-> c < 0xDC00 \/ 0xDFFF < c).
Proof. split; apply inRange_false_iff. Qed.

Lemma utf8_decode_1 (b : Z) (r : list Z) :
  0 <= b <= 0x7F -> utf8_decode (b :: r) = b :: utf8_decode r.
Proof.
  intros H. apply inRange_iff in H. cbn [utf8_decode]. now rewrite H.
Qed.

Lemma utf8_decode_2 (b0 b1 : Z) (r : list Z) :
  0xC2 <= b0 <= 0xDF -> 0x80 <= b1 <= 0xBF ->
  utf8_decode (b0 :: b1 :: r)
  = ((b0 - 0xC0) * 64 + (b1 - 0x80)) :: utf8_decode r.
Proof.
  intros H0 H1. remember (b1 :: r) as r0 eqn:E. cbn [utf8_decode].
  replace (inRange 0 0x7F b0) with false
    by (symmetry; apply inRange_false_iff; lia).
  apply inRange_iff in H0, H1. rewrite H0. subst r0.
  unfold isCont. now rewrite H1.
Qed.

Lemma utf8_decode_3 (b0 b1 b2 : Z) (r : list Z) :
  0xE0 <= b0 <= 0xEF -> second3 b0 b1 = true -> 0x80 <= b2 <= 0xBF ->
  utf8_decode (b0 :: b1 :: b2 :: r)
  = ((b0 - 0xE0) * 4096 + (b1 - 0x80) * 64 + (b2 - 0x80)) :: utf8_decode r.
Proof.
  intros H0 H1 H2. remember (b1 :: b2 :: r) as r0 eqn:E. cbn [utf8_decode].
  replace (inRange 0 0x7F b0) with false
    by (symmetry; apply inRange_false_iff; lia).
  replace (inRange 0xC2 0xDF b0) with false
    by (symmetry; apply inRange_false_iff; lia).
  apply inRange_iff in H0, H2. rewrite H0. subst r0.
  unfold isCont. now rewrite H1, H2.
Qed.

Lemma utf8_decode_4 (b0 b1 b2 b3 : Z) (r : list Z) :
  0xF0 <= b0 <= 0xF4 -> second4 b0 b1 = true ->
  0x80 <= b2 <= 0xBF -> 0x80 <= b3 <= 0xBF ->
  utf8_decode (b0 :: b1 :: b2 :: b3 :: r)
  = surrogatePair ((b0 - 0xF0) * 262144 + (b1 - 0x80) * 4096
                   + (b2 - 0x80) * 64 + (b3 - 0x80)) ++ utf8_decode r.
Proof.
  intros H0 H1 H2 H3. remember (b1 :: b2 :: b3 :: r) as r0 eqn:E.
  cbn [utf8_decode].
  replace (inRange 0 0x7F b0) with false
    by (symmetry; apply inRange_false_iff; lia).
  replace (inRange 0xC2 0xDF b0) with false
    by (symmetry; apply inRange_false_iff; lia).
  replace (inRange 0xE0 0xEF b0) with false
    by (symmetry; apply inRange_false_iff; lia).
  apply inRange_iff in H0, H2, H3. rewrite H0. subst r0.
  unfold isCont. now rewrite H1, H2, H3.
Qed.

Lemma surrogatePair_of (c d : Z) :
  0xD800 <= c <= 0xDBFF -> 0xDC00 <= d <= 0xDFFF ->
  surrogatePair (0x10000 + (c - 0xD800) * 0x400 + (d - 0xDC00)) = [c; d].
Proof. intros Hc Hd. unfold surrogatePair. f_equal; [|f_equal]; zdm. Qed.

Lemma utf8_roundtrip (s : jsstring) :
  wellFormed s = true -> utf8_decode (utf8_encode s) = s.
Proof.
  remember (length s) as n eqn:Hn.
  revert s Hn. induction n as [n IH] using lt_wf_ind. intros s Hn Hwf.
  destruct s as [|c r]; [reflexivity|].
  cbn [wellFormed] in Hwf. cbn [utf8_encode].
  destruct (isHighSurrogate c) eqn:Hhi.
  - destruct r as [|d r']; [discriminate|].
    apply andb_true_iff in Hwf as [Hlo Hwf].
    rewrite Hlo.
    apply surrogate_iff in Hhi, Hlo.
    replace (c <? 0x80) with false by (symmetry; apply Z.ltb_ge; lia).
    replace (c <? 0x800) with false by (symmetry; apply Z.ltb_ge; lia).
    cbv zeta.
    set (cp := 0x10000 + (c - 0xD800) * 0x400 + (d - 0xDC00)).
    destruct (four_byte_facts cp) as (F0 & F1 & F2 & F3 & F4);
      [subst cp; lia|].
    rewrite utf8_decode_4 by assumption.
    rewrite F4. subst cp. rewrite surrogatePair_of by assumption.
    cbn [app]. do 2 f_equal.
    apply (IH (length r')); [simpl in Hn; lia | reflexivity | assumption].
  - destruct (isLowSurrogate c) eqn:Hlo; [discriminate|].
    apply andb_true_iff in Hwf as [Hrange Hwf].
    apply surrogate_false_iff in Hhi, Hlo. apply inRange_iff in Hrange.
    assert (Hr : utf8_decode (utf8_encode r) = r).
    { apply (IH (length r)); [simpl in Hn; lia | reflexivity | assumption]. }
    destruct (Z.ltb_spec c 0x80) as [E1|E1].
    + rewrite utf8_decode_1 by lia. now rewrite Hr.
    + destruct (Z.ltb_spec c 0x800) as [E2|E2].
      * rewrite utf8_decode_2 by zdm. rewrite Hr. f_equal. zdm.
      * destruct (three_byte_facts c) as (F0 & F1 & F2 & F3); [lia | lia |].
        rewrite utf8_decode_3 by assumption. now rewrite F3, Hr.
Qed.

Lemma replacement_bytes (l : list Z) :
  Forall isByte l -> Forall isByte (replacementBytes ++ l).
Proof.
  intros Hl. unfold replacementBytes. cbn [app].
  repeat (constructor; [unfold isByte; lia|]). assumption.
Qed.

Lemma utf8_encode_bytes (s : jsstring) :
  Forall (fun c => 0 <= c < 65536) s -> Forall isByte (utf8_encode s).
Proof.
  remember (length s) as n eqn:Hn.
  revert s Hn. induction n as [n IH] using lt_wf_ind. intros s Hn Hs.
  destruct s as [|c r]; [constructor|].
  inversion Hs as [|? ? Hc Hr]; subst.
  assert (IHr : Forall isByte (utf8_encode r)).
  { apply (IH (length r)); [simpl; lia | reflexivity | assumption]. }
  cbn [utf8_encode].
  destruct (Z.ltb_spec c 0x80) as [E1|E1].
  { constructor; [unfold isByte; lia | assumption]. }
  destruct (Z.ltb_spec c 0x800) as [E2|E2].
  { repeat (constructor; [unfold isByte; zdm|]). assumption. }
  destruct (isHighSurrogate c) eqn:Hhi.
  - destruct r as [|d r'].
    + rewrite <- (app_nil_r replacementBytes).
      apply replacement_bytes. constructor.
    + destruct (isLowSurrogate d) eqn:Hlo; [|now apply replacement_bytes].
      inversion Hr as [|? ? Hd Hr']; subst. cbv zeta.
      apply surrogate_iff in Hhi, Hlo.
      set (cp := 0x10000 + (c - 0xD800) * 0x400 + (d - 0xDC00)).
      assert (Hcp : 0x10000 <= cp <= 0x10FFFF) by (subst cp; lia).
      clearbody cp.
      repeat (constructor; [unfold isByte; zdm|]).
      apply (IH (length r')); [simpl; lia | reflexivity | assumption].
  - destruct (isLowSurrogate c) eqn:Hlo; [now apply replacement_bytes|].
    repeat (constructor; [unfold isByte; zdm|]). assumption.
Qed.

Lemma wellFormed_range (s : jsstring) :
  wellFormed s = true -> Forall (fun c => 0 <= c < 65536) s.
Proof.
  remember (length s) as n eqn:Hn.
  revert s Hn. induction n as [n IH] using lt_wf_ind. intros s Hn Hwf.
  destruct s as [|c r]; [constructor|].
  cbn [wellFormed] in Hwf.
  destruct (isHighSurrogate c) eqn:Hhi.
  - destruct r as [|d r']; [discriminate|].
    apply andb_true_iff in Hwf as [Hlo Hwf].
    apply surrogate_iff in Hhi, Hlo.
    constructor; [lia|]. constructor; [lia|].
    apply (IH (length r')); [simpl in Hn; lia | reflexivity | assumption].
  - destruct (isLowSurrogate c) eqn:Hlo; [discriminate|].
    apply andb_true_iff in Hwf as [Hrange Hwf]. apply inRange_iff in Hrange.
    constructor; [lia|].
    apply (IH (length r)); [simpl in Hn; lia | reflexivity | assumption].
Qed.

(* ================================================================== *)
(** ** Payload codec *)

Lemma encodeJsx_decodeJsx (body : jsstring) :
  decodeJsx (encodeJsx body)
  = Some (utf8_decode (base64_decode (base64_encode (utf8_encode body)))).
Proof.
  unfold decodeJsx, encodeJsx.
  rewrite startsWith_app.
  rewrite app_assoc, endsWith_app, <- app_assoc. cbn [andb].
  now rewrite slice_middle.
Qed.

Lemma b64char_alphabet (n : Z) : isBase64Char (b64char n) = true.
Proof.
  unfold b64char.
  destruct (Nat.lt_ge_cases (Z.to_nat n) (length base64Alphabet)) as [H|H].
  - assert (Hall : forallb isBase64Char base64Alphabet = true)
      by (vm_compute; reflexivity).
    rewrite forallb_forall in Hall. apply Hall. now apply nth_In.
  - now rewrite nth_overflow.
Qed.

Lemma base64_encode_alphabet (bs : list Z) :
  Forall (fun c => isBase64Char c = true) (base64_encode bs).
Proof.
  remember (length bs) as n eqn:Hn.
  revert bs Hn. induction n as [n IH] using lt_wf_ind. intros bs Hn.
  destruct bs as [|a [|b [|c rest]]]; cbn [base64_encode].
  - constructor.
  - repeat (constructor; [apply b64char_alphabet || reflexivity|]).
    constructor.
  - repeat (constructor; [apply b64char_alphabet || reflexivity|]).
    constructor.
  - repeat (constructor; [apply b64char_alphabet|]).
    apply (IH (length rest)); [simpl in Hn; subst n; simpl; lia | reflexivity].
Qed.

Lemma jseqb_eq (s t : jsstring) : jseqb s t = true <-> s = t.
Proof.
  revert t; induction s as [|a s IH]; intros [|b t]; simpl;
    try (split; [discriminate | discriminate]); try tauto.
  rewrite andb_true_iff, Z.eqb_eq, IH. split.
  - intros [-> ->]. reflexivity.
  - intros H; inversion H; auto.
Qed.

Lemma jseqb_refl (s : jsstring) : jseqb s s = true.
Proof. now apply jseqb_eq. Qed.

(* ================================================================== *)
(** ** Attribute dictionary *)

Lemma dictGet_In (m : dict) (k v : jsstring) :
  dictGet m k = Some v -> In (k, v) m.
Proof.
  induction m as [|[k' v'] m IH]; simpl; [discriminate|].
  destruct (jseqb k' k) eqn:E.
  - apply jseqb_eq in E. intros H; inversion H; subst. now left.
  - intros H. right. now apply IH.
Qed.

Lemma nodupb_NoDup (l : list jsstring) : nodupb l = true -> NoDup l.
Proof.
  induction l as [|x l IH]; simpl; [constructor|].
  rewrite andb_true_iff, negb_true_iff. intros [Hx Hl].
  constructor; [|now apply IH].
  intros Hin.
  assert (existsb (jseqb x) l = true)
    by (apply existsb_exists; exists x; split; [assumption | apply jseqb_refl]).
  congruence.
Qed.

(* ================================================================== *)
(** ** Expression scanner *)

Lemma scanStep_functional (prev char : Z) (st st1 st2 : scanState) :
  scanStep prev char st st1 -> scanStep prev char st st2 -> st1 = st2.
Proof.
  intros H1 H2.
  inversion H1; subst; inversion H2; subst;
    try reflexivity; try congruence; try tauto; try discriminate;
    try (exfalso; match goal with
                  | H : isQuoteChar _ = _ |- _ => vm_compute in H; congruence
                  end).
Qed.

(** One iteration of the source loop, read as a step of the specification. *)
Lemma scanStep_of_source (prev char balance : Z) (inString : bool)
    (stringChar : option Z) :
  (inString = true -> stringChar <> None) ->
  scanStep prev char (scanStateOf balance inString stringChar)
    (let '(inString1, stringChar1, balance1) :=
       if inString then
         if optEqb stringChar char && negb (prev =? ch_backslash)
         then (false, stringChar, balance)
         else (inString, stringChar, balance)
       else if isQuoteChar char then (true, Some char, balance)
       else if char =? ch_lbrace then (inString, stringChar, balance + 1)
       else if char =? ch_rbrace then (inString, stringChar, balance - 1)
       else (inString, stringChar, balance) in
     scanStateOf balance1 inString1 stringChar1).
Proof.
  intros Hinv. destruct inString.
  - destruct stringChar as [q|]; [|now destruct Hinv].
    cbn [optEqb scanStateOf].
    destruct (Z.eqb_spec char q) as [E|E];
      destruct (Z.eqb_spec prev ch_backslash) as [P|P]; cbn [andb negb scanStateOf].
    + apply step_string_inert. tauto.
    + now apply step_string_closes.
    + apply step_string_inert. tauto.
    + apply step_string_inert. tauto.
  - cbn [scanStateOf].
    destruct (isQuoteChar char) eqn:Q.
    + cbn [scanStateOf]. now apply step_string_opens.
    + destruct (Z.eqb_spec char ch_lbrace) as [L|L].
      * cbn [scanStateOf]. now apply step_brace_opens.
      * destruct (Z.eqb_spec char ch_rbrace) as [R|R]; cbn [scanStateOf].
        -- now apply step_brace_closes.
        -- now apply step_other.
Qed.

Lemma scanStateOf_done (balance : Z) (inString : bool) (stringChar : option Z) :
  (inString = true -> stringChar <> None) ->
  negb inString && (balance =? 0) = true
  <-> scanStateOf balance inString stringChar = (0, Outside).
Proof.
  intros Hinv. destruct inString; cbn.
  - destruct stringChar; [|now destruct Hinv]. split; discriminate.
  - rewrite Z.eqb_eq. split; [now intros -> | intros H; now inversion H].
Qed.

Lemma skipn_cons_nth (A : Type) (l : list A) (j : nat) (x : A) (r : list A) :
  skipn j l = x :: r -> nth_error l j = Some x /\ skipn (S j) l = r.
Proof.
  revert l; induction j as [|j IH]; intros l H.
  - destruct l; inversion H; subst. now split.
  - destruct l as [|y l]; [discriminate|]. simpl in H. now apply IH.
Qed.

Lemma skipn_nil_length (A : Type) (l : list A) (j : nat) :
  skipn j l = [] -> (length l <= j)%nat.
Proof.
  revert l; induction j as [|j IH]; intros l H.
  - destruct l; [simpl; lia | discriminate].
  - destruct l as [|y l]; [simpl; lia|]. simpl in *. apply IH in H. lia.
Qed.

Lemma scanRun_inv (text : jsstring) (j : nat) (st : scanState) (char : Z)
    (r : option nat) :
  nth_error text j = Some char -> scanRun text j st r ->
  exists st', scanStep (nth (j - 1) text 0) char st st'
    /\ ((st' = (0, Outside) /\ r = Some j)
        \/ (st' <> (0, Outside) /\ scanRun text (S j) st' r)).
Proof.
  intros Hn H. inversion H as [j0 st0 Hlen | j0 st0 c Hc Hstep
                               | j0 st0 st' c r0 Hc Hstep Hne Hrun]; subst.
  - apply nth_error_None in Hlen. congruence.
  - assert (c = char) by congruence. subst c.
    exists (0, Outside). split; [assumption | now left].
  - assert (c = char) by congruence. subst c.
    exists st'. split; [assumption | now right].
Qed.

(** The inner loop of the source computes the run of the specification; it
    returns the index after the closing brace. *)
Lemma scanBrace_scanRun (content rest : jsstring) :
  forall (j : nat) (balance : Z) (inString : bool) (stringChar : option Z)
         (r : option nat),
    skipn j content = rest ->
    (inString = true -> stringChar <> None) ->
    scanBrace rest (nth (j - 1) content 0) j balance inString stringChar
    = option_map S r
    <-> scanRun content j (scanStateOf balance inString stringChar) r.
Proof.
  induction rest as [|char rest IH]; intros j balance inString stringChar r Hs Hinv.
  - apply skipn_nil_length in Hs. cbn [scanBrace]. split.
    + destruct r; [discriminate|]. intros _. now constructor.
    + apply nth_error_None in Hs.
      intros H. inversion H; subst; [reflexivity | congruence | congruence].
  - apply skipn_cons_nth in Hs as [Hnth Hs].
    pose proof (scanStep_of_source (nth (j - 1) content 0) char balance
                  inString stringChar Hinv) as Hstep.
    cbn [scanBrace].
    destruct (if inString
              then if optEqb stringChar char
                      && negb (nth (j - 1) content 0 =? ch_backslash)
                   then (false, stringChar, balance)
                   else (inString, stringChar, balance)
              else if isQuoteChar char then (true, Some char, balance)
              else if char =? ch_lbrace then (inString, stringChar, balance + 1)
              else if char =? ch_rbrace then (inString, stringChar, balance - 1)
              else (inString, stringChar, balance))
      as [[inString1 stringChar1] balance1] eqn:Estep.
    assert (Hinv1 : inString1 = true -> stringChar1 <> None).
    { destruct inString.
      - destruct (optEqb stringChar char
                  && negb (nth (j - 1) content 0 =? ch_backslash));
          inversion Estep; subst; [discriminate | assumption].
      - destruct (isQuoteChar char); [inversion Estep; subst; discriminate|].
        destruct (char =? ch_lbrace); [inversion Estep; subst; discriminate|].
        destruct (char =? ch_rbrace); inversion Estep; subst; discriminate. }
    assert (Hprev : nth (S j - 1) content 0 = char).
    { replace (S j - 1)%nat with j by lia. now apply nth_error_nth. }
    pose proof (scanStateOf_done balance1 inString1 stringChar1 Hinv1) as Hdone.
    destruct (negb inString1 && (balance1 =? 0)) eqn:Edone.
    + assert (Hst : scanStateOf balance1 inString1 stringChar1 = (0, Outside))
        by now apply Hdone.
      rewrite Hst in Hstep. split.
      * intros H. destruct r as [k|]; [|discriminate].
        inversion H; subst. eapply run_found; eassumption.
      * intros H.
        destruct (scanRun_inv _ _ _ _ _ Hnth H) as (st' & Hst' & Hcase).
        assert (st' = (0, Outside))
          by (eapply scanStep_functional; eassumption).
        destruct Hcase as [[_ ->] | [Hne _]]; [reflexivity | contradiction].
    + assert (Hst : scanStateOf balance1 inString1 stringChar1 <> (0, Outside)).
      { intros E. apply Hdone in E. discriminate. }
      rewrite <- Hprev at 1.
      rewrite (IH (S j) balance1 inString1 stringChar1 r Hs Hinv1).
      split.
      * intros H. eapply run_next; eassumption.
      * intros H.
        destruct (scanRun_inv _ _ _ _ _ Hnth H) as (st' & Hst' & Hcase).
        assert (st' = scanStateOf balance1 inString1 stringChar1)
          by (eapply scanStep_functional; eassumption).
        subst st'.
        destruct Hcase as [[E _] | [_ Hrun]]; [contradiction | assumption].
Qed.

Lemma scanBrace_bounds (rest : jsstring) :
  forall (prev : Z) (j : nat) (balance : Z) (inString : bool)
         (stringChar : option Z) (k : nat),
    scanBrace rest prev j balance inString stringChar = Some k ->
    (j < k <= j + length rest)%nat.
Proof.
  induction rest as [|char rest IH]; intros prev j balance inString stringChar k H;
    cbn [scanBrace] in H; [discriminate|].
  destruct (if inString then _ else _) as [[inString1 stringChar1] balance1].
  destruct (negb inString1 && (balance1 =? 0)).
  - inversion H; subst. simpl. lia.
  - apply IH in H. simpl. lia.
Qed.

(** From a balance of at least 1, the scan ends on a closing brace. *)
Lemma scanBrace_closing (content rest : jsstring) :
  forall (j : nat) (prev balance : Z) (inString : bool)
         (stringChar : option Z) (k : nat),
    skipn j content = rest -> 1 <= balance ->
    scanBrace rest prev j balance inString stringChar = Some k ->
    nth_error content (k - 1) = Some ch_rbrace.
Proof.
  induction rest as [|char rest IH];
    intros j prev balance inString stringChar k Hs Hb H;
    cbn [scanBrace] in H; [discriminate|].
  apply skipn_cons_nth in Hs as [Hnth Hs].
  destruct inString.
  - destruct (optEqb stringChar char && negb (prev =? ch_backslash));
      cbn [negb andb] in H.
    + destruct (Z.eqb_spec balance 0); [lia|].
      exact (IH _ _ _ _ _ _ Hs Hb H).
    + exact (IH _ _ _ _ _ _ Hs Hb H).
  - destruct (isQuoteChar char); cbn [negb andb] in H;
      [exact (IH _ _ _ _ _ _ Hs Hb H)|].
    destruct (Z.eqb_spec char ch_lbrace).
    { destruct (Z.eqb_spec (balance + 1) 0); [lia|].
      refine (IH _ _ _ _ _ _ Hs _ H). lia. }
    destruct (Z.eqb_spec char ch_rbrace).
    + destruct (Z.eqb_spec (balance - 1) 0).
      * inversion H; subst. replace (S j - 1)%nat with j by lia. assumption.
      * refine (IH _ _ _ _ _ _ Hs _ H). lia.
    + destruct (Z.eqb_spec balance 0); [lia|].
      exact (IH _ _ _ _ _ _ Hs Hb H).
Qed.

Lemma findClosing_bounds (content : jsstring) (startIdx j : nat) :
  findClosing content startIdx = Some j ->
  (startIdx + 2 < j <= length content)%nat
  /\ nth_error content (j - 1) = Some ch_rbrace.
Proof.
  unfold findClosing. intros H. split.
  - pose proof (scanBrace_bounds _ _ _ _ _ _ _ H) as Hb.
    rewrite length_skipn in Hb.
    destruct (skipn (startIdx + 2) content) eqn:E; [discriminate H|].
    assert (startIdx + 2 < length content)%nat.
    { destruct (Nat.lt_ge_cases (startIdx + 2) (length content)); [assumption|].
      rewrite skipn_all2 in E by assumption. discriminate. }
    lia.
  - eapply scanBrace_closing; [reflexivity | | eassumption]. lia.
Qed.

(* ================================================================== *)
(** ** [indexOf] *)

Lemma indexOfAt_spec (pat rest : jsstring) :
  forall (i k : nat),
    indexOfAt pat rest i = Some k ->
    (i <= k)%nat /\ startsWith (skipn (k - i) rest) pat = true
    /\ (forall m, (i <= m < k)%nat ->
                  startsWith (skipn (m - i) rest) pat = false).
Proof.
  induction rest as [|c rest IH]; intros i k H; cbn [indexOfAt] in H.
  - destruct (startsWith [] pat) eqn:E; [|discriminate].
    inversion H; subst. rewrite Nat.sub_diag. repeat split; [lia | assumption |].
    intros m Hm. lia.
  - destruct (startsWith (c :: rest) pat) eqn:E.
    + inversion H; subst. rewrite Nat.sub_diag.
      repeat split; [lia | assumption |]. intros m Hm. lia.
    + apply IH in H as (Hle & Hs & Hmin).
      split; [lia|]. split.
      * replace (k - i)%nat with (S (k - S i)) by lia. assumption.
      * intros m Hm. destruct (Nat.eq_dec m i) as [->|Hne].
        -- now rewrite Nat.sub_diag.
        -- replace (m - i)%nat with (S (m - S i)) by lia.
           apply Hmin. lia.
Qed.

Lemma indexOfAt_none (pat rest : jsstring) :
  forall (i : nat),
    indexOfAt pat rest i = None ->
    forall m, startsWith (skipn m rest) pat = false.
Proof.
  induction rest as [|c rest IH]; intros i H m; cbn [indexOfAt] in H.
  - destruct (startsWith [] pat) eqn:E; [discriminate|].
    now rewrite skipn_nil.
  - destruct (startsWith (c :: rest) pat) eqn:E; [discriminate|].
    destruct m as [|m]; [assumption|]. simpl. eapply IH; eassumption.
Qed.

Lemma startsWith_length (s p : jsstring) :
  startsWith s p = true -> (length p <= length s)%nat.
Proof.
  intros H. apply startsWith_true in H as [t ->]. rewrite length_app. lia.
Qed.

(** The first occurrence at or after [from]. *)
Lemma indexOf_some (s pat : jsstring) (from k : nat) :
  (from <= length s)%nat ->
  indexOf s pat from = Some k ->
  (from <= k)%nat /\ (k + length pat <= length s)%nat
  /\ startsWith (skipn k s) pat = true
  /\ (forall m, (from <= m < k)%nat -> startsWith (skipn m s) pat = false).
Proof.
  unfold indexOf. intros Hfrom H. rewrite Nat.min_l in H by assumption.
  apply indexOfAt_spec in H as (Hle & Hs & Hmin).
  rewrite skipn_skipn in Hs.
  replace (k - from + from)%nat with k in Hs by lia.
  split; [assumption|]. split.
  - apply startsWith_length in Hs. rewrite length_skipn in Hs.
    destruct pat as [|a pat].
    + simpl.
      destruct (Nat.le_gt_cases k (length s)) as [Hk|Hk]; [lia|].
      exfalso. assert (Hm : (from <= from < k)%nat) by lia.
      specialize (Hmin from Hm). discriminate.
    + simpl in *. lia.
  - split; [assumption|]. intros m Hm. specialize (Hmin m Hm).
    rewrite skipn_skipn in Hmin.
    now replace (m - from + from)%nat with m in Hmin by lia.
Qed.

Lemma indexOf_none (s pat : jsstring) (from m : nat) :
  indexOf s pat from = None -> (from <= m)%nat ->
  startsWith (skipn m s) pat = false.
Proof.
  unfold indexOf. intros H Hm.
  pose proof (indexOfAt_none _ _ _ H (m - from)) as Hn.
  rewrite skipn_skipn in Hn.
  now replace (m - from + from)%nat with m in Hn by lia.
Qed.

(* ================================================================== *)
(** ** The loop of [replaceJsxExpressions] *)

Lemma replaceLoop_total (fuel : nat) :
  forall (content : jsstring) (currentIndex : nat) (result : jsstring),
    (length content - currentIndex < fuel)%nat ->
    exists out, replaceLoop fuel content currentIndex result = Some out.
Proof.
  induction fuel as [|fuel IH]; intros content currentIndex result Hf; [lia|].
  cbn [replaceLoop].
  destruct (Nat.ltb_spec currentIndex (length content)) as [Hlt|Hge];
    [|eexists; reflexivity].
  destruct (indexOf content (lit "={") currentIndex) as [startIdx|] eqn:Ei;
    [|eexists; reflexivity].
  apply indexOf_some in Ei as (Hle & Hlen & _); [|lia].
  change (length (lit "={")) with 2%nat in Hlen.
  destruct (findClosing content startIdx) as [j|] eqn:Ej.
  - apply findClosing_bounds in Ej as [Hj _]. apply IH. lia.
  - apply IH. lia.
Qed.

(** More fuel does not change the result. *)
Lemma replaceLoop_fuel (fuel : nat) :
  forall (fuel' : nat) (content : jsstring) (currentIndex : nat)
         (result out : jsstring),
    replaceLoop fuel content currentIndex result = Some out ->
    (fuel <= fuel')%nat ->
    replaceLoop fuel' content currentIndex result = Some out.
Proof.
  induction fuel as [|fuel IH];
    intros fuel' content currentIndex result out H Hle; [discriminate|].
  destruct fuel' as [|fuel']; [lia|].
  cbn [replaceLoop] in *.
  destruct (currentIndex <? length content)%nat; [|assumption].
  destruct (indexOf content (lit "={") currentIndex); [|assumption].
  destruct (findClosing content n); apply IH; try assumption; lia.
Qed.

(** The accumulator is only ever appended to. *)
Lemma replaceLoop_result (fuel : nat) :
  forall (content : jsstring) (currentIndex : nat) (result : jsstring),
    replaceLoop fuel content currentIndex result
    = option_map (app result) (replaceLoop fuel content currentIndex []).
Proof.
  induction fuel as [|fuel IH]; intros content currentIndex result;
    [reflexivity|].
  cbn [replaceLoop].
  destruct (currentIndex <? length content)%nat;
    [|cbn; now rewrite app_nil_r].
  destruct (indexOf content (lit "={") currentIndex) as [startIdx|];
    [|reflexivity].
  destruct (findClosing content startIdx) as [j|].
  - rewrite (IH content j ((result ++ _) ++ _)).
    rewrite (IH content j (([] ++ _) ++ _)).
    destruct (replaceLoop fuel content j []); cbn; [|reflexivity].
    now rewrite !app_assoc.
  - rewrite (IH content _ ((result ++ _) ++ _)).
    rewrite (IH content _ (([] ++ _) ++ _)).
    destruct (replaceLoop fuel content (startIdx + 2) []); cbn; [|reflexivity].
    now rewrite !app_assoc.
Qed.

Lemma replaceJsxExpressions_total (content : jsstring) :
  exists out, replaceJsxExpressions content = Some out.
Proof. apply replaceLoop_total. lia. Qed.

Lemma slice_skipn_split (s : jsstring) (i k : nat) :
  (i <= k)%nat -> slice s i k ++ skipn k s = skipn i s.
Proof.
  intros H. unfold slice.
  replace (skipn k s) with (skipn (k - i) (skipn i s)).
  - apply firstn_skipn.
  - rewrite skipn_skipn. f_equal. lia.
Qed.

Lemma startsWith_skipn (s p : jsstring) (k : nat) :
  startsWith (skipn k s) p = true ->
  skipn k s = p ++ skipn (k + length p) s.
Proof.
  intros H. apply startsWith_true in H as [t Ht].
  rewrite Ht. f_equal.
  rewrite Nat.add_comm, <- skipn_skipn, Ht.
  now rewrite skipn_app, skipn_all, Nat.sub_diag.
Qed.

(** When no [={] of the text has a closing brace, the loop copies it. *)
Lemma replaceLoop_unmatched (content : jsstring) :
  (forall k, startsWith (skipn k content) (lit "={") = true ->
             findClosing content k = None) ->
  forall (fuel currentIndex : nat),
    (length content - currentIndex < fuel)%nat ->
    replaceLoop fuel content currentIndex [] = Some (skipn currentIndex content).
Proof.
  intros Hun. induction fuel as [|fuel IH]; intros currentIndex Hf; [lia|].
  cbn [replaceLoop].
  destruct (Nat.ltb_spec currentIndex (length content)) as [Hlt|Hge];
    [|now rewrite skipn_all2].
  destruct (indexOf content (lit "={") currentIndex) as [startIdx|] eqn:Ei;
    [|reflexivity].
  apply indexOf_some in Ei as (Hle & Hlen & Hs & _); [|lia].
  change (length (lit "={")) with 2%nat in Hlen.
  rewrite (Hun _ Hs). rewrite replaceLoop_result, IH by lia. cbn.
  f_equal. rewrite <- (slice_skipn_split content currentIndex startIdx Hle).
  rewrite <- app_assoc. f_equal.
  now rewrite (startsWith_skipn _ _ _ Hs).
Qed.

(* ================================================================== *)
(** ** Greedy classes and the brace patterns *)

Lemma takeWhile_split (p : Z -> bool) (s : jsstring) :
  s = takeWhile p s ++ skipn (length (takeWhile p s)) s.
Proof.
  induction s as [|c s IH]; cbn; [reflexivity|].
  destruct (p c); cbn; [now rewrite <- IH | reflexivity].
Qed.

Lemma takeWhile_all (p : Z -> bool) (s : jsstring) :
  Forall (fun c => p c = true) (takeWhile p s).
Proof.
  induction s as [|c s IH]; cbn; [constructor|].
  destruct (p c) eqn:E; [now constructor | constructor].
Qed.

Lemma takeWhile_stop (p : Z -> bool) (s : jsstring) (c : Z) (r : jsstring) :
  skipn (length (takeWhile p s)) s = c :: r -> p c = false.
Proof.
  induction s as [|d s IH]; cbn; [discriminate|].
  destruct (p d) eqn:E; cbn; [assumption|].
  intros H; inversion H; now subst.
Qed.

Lemma takeWhile_app (p : Z -> bool) (body : jsstring) (c : Z) (r : jsstring) :
  Forall (fun c => p c = true) body -> p c = false ->
  takeWhile p (body ++ c :: r) = body.
Proof.
  intros Hb Hc. induction Hb as [|d body Hd _ IH]; cbn.
  - now rewrite Hc.
  - now rewrite Hd, IH.
Qed.

Lemma notRBrace_iff (body : jsstring) :
  Forall (fun c => notRBrace c = true) body <-> ~ In ch_rbrace body.
Proof.
  rewrite Forall_forall. unfold notRBrace. split.
  - intros H Hin. specialize (H _ Hin). now rewrite Z.eqb_refl in H.
  - intros H c Hin. apply negb_true_iff, Z.eqb_neq. intros ->. now apply H.
Qed.

Lemma skipn_app_exact (A : Type) (a t : list A) :
  skipn (length a) (a ++ t) = t.
Proof. now rewrite skipn_app, skipn_all, Nat.sub_diag. Qed.

Lemma skipn_app_length (A : Type) (a t : list A) (k : nat) :
  skipn (length a + k) (a ++ t) = skipn k t.
Proof. now rewrite Nat.add_comm, <- skipn_skipn, skipn_app_exact. Qed.

(** What the brace patterns match at a position. *)
Lemma reBraced_some (open : jsstring) (prev : option Z) (rest : jsstring)
    (n : nat) (body : jsstring) :
  reBraced open prev rest = Some (n, body)
  <-> body <> [] /\ ~ In ch_rbrace body
      /\ n = (length open + length body + 1)%nat
      /\ exists post, rest = open ++ body ++ [ch_rbrace] ++ post.
Proof.
  unfold reBraced. cbv zeta. split.
  - destruct (startsWith rest open) eqn:Es; [|discriminate].
    apply startsWith_true in Es as [t ->].
    rewrite skipn_app_exact, skipn_app_length.
    destruct (takeWhile notRBrace t) as [|b0 body0] eqn:Eb; [discriminate|].
    rewrite <- Eb.
    destruct (skipn (length (takeWhile notRBrace t)) t) as [|c post] eqn:Ep;
      [discriminate|].
    intros H; inversion H; subst. clear H.
    split; [rewrite Eb; discriminate|]. split.
    { apply notRBrace_iff. apply takeWhile_all. }
    split; [reflexivity|].
    exists post. f_equal.
    rewrite (takeWhile_split notRBrace t) at 1. rewrite Ep.
    assert (Hc : notRBrace c = false) by (eapply takeWhile_stop; exact Ep).
    apply negb_false_iff, Z.eqb_eq in Hc. now subst c.
  - intros (Hne & Hnin & -> & post & ->).
    change ([ch_rbrace] ++ post) with (ch_rbrace :: post).
    rewrite startsWith_app, skipn_app_exact.
    rewrite takeWhile_app;
      [| now apply notRBrace_iff | unfold notRBrace; now rewrite Z.eqb_refl].
    rewrite skipn_app_length, skipn_app_exact. cbn [app].
    destruct body; [contradiction | reflexivity].
Qed.

Lemma reBraced_none (open : jsstring) (prev : option Z) (rest : jsstring) :
  reBraced open prev rest = None
  <-> ~ exists body post,
        body <> [] /\ ~ In ch_rbrace body
        /\ rest = open ++ body ++ [ch_rbrace] ++ post.
Proof.
  split.
  - intros H (body & post & Hne & Hnin & Hr).
    assert (reBraced open prev rest
            = Some ((length open + length body + 1)%nat, body)).
    { apply reBraced_some. repeat split; try assumption. now exists post. }
    congruence.
  - intros H. destruct (reBraced open prev rest) as [[n body]|] eqn:E;
      [|reflexivity].
    apply reBraced_some in E as (Hne & Hnin & _ & post & Hr).
    exfalso. apply H. now exists body, post.
Qed.

(* ================================================================== *)
(** ** Global replacement *)

Section ReplaceFacts.
Context {C St : Type}.
Variable re : matcher C.
Variable fn : St -> jsstring -> C -> jsstring * St.
(** A pattern without [\b] does not look at the character before. *)
Hypothesis re_prev : forall p q rest, re p rest = re q rest.

Lemma replaceWalk_prev (p q : option Z) (rest : jsstring) (k : nat) (st : St) :
  replaceWalk re fn p rest k st = replaceWalk re fn q rest k st.
Proof.
  destruct rest as [|c rest]; [reflexivity|]. cbn [replaceWalk].
  destruct k; [|reflexivity]. now rewrite (re_prev p q).
Qed.

Lemma replaceWalk_skip (pre rest : jsstring) (p q : option Z) (st : St) :
  replaceWalk re fn p (pre ++ rest) (length pre) st
  = replaceWalk re fn q rest 0 st.
Proof.
  revert p. induction pre as [|c pre IH]; intros p; cbn [app length].
  - apply replaceWalk_prev.
  - cbn [replaceWalk]. apply IH.
Qed.

(** A match is replaced and the search resumes after it. *)
Lemma replaceWalk_match (p : option Z) (m rest : jsstring) (caps : C)
    (st : St) :
  m <> [] -> re p (m ++ rest) = Some (length m, caps) ->
  replaceWalk re fn p (m ++ rest) 0 st
  = (let (rep, st1) := fn st m caps in
     let (out, st2) := replaceWalk re fn None rest 0 st1 in
     (rep ++ out, st2)).
Proof.
  intros Hm Hre. destruct m as [|c m]; [contradiction|].
  cbn [app replaceWalk]. cbn [app] in Hre. rewrite Hre.
  change (c :: m ++ rest) with ((c :: m) ++ rest).
  rewrite firstn_app, firstn_all, Nat.sub_diag. cbn [firstn].
  rewrite app_nil_r.
  replace (length (c :: m) - 1)%nat with (length m) by (simpl; lia).
  destruct (fn st (c :: m) caps) as [rep st1].
  now rewrite (replaceWalk_skip m rest (Some c) None).
Qed.

(** Where nothing matches, the character is kept. *)
Lemma replaceWalk_keep (p : option Z) (c : Z) (rest : jsstring) (st : St) :
  re p (c :: rest) = None ->
  replaceWalk re fn p (c :: rest) 0 st
  = (let (out, st2) := replaceWalk re fn None rest 0 st in (c :: out, st2)).
Proof.
  intros Hre. cbn [replaceWalk]. rewrite Hre.
  now rewrite (replaceWalk_prev (Some c) None).
Qed.
End ReplaceFacts.

(* ================================================================== *)
(** ** The spread pass *)

Lemma reSpread_prev (p q : option Z) (rest : jsstring) :
  reSpread p rest = reSpread q rest.
Proof. reflexivity. Qed.

Lemma replaceSpreadsFrom_match (n : nat) (expr rest : jsstring) :
  expr <> [] -> ~ In ch_rbrace expr ->
  replaceSpreadsFrom (spreadOccurrence expr rest) n
  = (let (out, m) := replaceSpreadsFrom rest (S n) in
     (spreadPlaceholder n expr ++ out, m)).
Proof.
  intros Hne Hnin. unfold replaceSpreadsFrom, replaceAllSt, spreadOccurrence.
  replace (lit "{..." ++ expr ++ [ch_rbrace] ++ rest)
    with ((lit "{..." ++ expr ++ [ch_rbrace]) ++ rest)
    by (now rewrite <- !app_assoc).
  rewrite (replaceWalk_match reSpread _ reSpread_prev None _ rest expr).
  - reflexivity.
  - discriminate.
  - apply reBraced_some. repeat split; try assumption.
    + rewrite !length_app. simpl. lia.
    + exists rest. now rewrite <- !app_assoc.
Qed.

Lemma replaceSpreadsFrom_keep (n : nat) (c : Z) (rest : jsstring) :
  ~ startsWithSpread (c :: rest) ->
  replaceSpreadsFrom (c :: rest) n
  = (let (out, m) := replaceSpreadsFrom rest n in (c :: out, m)).
Proof.
  intros H. unfold replaceSpreadsFrom, replaceAllSt.
  apply (replaceWalk_keep reSpread _ reSpread_prev).
  apply reBraced_none. intros (body & post & Hne & Hnin & Hr).
  apply H. now exists body, post.
Qed.

Lemma spreadRewrite_sound (n : nat) (s out : jsstring) :
  spreadRewrite n s out -> out = fst (replaceSpreadsFrom s n).
Proof.
  induction 1 as [n | n expr rest out Hne Hnin _ IH | n c rest out Hno _ IH].
  - reflexivity.
  - rewrite replaceSpreadsFrom_match by assumption.
    destruct (replaceSpreadsFrom rest (S n)) as [out' m]. cbn in *. now subst.
  - rewrite replaceSpreadsFrom_keep by assumption.
    destruct (replaceSpreadsFrom rest n) as [out' m]. cbn in *. now subst.
Qed.

Lemma spreadRewrite_complete (s : jsstring) :
  forall n, spreadRewrite n s (fst (replaceSpreadsFrom s n)).
Proof.
  remember (length s) as k eqn:Hk. revert s Hk.
  induction k as [k IH] using lt_wf_ind. intros s Hk n.
  destruct s as [|c rest]; [constructor|].
  destruct (reSpread None (c :: rest)) as [[m body]|] eqn:E.
  - apply reBraced_some in E as (Hne & Hnin & _ & post & Hr).
    change (c :: rest = spreadOccurrence body post) in Hr. rewrite Hr.
    rewrite replaceSpreadsFrom_match by assumption.
    pose proof (IH (length post)) as IHp.
    assert (Hlt : (length post < k)%nat).
    { subst k. rewrite Hr. unfold spreadOccurrence.
      rewrite !length_app. simpl. lia. }
    specialize (IHp Hlt post eq_refl (S n)).
    destruct (replaceSpreadsFrom post (S n)) as [out m']. cbn in *.
    now constructor.
  - rewrite replaceSpreadsFrom_keep.
    + pose proof (IH (length rest)) as IHr.
      assert (Hlt : (length rest < k)%nat) by (subst k; simpl; lia).
      specialize (IHr Hlt rest eq_refl n).
      destruct (replaceSpreadsFrom rest n) as [out m']. cbn in *.
      constructor; [|assumption].
      intros (body & post & Hne & Hnin & Hr).
      apply (proj1 (reBraced_none _ None _) E). now exists body, post.
    + intros (body & post & Hne & Hnin & Hr).
      apply (proj1 (reBraced_none _ None _) E). now exists body, post.
Qed.

(** Text without an opening brace is copied. *)
Lemma spreadRewrite_plain (t : jsstring) :
  ~ In ch_lbrace t ->
  forall n rest out,
    spreadRewrite n rest out -> spreadRewrite n (t ++ rest) (t ++ out).
Proof.
  induction t as [|c t IH]; intros Hnin n rest out H; [assumption|].
  cbn [app]. constructor.
  - intros (body & post & _ & _ & Hr). inversion Hr; subst.
    apply Hnin. now left.
  - apply IH; [|assumption]. intros Hin. apply Hnin. now right.
Qed.

(* ================================================================== *)
(** ** The detector *)

(** [test] finds a match exactly when the pattern matches at some
    position of the text. *)
Lemma testFrom_iff {C : Type} (re : matcher C) (rest : jsstring) :
  forall prev,
    testFrom re prev rest = true
    <-> exists pre post m,
          rest = pre ++ post /\ re (lastOr prev pre) post = Some m.
Proof.
  induction rest as [|c rest IH]; intros prev; cbn [testFrom].
  - split.
    + destruct (re prev []) as [m|] eqn:E; [|discriminate].
      intros _. now exists [], [], m.
    + intros (pre & post & m & Hs & Hm).
      symmetry in Hs. apply app_eq_nil in Hs as [-> ->].
      cbn in Hm. now rewrite Hm.
  - split.
    + destruct (re prev (c :: rest)) as [m|] eqn:E.
      * intros _. now exists [], (c :: rest), m.
      * intros H. apply IH in H as (pre & post & m & -> & Hm).
        now exists (c :: pre), post, m.
    + intros (pre & post & m & Hs & Hm).
      destruct pre as [|d pre].
      * cbn in Hs, Hm. subst post. now rewrite Hm.
      * cbn in Hs. inversion Hs; subst.
        destruct (re prev (d :: pre ++ post)); [reflexivity|].
        apply IH. now exists pre, post, m.
Qed.

Lemma regexTest_braced (open s : jsstring) :
  regexTest (reBraced open) s = true
  <-> exists pre body post,
        body <> [] /\ ~ In ch_rbrace body
        /\ s = pre ++ open ++ body ++ [ch_rbrace] ++ post.
Proof.
  unfold regexTest. rewrite testFrom_iff. split.
  - intros (pre & rest & [n body] & -> & Hm).
    apply reBraced_some in Hm as (Hne & Hnin & _ & post & ->).
    now exists pre, body, post.
  - intros (pre & body & post & Hne & Hnin & ->).
    exists pre, (open ++ body ++ [ch_rbrace] ++ post),
      ((length open + length body + 1)%nat, body).
    split; [reflexivity|]. apply reBraced_some.
    repeat split; try assumption. now exists post.
Qed.

(** A name that starts with a word character is at a word boundary when
    no word character comes before it. *)
Lemma regexTest_wordLit (name s : jsstring) :
  isWordAfter name = true ->
  regexTest (reWordLit name) s = true <-> hasAttribute name s.
Proof.
  intros Hw. unfold regexTest, hasAttribute. rewrite testFrom_iff.
  assert (Hb : forall prev post,
             wordBoundary prev ((name ++ lit "=") ++ post)
             = negb (isWordBefore prev)).
  { intros prev post. unfold wordBoundary.
    destruct name as [|a name]; [discriminate|]. cbn in *. rewrite Hw.
    now destruct (isWordBefore prev). }
  split.
  - intros (pre & rest & m & -> & Hm). unfold reWordLit in Hm.
    destruct (wordBoundary (lastOr None pre) rest) eqn:Eb; [|discriminate].
    destruct (startsWith rest (name ++ lit "=")) eqn:Es; [|discriminate].
    apply startsWith_true in Es as [post ->].
    rewrite Hb in Eb. apply negb_true_iff in Eb.
    exists pre, post. split; [now rewrite <- app_assoc | assumption].
  - intros (pre & post & -> & Hp).
    exists pre, ((name ++ lit "=") ++ post), ((length name + 1)%nat, tt).
    split; [now rewrite <- app_assoc|].
    unfold reWordLit. rewrite Hb, startsWith_app.
    unfold charBefore in Hp. now rewrite Hp.
Qed.

Lemma authoring_names_start_words :
  forall name, In name (dictKeys jsxToSvgAttributeMap) ->
               isWordAfter name = true.
Proof. apply forallb_forall. reflexivity. Qed.

Lemma isJsxSvg_iff (s : jsstring) :
  isJsxSvg s = true
  <-> hasExpressionValue s \/ hasSpread s \/ hasAttribute (lit "className") s
      \/ exists name, In name (dictKeys jsxToSvgAttributeMap)
                      /\ hasAttribute name s.
Proof.
  unfold isJsxSvg, reExprValue, reSpread.
  pose proof (regexTest_braced (lit "={") s) as Ha.
  pose proof (regexTest_braced (lit "{...") s) as Hb.
  pose proof (regexTest_wordLit (lit "className") s eq_refl) as Hc.
  assert (Hd : existsb (fun jsxAttr => regexTest (reWordLit jsxAttr) s)
                       (dictKeys jsxToSvgAttributeMap) = true
               <-> exists name, In name (dictKeys jsxToSvgAttributeMap)
                                /\ hasAttribute name s).
  { rewrite existsb_exists. split; intros (name & Hin & H); exists name;
      (split; [assumption|]);
      now apply (regexTest_wordLit name s (authoring_names_start_words _ Hin)). }
  unfold hasExpressionValue, hasSpread, spreadOccurrence.
  destruct (regexTest (reBraced (lit "={")) s).
  { split; [intros _; left; now apply Ha | reflexivity]. }
  destruct (regexTest (reBraced (lit "{...")) s).
  { split; [intros _; right; left; now apply Hb | reflexivity]. }
  destruct (regexTest (reWordLit (lit "className")) s).
  { split; [intros _; right; right; left; now apply Hc | reflexivity]. }
  rewrite Hd. split.
  - intros H. now do 3 right.
  - intros [H | [H | [H | H]]]; [| | | assumption].
    + apply Ha in H. discriminate.
    + apply Hb in H. discriminate.
    + apply Hc in H. discriminate.
Qed.

(* ================================================================== *)
(** ** The matchers find the matches of the patterns *)

Lemma Match_lit (text : jsstring) prev s caps n caps' :
  Match (Lit text) prev s caps n caps'
  <-> n = length text /\ caps' = caps /\ exists rest, s = text ++ rest.
Proof.
  split.
  - intros H. inversion H; subst. repeat split. now eexists.
  - intros (-> & -> & rest & ->). constructor.
Qed.

Lemma Match_class (p : Z -> bool) prev s caps n caps' :
  Match (Class p) prev s caps n caps'
  <-> n = 1%nat /\ caps' = caps /\ exists c rest, s = c :: rest /\ p c = true.
Proof.
  split.
  - intros H. inversion H; subst. repeat split. now eexists _, _.
  - intros (-> & -> & c & rest & -> & Hp). now constructor.
Qed.

Lemma Match_many (p : Z -> bool) (atLeast : nat) prev s caps n caps' :
  Match (Many p atLeast) prev s caps n caps'
  <-> caps' = caps
      /\ exists run rest,
           s = run ++ rest /\ n = length run
           /\ Forall (fun c => p c = true) run /\ (atLeast <= length run)%nat.
Proof.
  split.
  - intros H. inversion H; subst. split; [reflexivity|]. now eexists _, _.
  - intros (-> & run & rest & -> & -> & Hall & Hmin). now constructor.
Qed.

Lemma Match_wordb prev s caps n caps' :
  Match WordB prev s caps n caps'
  <-> n = 0%nat /\ caps' = caps /\ wordBoundary prev s = true.
Proof.
  split.
  - intros H. inversion H; subst. now repeat split.
  - intros (-> & -> & H). now constructor.
Qed.

Lemma Match_group (r : regex) prev s caps n caps' :
  Match (Group r) prev s caps n caps'
  <-> exists caps1, Match r prev s caps n caps1 /\ caps' = caps1 ++ [firstn n s].
Proof.
  split.
  - intros H. inversion H; subst. eexists. split; [eassumption | reflexivity].
  - intros (caps1 & H & ->). now constructor.
Qed.

Lemma Match_backref (k : nat) prev s caps n caps' :
  Match (Backref k) prev s caps n caps'
  <-> caps' = caps
      /\ exists text rest,
           nth_error caps k = Some text /\ s = text ++ rest /\ n = length text.
Proof.
  split.
  - intros H. inversion H; subst. split; [reflexivity|].
    eexists _, _. split; [eassumption|]. split; reflexivity.
  - intros (-> & text & rest & Hk & -> & ->). now constructor.
Qed.

Lemma Match_seq (r1 r2 : regex) prev s caps n caps' :
  Match (Seq r1 r2) prev s caps n caps'
  <-> exists n1 caps1 n2,
        n = (n1 + n2)%nat /\ Match r1 prev s caps n1 caps1
        /\ Match r2 (lastOr prev (firstn n1 s)) (skipn n1 s) caps1 n2 caps'.
Proof.
  split.
  - intros H. inversion H; subst. eexists _, _, _.
    split; [reflexivity|]. split; eassumption.
  - intros (n1 & caps1 & n2 & -> & H1 & H2). econstructor; eassumption.
Qed.

Lemma firstn_app_exact (A : Type) (a t : list A) :
  firstn (length a) (a ++ t) = a.
Proof.
  now rewrite firstn_app, firstn_all, Nat.sub_diag, app_nil_r.
Qed.

(** A literal, then the rest of the pattern on the rest of the text. *)
Lemma Match_lit_seq (text : jsstring) (r : regex) prev s caps n caps' :
  Match (Seq (Lit text) r) prev s caps n caps'
  <-> exists rest n2,
        s = text ++ rest /\ n = (length text + n2)%nat
        /\ Match r (lastOr prev text) rest caps n2 caps'.
Proof.
  rewrite Match_seq. split.
  - intros (n1 & caps1 & n2 & -> & H1 & H2).
    apply Match_lit in H1 as (-> & -> & rest & ->).
    rewrite firstn_app_exact, skipn_app_exact in H2. now exists rest, n2.
  - intros (rest & n2 & -> & -> & H).
    exists (length text), caps, n2. split; [reflexivity|]. split.
    + constructor.
    + now rewrite firstn_app_exact, skipn_app_exact.
Qed.

(** A repeated class, then the rest of the pattern. *)
Lemma Match_many_seq (p : Z -> bool) (atLeast : nat) (r : regex)
    prev s caps n caps' :
  Match (Seq (Many p atLeast) r) prev s caps n caps'
  <-> exists run rest n2,
        s = run ++ rest /\ n = (length run + n2)%nat
        /\ Forall (fun c => p c = true) run /\ (atLeast <= length run)%nat
        /\ Match r (lastOr prev run) rest caps n2 caps'.
Proof.
  rewrite Match_seq. split.
  - intros (n1 & caps1 & n2 & -> & H1 & H2).
    apply Match_many in H1 as (-> & run & rest & -> & -> & Hall & Hmin).
    rewrite firstn_app_exact, skipn_app_exact in H2.
    now exists run, rest, n2.
  - intros (run & rest & n2 & -> & -> & Hall & Hmin & H).
    exists (length run), caps, n2. split; [reflexivity|]. split.
    + now constructor.
    + now rewrite firstn_app_exact, skipn_app_exact.
Qed.

(** A captured repeated class, then the rest of the pattern. *)
Lemma Match_group_many_seq (p : Z -> bool) (atLeast : nat) (r : regex)
    prev s caps n caps' :
  Match (Seq (Group (Many p atLeast)) r) prev s caps n caps'
  <-> exists run rest n2,
        s = run ++ rest /\ n = (length run + n2)%nat
        /\ Forall (fun c => p c = true) run /\ (atLeast <= length run)%nat
        /\ Match r (lastOr prev run) rest (caps ++ [run]) n2 caps'.
Proof.
  rewrite Match_seq. split.
  - intros (n1 & caps1 & n2 & -> & H1 & H2).
    apply Match_group in H1 as (caps0 & H1 & ->).
    apply Match_many in H1 as (-> & run & rest & -> & -> & Hall & Hmin).
    rewrite firstn_app_exact, skipn_app_exact in H2.
    now exists run, rest, n2.
  - intros (run & rest & n2 & -> & -> & Hall & Hmin & H).
    exists (length run), (caps ++ [run]), n2. split; [reflexivity|]. split.
    + rewrite <- (firstn_app_exact _ run rest) at 3.
      constructor. now constructor.
    + now rewrite firstn_app_exact, skipn_app_exact.
Qed.

Lemma Match_wordb_seq (r : regex) prev s caps n caps' :
  Match (Seq WordB r) prev s caps n caps'
  <-> wordBoundary prev s = true /\ Match r prev s caps n caps'.
Proof.
  rewrite Match_seq. split.
  - intros (n1 & caps1 & n2 & -> & H1 & H2).
    apply Match_wordb in H1 as (-> & -> & Hb). now split.
  - intros (Hb & H). exists 0%nat, caps, n. split; [reflexivity|].
    split; [now constructor | exact H].
Qed.

(** The brace patterns. *)
Lemma pBraced_match (open : jsstring) prev s n caps :
  Match (Seq (Lit open) (Seq (Group (Many notRBrace 1)) (Lit (lit "}"))))
        prev s [] n caps
  <-> exists body, reBraced open prev s = Some (n, body) /\ caps = [body].
Proof.
  rewrite Match_lit_seq. split.
  - intros (rest & n2 & -> & -> & H).
    apply Match_group_many_seq in H
      as (run & rest2 & n3 & -> & -> & Hall & Hmin & H).
    apply Match_lit in H as (-> & -> & post & ->).
    exists run. split; [|reflexivity].
    apply reBraced_some. split; [destruct run; [simpl in Hmin; lia | discriminate]|].
    split; [now apply notRBrace_iff|].
    split; [simpl; lia|]. now exists post.
  - intros (body & H & ->).
    apply reBraced_some in H as (Hne & Hnin & -> & post & ->).
    exists (body ++ [ch_rbrace] ++ post), (length body + 1)%nat.
    split; [reflexivity|]. split; [lia|].
    apply Match_group_many_seq.
    exists body, ([ch_rbrace] ++ post), 1%nat.
    split; [reflexivity|]. split; [reflexivity|].
    split; [now apply notRBrace_iff|].
    split; [destruct body; [contradiction | simpl; lia]|].
    apply (match_lit (lit "}")).
Qed.

Lemma pSpread_match prev s n caps :
  Match pSpread prev s [] n caps
  <-> exists expr, reSpread prev s = Some (n, expr) /\ caps = [expr].
Proof. apply pBraced_match. Qed.

Lemma pExprValue_match prev s n caps :
  Match pExprValue prev s [] n caps
  <-> exists body, reExprValue prev s = Some (n, body) /\ caps = [].
Proof.
  unfold pExprValue, reExprValue. rewrite Match_lit_seq. split.
  - intros (rest & n2 & -> & -> & H).
    apply Match_many_seq in H
      as (run & rest2 & n3 & -> & -> & Hall & Hmin & H).
    apply Match_lit in H as (-> & -> & post & ->).
    exists run. split; [|reflexivity].
    apply reBraced_some. split; [destruct run; [simpl in Hmin; lia | discriminate]|].
    split; [now apply notRBrace_iff|].
    split; [simpl; lia|]. now exists post.
  - intros (body & H & ->).
    apply reBraced_some in H as (Hne & Hnin & -> & post & ->).
    exists (body ++ [ch_rbrace] ++ post), (length body + 1)%nat.
    split; [reflexivity|]. split; [lia|].
    apply Match_many_seq.
    exists body, ([ch_rbrace] ++ post), 1%nat.
    split; [reflexivity|]. split; [reflexivity|].
    split; [now apply notRBrace_iff|].
    split; [destruct body; [contradiction | simpl; lia]|].
    apply (match_lit (lit "}")).
Qed.

(** [\bname=] *)
Lemma pWordLit_match (name : jsstring) prev s n caps :
  Match (pWordLit name) prev s [] n caps
  <-> reWordLit name prev s = Some (n, tt) /\ caps = [].
Proof.
  unfold pWordLit, reWordLit. rewrite Match_wordb_seq, Match_lit.
  rewrite length_app. change (length (lit "=")) with 1%nat.
  destruct (wordBoundary prev s); cbn [andb].
  - destruct (startsWith s (name ++ lit "=")) eqn:Es.
    + apply startsWith_true in Es as [rest ->]. split.
      * intros (_ & -> & -> & _). now split.
      * intros (H & ->). inversion H; subst. repeat split. now exists rest.
    + split.
      * intros (_ & _ & _ & rest & ->). rewrite startsWith_app in Es.
        discriminate.
      * intros (H & _). discriminate.
  - split; [intros (H & _) | intros (H & _)]; discriminate.
Qed.

Lemma Match_class_seq (p : Z -> bool) (r : regex) prev s caps n caps' :
  Match (Seq (Class p) r) prev s caps n caps'
  <-> exists c rest n2,
        s = c :: rest /\ n = S n2 /\ p c = true
        /\ Match r (Some c) rest caps n2 caps'.
Proof.
  rewrite Match_seq. split.
  - intros (n1 & caps1 & n2 & -> & H1 & H2).
    apply Match_class in H1 as (-> & -> & c & rest & -> & Hp).
    cbn in H2. now exists c, rest, n2.
  - intros (c & rest & n2 & -> & -> & Hp & H).
    exists 1%nat, caps, n2. split; [reflexivity|].
    split; [now constructor | exact H].
Qed.

Lemma takeWhile_cases (p : Z -> bool) (s : jsstring) :
  exists rest,
    s = takeWhile p s ++ rest
    /\ (rest = [] \/ exists c r, rest = c :: r /\ p c = false).
Proof.
  exists (skipn (length (takeWhile p s)) s). split; [apply takeWhile_split|].
  destruct (skipn (length (takeWhile p s)) s) as [|c r] eqn:E; [now left|].
  right. exists c, r. split; [reflexivity|]. eapply takeWhile_stop, E.
Qed.

(** [on[A-Z]\w*] *)
Lemma pEventName_match prev s caps n caps' :
  Match pEventName prev s caps n caps'
  <-> caps' = caps
      /\ exists c run rest,
           s = (lit "on" ++ c :: run) ++ rest /\ isUpper c = true
           /\ Forall (fun c => isWordChar c = true) run
           /\ n = length (lit "on" ++ c :: run).
Proof.
  unfold pEventName. rewrite Match_lit_seq. split.
  - intros (rest & n2 & -> & -> & H).
    apply Match_class_seq in H as (c & rest2 & n3 & -> & -> & Hc & H).
    apply Match_many in H as (-> & run & rest3 & -> & -> & Hall & _).
    split; [reflexivity|]. now exists c, run, rest3.
  - intros (-> & c & run & rest & -> & Hc & Hall & ->).
    exists (c :: run ++ rest), (S (length run)).
    split; [reflexivity|]. split; [reflexivity|].
    apply Match_class_seq. exists c, (run ++ rest), (length run).
    repeat split; try assumption. constructor; [assumption | lia].
Qed.

Lemma eventName_some (rest name : jsstring) :
  eventName rest = Some name
  <-> exists c tail,
        rest = lit "on" ++ c :: tail /\ isUpper c = true
        /\ name = lit "on" ++ c :: takeWhile isWordChar tail.
Proof.
  unfold eventName. split.
  - destruct (startsWith rest (lit "on")) eqn:Es; [|discriminate].
    apply startsWith_true in Es as [t ->].
    change 2%nat with (length (lit "on")). rewrite skipn_app_exact.
    destruct t as [|c tail]; [discriminate|].
    destruct (isUpper c) eqn:Ec; [|discriminate].
    intros H; inversion H; subst. now exists c, tail.
  - intros (c & tail & -> & Hc & ->).
    rewrite startsWith_app. change 2%nat with (length (lit "on")).
    now rewrite skipn_app_exact, Hc.
Qed.

(** A name followed by [=] is the whole name. *)
Lemma eventName_before_equals (c : Z) (run post : jsstring) :
  isUpper c = true -> Forall (fun c => isWordChar c = true) run ->
  eventName ((lit "on" ++ c :: run) ++ ch_equals :: post)
  = Some (lit "on" ++ c :: run).
Proof.
  intros Hc Hall. apply eventName_some. exists c, (run ++ ch_equals :: post).
  split; [reflexivity|]. split; [assumption|].
  now rewrite takeWhile_app.
Qed.

(** The event-handler pattern. *)
Lemma pEvent_match prev s n caps :
  Match pEvent prev s [] n caps
  <-> exists name, reEvent prev s = Some (n, name) /\ caps = [name].
Proof.
  unfold pEvent, reEvent. rewrite Match_wordb_seq, Match_seq. split.
  - intros (Hb & n1 & caps1 & n2 & -> & H1 & H2).
    apply Match_group in H1 as (caps0 & H1 & ->).
    apply pEventName_match in H1 as (-> & c & run & rest & -> & Hc & Hall & ->).
    rewrite firstn_app_exact, skipn_app_exact in H2.
    apply Match_lit in H2 as (-> & -> & post & ->).
    exists (lit "on" ++ c :: run). split; [|reflexivity].
    rewrite Hb. change (lit "=" ++ post) with (ch_equals :: post).
    rewrite (eventName_before_equals c run post Hc Hall).
    rewrite skipn_app_exact. reflexivity.
  - intros (name & H & ->).
    destruct (wordBoundary prev s) eqn:Hb; [|discriminate].
    destruct (eventName s) as [name'|] eqn:En; [|discriminate].
    destruct (startsWith (skipn (length name') s) (lit "=")) eqn:Es;
      [|discriminate].
    inversion H; subst. clear H. split; [reflexivity|].
    apply eventName_some in En as (c & tail & -> & Hc & Hname).
    destruct (takeWhile_cases isWordChar tail) as (rest & Ht & _).
    set (run := takeWhile isWordChar tail) in *.
    assert (Hs : lit "on" ++ c :: tail = name ++ rest).
    { rewrite Hname, Ht at 1. now rewrite <- app_assoc. }
    rewrite Hs in Es |- *. rewrite skipn_app_exact in Es.
    apply startsWith_true in Es as [post ->].
    exists (length name), [name], 1%nat.
    split; [reflexivity|]. split.
    + rewrite <- (firstn_app_exact _ name (lit "=" ++ post)) at 3.
      apply (match_group pEventName _ _ [] _ []).
      apply pEventName_match. split; [reflexivity|].
      exists c, run, (lit "=" ++ post).
      rewrite Hname. repeat split; [assumption | apply takeWhile_all].
    + rewrite firstn_app_exact, skipn_app_exact. constructor.
Qed.

(** A double-quoted value after an equals sign. *)
Lemma quotedValue_some (rest : jsstring) (n : nat) (value : jsstring) :
  quotedValue rest = Some (n, value)
  <-> Forall (fun c => notDQuote c = true) value
      /\ n = (2 + length value + 1)%nat
      /\ exists post, rest = (lit "=" ++ dq) ++ value ++ dq ++ post.
Proof.
  unfold quotedValue. cbv zeta. split.
  - destruct (startsWith rest (lit "=" ++ dq)) eqn:Es; [|discriminate].
    apply startsWith_true in Es as [t ->].
    change 2%nat with (length (lit "=" ++ dq)).
    rewrite skipn_app_exact, skipn_app_length.
    destruct (skipn (length (takeWhile notDQuote t)) t) as [|c post] eqn:Ep;
      [discriminate|].
    intros H; inversion H; subst. clear H.
    split; [apply takeWhile_all|]. split; [reflexivity|].
    exists post. f_equal.
    rewrite (takeWhile_split notDQuote t) at 1. rewrite Ep.
    assert (Hc : notDQuote c = false) by (eapply takeWhile_stop; exact Ep).
    apply negb_false_iff, Z.eqb_eq in Hc. now subst c.
  - intros (Hall & -> & post & ->).
    change 2%nat with (length (lit "=" ++ dq)).
    rewrite startsWith_app, skipn_app_exact.
    change (dq ++ post) with (ch_dquote :: post).
    rewrite takeWhile_app by (assumption || reflexivity).
    now rewrite skipn_app_length, skipn_app_exact.
Qed.

Lemma pQuotedValue_match prev s caps n caps' :
  Match pQuotedValue prev s caps n caps'
  <-> exists value, quotedValue s = Some (n, value) /\ caps' = caps ++ [value].
Proof.
  unfold pQuotedValue. rewrite Match_lit_seq. split.
  - intros (rest & n2 & -> & -> & H).
    apply Match_group_many_seq in H
      as (run & rest2 & n3 & -> & -> & Hall & _ & H).
    apply Match_lit in H as (-> & -> & post & ->).
    exists run. split; [|reflexivity].
    apply quotedValue_some. split; [assumption|].
    split; [simpl; lia|]. now exists post.
  - intros (value & H & ->).
    apply quotedValue_some in H as (Hall & -> & post & ->).
    exists (value ++ dq ++ post), (length value + 1)%nat.
    split; [reflexivity|]. split; [simpl; lia|].
    apply Match_group_many_seq.
    exists value, (dq ++ post), 1%nat.
    split; [reflexivity|]. split; [reflexivity|].
    split; [assumption|]. split; [lia|]. apply (match_lit dq).
Qed.

Lemma quotedValue_head (rest : jsstring) (n : nat) (value : jsstring) :
  quotedValue rest = Some (n, value) ->
  exists post, rest = ch_equals :: post.
Proof.
  intros H. apply quotedValue_some in H as (_ & _ & post & ->).
  now eexists.
Qed.

(** The spread placeholder pattern. *)
Lemma pSpreadPlaceholder_match prev s n caps :
  Match pSpreadPlaceholder prev s [] n caps
  <-> exists value,
        reSpreadPlaceholder prev s = Some (n, value) /\ caps = [value].
Proof.
  unfold pSpreadPlaceholder, reSpreadPlaceholder. cbv zeta.
  rewrite Match_wordb_seq, Match_lit_seq. split.
  - intros (Hb & rest & n2 & -> & -> & H).
    apply Match_many_seq in H as (run & rest2 & n3 & -> & -> & Hall & Hmin & H).
    apply pQuotedValue_match in H as (value & Hq & ->).
    exists value. split; [|reflexivity].
    rewrite Hb, startsWith_app, skipn_app_exact. cbn [andb].
    destruct (quotedValue_head _ _ _ Hq) as [post ->].
    rewrite takeWhile_app by (assumption || reflexivity).
    destruct run as [|d run]; [simpl in Hmin; lia|].
    rewrite skipn_app_length, skipn_app_exact, Hq.
    now rewrite Nat.add_assoc.
  - intros (value & H & ->).
    destruct (wordBoundary prev s) eqn:Hb; [|discriminate].
    destruct (startsWith s (lit "data-spread-")) eqn:Es; [|discriminate].
    cbn [andb] in H. apply startsWith_true in Es as [t ->].
    rewrite skipn_app_exact in H.
    destruct (takeWhile isDigit t) as [|d run] eqn:Ed; [discriminate|].
    rewrite <- Ed in H. rewrite skipn_app_length in H.
    destruct (quotedValue (skipn (length (takeWhile isDigit t)) t))
      as [[n3 value']|] eqn:Hq; [|discriminate].
    inversion H; subst. clear H. split; [reflexivity|].
    exists t, (length (takeWhile isDigit t) + n3)%nat.
    split; [reflexivity|]. split; [simpl; lia|].
    apply Match_many_seq.
    exists (takeWhile isDigit t), (skipn (length (takeWhile isDigit t)) t), n3.
    split; [apply takeWhile_split|]. split; [reflexivity|].
    split; [apply takeWhile_all|]. split; [rewrite Ed; simpl; lia|].
    apply pQuotedValue_match. now exists value.
Qed.

(** The event placeholder pattern. *)
Lemma pEventPlaceholder_match prev s n caps :
  Match pEventPlaceholder prev s [] n caps
  <-> exists name value,
        reEventPlaceholder prev s = Some (n, (name, value))
        /\ caps = [name; value].
Proof.
  unfold pEventPlaceholder, reEventPlaceholder. cbv zeta.
  rewrite Match_wordb_seq, Match_lit_seq. split.
  - intros (Hb & rest & n2 & -> & -> & H).
    apply Match_seq in H as (n1 & caps1 & n3 & -> & H1 & H2).
    apply Match_group in H1 as (caps0 & H1 & ->).
    apply pEventName_match in H1 as (-> & c & run & rest2 & -> & Hc & Hall & ->).
    rewrite firstn_app_exact, skipn_app_exact in H2.
    apply pQuotedValue_match in H2 as (value & Hq & ->).
    exists (lit "on" ++ c :: run), value. split; [|reflexivity].
    rewrite Hb, startsWith_app, skipn_app_exact. cbn [andb].
    destruct (quotedValue_head _ _ _ Hq) as [post ->].
    rewrite (eventName_before_equals c run post Hc Hall).
    rewrite skipn_app_length, skipn_app_exact, Hq.
    now rewrite Nat.add_assoc.
  - intros (name & value & H & ->).
    destruct (wordBoundary prev s) eqn:Hb; [|discriminate].
    destruct (startsWith s (lit "data-jsx-event-")) eqn:Es; [|discriminate].
    cbn [andb] in H. apply startsWith_true in Es as [t ->].
    rewrite skipn_app_exact in H.
    destruct (eventName t) as [name'|] eqn:En; [|discriminate].
    rewrite skipn_app_length in H.
    destruct (quotedValue (skipn (length name') t))
      as [[n3 value']|] eqn:Hq; [|discriminate].
    inversion H; subst. clear H. split; [reflexivity|].
    apply eventName_some in En as (c & tail & -> & Hc & Hname).
    destruct (takeWhile_cases isWordChar tail) as (rest & Ht & _).
    set (run := takeWhile isWordChar tail) in *.
    assert (Hs : lit "on" ++ c :: tail = name ++ rest).
    { rewrite Hname, Ht at 1. now rewrite <- app_assoc. }
    rewrite Hs in Hq |- *. rewrite skipn_app_exact in Hq.
    exists (name ++ rest), (length name + n3)%nat.
    split; [reflexivity|]. split; [simpl; lia|].
    apply Match_seq. exists (length name), [name], n3.
    split; [reflexivity|]. split.
    + rewrite <- (firstn_app_exact _ name rest) at 3.
      apply (match_group pEventName _ _ [] _ []).
      apply pEventName_match. split; [reflexivity|].
      exists c, run, rest.
      rewrite Hname. repeat split; [assumption | apply takeWhile_all].
    + rewrite firstn_app_exact, skipn_app_exact.
      apply pQuotedValue_match. now exists value.
Qed.

Lemma notQuote_underscores :
  Forall (fun c => notQuote c = true) (lit "__").
Proof. repeat constructor. Qed.

Lemma isAttrQuote_notQuote (q : Z) :
  isAttrQuote q = true <-> notQuote q = false.
Proof.
  unfold isAttrQuote, notQuote.
  destruct (q =? ch_dquote), (q =? ch_squote); cbn; split; congruence.
Qed.

(** The value of the payload pattern: the prefix, a run without quotes,
    and two underscores. *)
Lemma pPayloadValue_match prev s caps n caps' :
  Match (Seq (Lit (lit "__JSX_BASE64__")) (Seq (Many notQuote 0) (Lit (lit "__"))))
        prev s caps n caps'
  <-> caps' = caps
      /\ exists run rest,
           s = (lit "__JSX_BASE64__" ++ run ++ lit "__") ++ rest
           /\ Forall (fun c => notQuote c = true) run
           /\ n = length (lit "__JSX_BASE64__" ++ run ++ lit "__").
Proof.
  rewrite Match_lit_seq. split.
  - intros (rest & n2 & -> & -> & H).
    apply Match_many_seq in H as (run & rest2 & n3 & -> & -> & Hall & _ & H).
    apply Match_lit in H as (-> & -> & post & ->).
    split; [reflexivity|]. exists run, post.
    split; [now rewrite <- !app_assoc|]. split; [assumption|].
    rewrite !length_app. lia.
  - intros (-> & run & rest & -> & Hall & ->).
    exists (run ++ lit "__" ++ rest), (length run + 2)%nat.
    split; [now rewrite <- !app_assoc|].
    split; [rewrite !length_app; simpl; lia|].
    apply Match_many_seq. exists run, (lit "__" ++ rest), 2%nat.
    split; [reflexivity|]. split; [reflexivity|].
    split; [assumption|]. split; [simpl; lia|]. apply (match_lit (lit "__")).
Qed.

(** The payload pattern. *)
Lemma pPayloadAttr_match prev s n caps :
  Match pPayloadAttr prev s [] n caps
  <-> exists attr value,
        rePayloadAttr prev s = Some (n, (attr, value))
        /\ caps = [attr; slice s (length attr + 1) (length attr + 2); value].
Proof.
  unfold pPayloadAttr, rePayloadAttr. cbv zeta.
  rewrite Match_group_many_seq. split.
  - intros (attr & rest & n2 & -> & -> & Hall & Hmin & H).
    apply Match_lit_seq in H as (rest2 & n3 & -> & -> & H).
    apply Match_seq in H as (n1 & caps1 & n4 & -> & H1 & H2).
    apply Match_group in H1 as (caps0 & H1 & ->).
    apply Match_class in H1 as (-> & -> & q & rest3 & -> & Hq).
    cbn [firstn skipn] in H2.
    apply Match_seq in H2 as (n5 & caps2 & n6 & -> & H2 & H3).
    apply Match_group in H2 as (caps3 & H2 & ->).
    apply pPayloadValue_match in H2 as (-> & run & rest4 & -> & Hrun & ->).
    rewrite firstn_app_exact, skipn_app_exact in H3.
    apply Match_backref in H3 as (-> & text & post & Hk & -> & ->).
    cbn in Hk. inversion Hk; subst text. clear Hk.
    exists attr, (lit "__JSX_BASE64__" ++ run ++ lit "__").
    split.
    2:{ unfold slice. rewrite skipn_app_length.
        now replace (length attr + 2 - (length attr + 1))%nat with 1%nat by lia. }
    change (lit "=" ++ ?x) with (ch_equals :: x).
    rewrite takeWhile_app by (assumption || reflexivity).
    destruct attr as [|a attr]; [simpl in Hmin; lia|].
    rewrite skipn_app_exact. rewrite Z.eqb_refl.
    fold (isAttrQuote q). rewrite Hq. cbn [andb].
    rewrite <- app_assoc.
    change (lit "__JSX_BASE64__") with BASE64_PREFIX.
    rewrite startsWith_app, skipn_app_exact, skipn_app_length.
    rewrite <- app_assoc.
    change ([q] ++ post) with (q :: post).
    assert (Hbody : Forall (fun c => notQuote c = true) (run ++ lit "__")).
    { apply Forall_app. split; [assumption | apply notQuote_underscores]. }
    rewrite app_assoc.
    rewrite takeWhile_app by (assumption || now apply isAttrQuote_notQuote).
    rewrite skipn_app_exact, Z.eqb_refl.
    change (lit "__") with BASE64_SUFFIX. rewrite endsWith_app. cbn [andb].
    f_equal. f_equal. rewrite !length_app. cbn [length].
    change (length (lit "=")) with 1%nat. lia.
  - intros (attr & value & H & ->).
    pose proof (takeWhile_split isWordChar s) as Hs.
    pose proof (takeWhile_all isWordChar s) as Hw.
    remember (takeWhile isWordChar s) as attr' eqn:Ea.
    remember (skipn (length attr') s) as rest eqn:Er.
    destruct attr' as [|a attr0]; [discriminate|].
    destruct rest as [|e [|q' rest']]; try discriminate.
    destruct (Z.eqb_spec e ch_equals) as [->|]; [|discriminate].
    destruct ((q' =? ch_dquote) || (q' =? ch_squote)) eqn:Hq; [|discriminate].
    destruct (startsWith rest' BASE64_PREFIX) eqn:Ep; [|discriminate].
    cbn [andb] in H. apply startsWith_true in Ep as [t ->].
    rewrite skipn_app_exact, skipn_app_length in H.
    pose proof (takeWhile_split notQuote t) as Ht.
    pose proof (takeWhile_all notQuote t) as Hnq.
    remember (takeWhile notQuote t) as body eqn:Eb.
    destruct (skipn (length body) t) as [|q2 post]; [discriminate|].
    destruct (Z.eqb_spec q2 q') as [->|]; [|discriminate].
    destruct (endsWith body BASE64_SUFFIX) eqn:Ee; [|discriminate].
    cbn [andb] in H. inversion H. clear H.
    apply endsWith_iff in Ee as [run Hrun].
    assert (Hall : Forall (fun c => notQuote c = true) run).
    { rewrite Hrun in Hnq. now apply Forall_app in Hnq. }
    clear Ea Eb Er. subst.
    unfold slice. rewrite skipn_app_length.
    replace (length (a :: attr0) + 2 - (length (a :: attr0) + 1))%nat
      with 1%nat by lia.
    cbn [skipn firstn].
    exists (a :: attr0), (ch_equals :: q' :: BASE64_PREFIX ++ (run ++ BASE64_SUFFIX) ++ q' :: post),
      (2 + length BASE64_PREFIX + length (run ++ BASE64_SUFFIX) + 1)%nat.
    split; [reflexivity|]. split; [simpl; lia|].
    split; [assumption|]. split; [simpl; lia|].
    apply (Match_lit_seq (lit "=")).
    exists (q' :: BASE64_PREFIX ++ (run ++ BASE64_SUFFIX) ++ q' :: post),
      (1 + length BASE64_PREFIX + length (run ++ BASE64_SUFFIX) + 1)%nat.
    split; [reflexivity|]. split; [reflexivity|].
    apply Match_seq. exists 1%nat, ([a :: attr0] ++ [[q']]),
      (length BASE64_PREFIX + length (run ++ BASE64_SUFFIX) + 1)%nat.
    split; [simpl; lia|]. split.
    { apply (match_group (Class isAttrQuote) _
               (q' :: BASE64_PREFIX ++ (run ++ BASE64_SUFFIX) ++ q' :: post)
               ([] ++ [a :: attr0]) 1 ([] ++ [a :: attr0])).
      now constructor. }
    cbn [firstn skipn].
    apply Match_seq.
    exists (length BASE64_PREFIX + length (run ++ BASE64_SUFFIX))%nat,
      (([a :: attr0] ++ [[q']]) ++ [BASE64_PREFIX ++ run ++ BASE64_SUFFIX]),
      1%nat.
    split; [reflexivity|].
    replace (BASE64_PREFIX ++ (run ++ BASE64_SUFFIX) ++ q' :: post)
      with ((lit "__JSX_BASE64__" ++ run ++ lit "__") ++ [q'] ++ post)
      by (now rewrite <- !app_assoc).
    replace (length BASE64_PREFIX + length (run ++ BASE64_SUFFIX))%nat
      with (length (lit "__JSX_BASE64__" ++ run ++ lit "__"))
      by (now rewrite !length_app).
    split.
    + apply Match_group. exists ([a :: attr0] ++ [[q']]). split.
      * apply pPayloadValue_match. split; [reflexivity|].
        now exists run, ([q'] ++ post).
      * now rewrite firstn_app_exact.
    + rewrite firstn_app_exact, skipn_app_exact.
      apply (match_backref 1 _ [q'] post). reflexivity.
Qed.

(** A literal pattern. *)
Lemma pLiteral_match (from : jsstring) prev s n caps :
  from <> [] ->
  Match (Lit from) prev s [] n caps
  <-> reLiteral from prev s = Some (n, tt) /\ caps = [].
Proof.
  intros Hne. rewrite Match_lit. unfold reLiteral.
  destruct from as [|a from]; [contradiction|].
  destruct (startsWith s (a :: from)) eqn:Es.
  - apply startsWith_true in Es as [rest ->]. split.
    + intros (-> & -> & _). now split.
    + intros (H & ->). inversion H; subst. repeat split. now exists rest.
  - split.
    + intros (_ & _ & rest & ->). rewrite startsWith_app in Es. discriminate.
    + intros (H & _). discriminate.
Qed.

Lemma convertJsxToSvg_total (s : jsstring) :
  exists out, convertJsxToSvg s = Some out.
Proof.
  unfold convertJsxToSvg.
  destruct (replaceJsxExpressions_total s) as [out ->]. eexists; reflexivity.
Qed.

Lemma findClosing_scanRun (content : jsstring) (startIdx : nat)
    (r : option nat) :
  scanRun content (startIdx + 2) scanStart r
  <-> findClosing content startIdx = option_map S r.
Proof.
  unfold findClosing.
  pose proof (scanBrace_scanRun content (skipn (startIdx + 2) content)
                (startIdx + 2) 1 false None r eq_refl) as H.
  replace (startIdx + 2 - 1)%nat with (startIdx + 1)%nat in H by lia.
  symmetry. apply H. discriminate.
Qed.

(* ================================================================== *)
(** ** The payload codec on every string *)

Lemma utf8_decode_replacement (r : list Z) :
  utf8_decode (replacementBytes ++ r) = replacementChar :: utf8_decode r.
Proof.
  unfold replacementBytes. cbn [app].
  rewrite utf8_decode_3; [reflexivity | lia | reflexivity | lia].
Qed.

Lemma utf8_toWellFormed (s : jsstring) :
  Forall isCodeUnit s -> utf8_decode (utf8_encode s) = toWellFormed s.
Proof.
  remember (length s) as n eqn:Hn.
  revert s Hn. induction n as [n IH] using lt_wf_ind. intros s Hn Hs.
  destruct s as [|c r]; [reflexivity|].
  inversion Hs as [|? ? Hc Hr]; subst. unfold isCodeUnit in Hc.
  assert (IHr : utf8_decode (utf8_encode r) = toWellFormed r).
  { apply (IH (length r)); [simpl; lia | reflexivity | assumption]. }
  cbn [utf8_encode toWellFormed].
  destruct (isHighSurrogate c) eqn:Hhi.
  - apply surrogate_iff in Hhi.
    replace (c <? 0x80) with false by (symmetry; apply Z.ltb_ge; lia).
    replace (c <? 0x800) with false by (symmetry; apply Z.ltb_ge; lia).
    destruct r as [|d r'].
    + rewrite <- (app_nil_r replacementBytes).
      now rewrite utf8_decode_replacement.
    + destruct (isLowSurrogate d) eqn:Hlo.
      * apply surrogate_iff in Hlo. cbv zeta.
        set (cp := 0x10000 + (c - 0xD800) * 0x400 + (d - 0xDC00)).
        destruct (four_byte_facts cp) as (F0 & F1 & F2 & F3 & F4);
          [subst cp; lia|].
        rewrite utf8_decode_4 by assumption.
        rewrite F4. subst cp. rewrite surrogatePair_of by assumption.
        cbn [app]. do 2 f_equal.
        inversion Hr as [|? ? Hd Hr']; subst.
        apply (IH (length r')); [simpl; lia | reflexivity | assumption].
      * now rewrite utf8_decode_replacement, IHr.
  - destruct (isLowSurrogate c) eqn:Hlo.
    + apply surrogate_iff in Hlo.
      replace (c <? 0x80) with false by (symmetry; apply Z.ltb_ge; lia).
      replace (c <? 0x800) with false by (symmetry; apply Z.ltb_ge; lia).
      now rewrite utf8_decode_replacement, IHr.
    + apply surrogate_false_iff in Hhi, Hlo.
      destruct (Z.ltb_spec c 0x80) as [E1|E1].
      * rewrite utf8_decode_1 by lia. now rewrite IHr.
      * destruct (Z.ltb_spec c 0x800) as [E2|E2].
        -- rewrite utf8_decode_2 by zdm. rewrite IHr. f_equal. zdm.
        -- destruct (three_byte_facts c) as (F0 & F1 & F2 & F3); [lia | lia |].
           rewrite utf8_decode_3 by assumption. now rewrite F3, IHr.
Qed.

Lemma toWellFormed_fixed (s : jsstring) :
  wellFormed s = true -> toWellFormed s = s.
Proof.
  remember (length s) as n eqn:Hn.
  revert s Hn. induction n as [n IH] using lt_wf_ind. intros s Hn Hwf.
  destruct s as [|c r]; [reflexivity|].
  cbn [wellFormed] in Hwf. cbn [toWellFormed].
  destruct (isHighSurrogate c).
  - destruct r as [|d r']; [discriminate|].
    apply andb_true_iff in Hwf as [Hlo Hwf]. rewrite Hlo. do 2 f_equal.
    apply (IH (length r')); [simpl in Hn; lia | reflexivity | assumption].
  - destruct (isLowSurrogate c); [discriminate|].
    apply andb_true_iff in Hwf as [_ Hwf]. f_equal.
    apply (IH (length r)); [simpl in Hn; lia | reflexivity | assumption].
Qed.

Lemma wellFormed_plain (c : Z) (r : jsstring) :
  0 <= c <= 0xFFFF -> ~ (0xD800 <= c <= 0xDFFF) ->
  wellFormed (c :: r) = wellFormed r.
Proof.
  intros Hc Hs. cbn [wellFormed].
  replace (isHighSurrogate c) with false
    by (symmetry; apply surrogate_false_iff; lia).
  replace (isLowSurrogate c) with false
    by (symmetry; apply surrogate_false_iff; lia).
  replace (inRange 0 65535 c) with true
    by (symmetry; apply inRange_iff; lia).
  reflexivity.
Qed.

Lemma wellFormed_replacement (r : jsstring) :
  wellFormed (replacementChar :: r) = wellFormed r.
Proof. apply wellFormed_plain; unfold replacementChar; lia. Qed.

Lemma wellFormed_pair (c d : Z) (r : jsstring) :
  0xD800 <= c <= 0xDBFF -> 0xDC00 <= d <= 0xDFFF ->
  wellFormed (c :: d :: r) = wellFormed r.
Proof.
  intros Hc Hd. cbn [wellFormed].
  replace (isHighSurrogate c) with true
    by (symmetry; apply surrogate_iff; lia).
  replace (isLowSurrogate d) with true
    by (symmetry; apply surrogate_iff; lia).
  reflexivity.
Qed.


Lemma wellFormed_toWellFormed (s : jsstring) :
  Forall isCodeUnit s -> wellFormed (toWellFormed s) = true.
Proof.
  remember (length s) as n eqn:Hn.
  revert s Hn. induction n as [n IH] using lt_wf_ind. intros s Hn Hs.
  destruct s as [|c r]; [reflexivity|].
  inversion Hs as [|? ? Hc Hr]; subst. unfold isCodeUnit in Hc.
  assert (IHr : wellFormed (toWellFormed r) = true).
  { apply (IH (length r)); [simpl; lia | reflexivity | assumption]. }
  cbn [toWellFormed].
  destruct (isHighSurrogate c) eqn:Hhi.
  - destruct r as [|d r']; [reflexivity|].
    destruct (isLowSurrogate d) eqn:Hlo.
    + apply surrogate_iff in Hhi, Hlo. rewrite wellFormed_pair by assumption.
      inversion Hr as [|? ? Hd Hr']; subst.
      apply (IH (length r')); [simpl; lia | reflexivity | assumption].
    + now rewrite wellFormed_replacement.
  - destruct (isLowSurrogate c) eqn:Hlo.
    + now rewrite wellFormed_replacement.
    + apply surrogate_false_iff in Hhi, Hlo.
      rewrite wellFormed_plain by lia. assumption.
Qed.


Lemma sextets_range (s : jsstring) :
  Forall (fun v => 0 <= v < 64) (sextets s).
Proof.
  induction s as [|c r IH]; [constructor|].
  cbn [sextets]. destruct (c =? ch_equals); [constructor|].
  unfold unbase64.
  destruct (inRange 65 90 c) eqn:A.
  { apply inRange_iff in A. constructor; [lia | assumption]. }
  destruct (inRange 97 122 c) eqn:B.
  { apply inRange_iff in B. constructor; [lia | assumption]. }
  destruct (inRange 48 57 c) eqn:D.
  { apply inRange_iff in D. constructor; [lia | assumption]. }
  destruct ((c =? 43) || (c =? 45)); [constructor; [lia | assumption]|].
  destruct ((c =? 47) || (c =? 95)); [constructor; [lia | assumption]|].
  assumption.
Qed.

(** The length of base64 text and of UTF-8. *)
Lemma base64_encode_length (bs : list Z) :
  length (base64_encode bs) = (4 * ((length bs + 2) / 3))%nat.
Proof.
  remember (length bs) as n eqn:Hn.
  revert bs Hn. induction n as [n IH] using lt_wf_ind. intros bs Hn.
  destruct bs as [|a [|b [|c rest]]]; subst n; try reflexivity.
  cbn [base64_encode length].
  rewrite (IH (length rest)) by (simpl; lia || reflexivity).
  replace (S (S (S (length rest))) + 2)%nat
    with (length rest + 2 + 1 * 3)%nat by lia.
  rewrite Nat.div_add by lia. lia.
Qed.

Lemma utf8_encode_length (s : jsstring) :
  (length s <= length (utf8_encode s) <= 3 * length s)%nat.
Proof.
  remember (length s) as n eqn:Hn.
  revert s Hn. induction n as [n IH] using lt_wf_ind. intros s Hn.
  assert (IHs : forall l, (length l < length s)%nat ->
            (length l <= length (utf8_encode l) <= 3 * length l)%nat).
  { intros l Hl. apply (IH (length l)); [lia | reflexivity]. }
  subst n. clear IH.
  destruct s as [|c r]; [simpl; lia|].
  assert (Hr := IHs r ltac:(simpl; lia)).
  cbn [utf8_encode].
  destruct (c <? 0x80); [cbn [length]; lia|].
  destruct (c <? 0x800); [cbn [length]; lia|].
  destruct (isHighSurrogate c).
  - destruct r as [|d r']; [cbn [length replacementBytes]; lia|].
    destruct (isLowSurrogate d).
    + assert (Hr' := IHs r' ltac:(simpl; lia)). cbv zeta.
      cbn [length]. lia.
    + unfold replacementBytes. cbn [app length] in *. lia.
  - destruct (isLowSurrogate c).
    + unfold replacementBytes. cbn [app length]. lia.
    + cbn [length]. lia.
Qed.

Lemma decode_of_encode (s : jsstring) :
  wellFormed s = true -> decodeJsx (encodeJsx s) = Some s.
Proof.
  intros Hs. rewrite encodeJsx_decodeJsx, base64_roundtrip.
  - now rewrite utf8_roundtrip.
  - apply utf8_encode_bytes. now apply wellFormed_range.
Qed.

(* ================================================================== *)
(** ** Tables built with [Object.fromEntries] *)






(* ================================================================== *)
(** ** Global replacement with a pattern that looks behind *)

Section ReplaceWalkFacts.
Context {C St : Type}.
Variable re : matcher C.
Variable fn : St -> jsstring -> C -> jsstring * St.

Lemma replaceWalk_pass (pre rest : jsstring) (p : option Z) (st : St) :
  replaceWalk re fn p (pre ++ rest) (length pre) st
  = replaceWalk re fn (lastOr p pre) rest 0 st.
Proof.
  revert p. induction pre as [|c pre IH]; intros p; cbn [app length lastOr].
  - reflexivity.
  - cbn [replaceWalk]. apply IH.
Qed.

Lemma replaceWalk_found (p : option Z) (m rest : jsstring) (caps : C)
    (st : St) :
  m <> [] -> re p (m ++ rest) = Some (length m, caps) ->
  replaceWalk re fn p (m ++ rest) 0 st
  = (let (rep, st1) := fn st m caps in
     let (out, st2) := replaceWalk re fn (lastOr p m) rest 0 st1 in
     (rep ++ out, st2)).
Proof.
  intros Hm Hre. destruct m as [|c m]; [contradiction|].
  cbn [app replaceWalk]. cbn [app] in Hre. rewrite Hre.
  change (c :: m ++ rest) with ((c :: m) ++ rest).
  rewrite firstn_app, firstn_all, Nat.sub_diag. cbn [firstn].
  rewrite app_nil_r.
  replace (length (c :: m) - 1)%nat with (length m) by (simpl; lia).
  destruct (fn st (c :: m) caps) as [rep st1].
  now rewrite replaceWalk_pass.
Qed.

(** Where the pattern matches nowhere, the text is returned as it is and
    the callback is not called. *)
Lemma replaceWalk_no_match (rest : jsstring) :
  forall (p : option Z) (st : St),
    testFrom re p rest = false ->
    replaceWalk re fn p rest 0 st = (rest, st).
Proof.
  induction rest as [|c rest IH]; intros p st Ht; [reflexivity|].
  cbn [testFrom] in Ht. cbn [replaceWalk].
  destruct (re p (c :: rest)); [discriminate|].
  now rewrite (IH (Some c) st Ht).
Qed.
End ReplaceWalkFacts.

Lemma replaceAll_replaceFrom {C : Type} (re : matcher C)
    (fn : jsstring -> C -> jsstring) (s : jsstring) :
  replaceAll re fn s = replaceFrom re fn None s.
Proof. reflexivity. Qed.

Lemma replaceFrom_nil {C : Type} (re : matcher C)
    (fn : jsstring -> C -> jsstring) (p : option Z) :
  replaceFrom re fn p [] = [].
Proof. reflexivity. Qed.

Lemma replaceFrom_found {C : Type} (re : matcher C)
    (fn : jsstring -> C -> jsstring) (p : option Z) (m rest : jsstring)
    (caps : C) :
  m <> [] -> re p (m ++ rest) = Some (length m, caps) ->
  replaceFrom re fn p (m ++ rest)
  = fn m caps ++ replaceFrom re fn (lastOr p m) rest.
Proof.
  intros Hm Hre. unfold replaceFrom.
  rewrite (replaceWalk_found re _ p m rest caps tt Hm Hre).
  now destruct (replaceWalk re _ (lastOr p m) rest 0 tt).
Qed.

Lemma replaceFrom_keep {C : Type} (re : matcher C)
    (fn : jsstring -> C -> jsstring) (p : option Z) (c : Z)
    (rest : jsstring) :
  re p (c :: rest) = None ->
  replaceFrom re fn p (c :: rest) = c :: replaceFrom re fn (Some c) rest.
Proof.
  intros Hre. unfold replaceFrom. cbn [replaceWalk]. rewrite Hre.
  now destruct (replaceWalk re _ (Some c) rest 0 tt).
Qed.

Lemma replaceFrom_no_match {C : Type} (re : matcher C)
    (fn : jsstring -> C -> jsstring) (p : option Z) (s : jsstring) :
  testFrom re p s = false -> replaceFrom re fn p s = s.
Proof.
  intros Ht. unfold replaceFrom. now rewrite replaceWalk_no_match.
Qed.

Lemma replaceAll_no_match {C : Type} (re : matcher C)
    (fn : jsstring -> C -> jsstring) (s : jsstring) :
  regexTest re s = false -> replaceAll re fn s = s.
Proof. apply replaceFrom_no_match. Qed.

Lemma renameAttr_no_match (name to s : jsstring) :
  regexTest (reWordLit name) s = false -> renameAttr name to s = s.
Proof. apply replaceAll_no_match. Qed.

Lemma renameByDict_no_match (m : dict) (s : jsstring) :
  (forall name, In name (dictKeys m) -> regexTest (reWordLit name) s = false) ->
  renameByDict m s = s.
Proof.
  unfold renameByDict. induction m as [|[k v] m IH]; intros H; [reflexivity|].
  cbn [fold_left fst snd].
  rewrite renameAttr_no_match by (apply H; now left).
  apply IH. intros name Hin. apply H. now right.
Qed.

(** A pattern that needs a character the text does not hold matches
    nowhere. *)
Lemma testFrom_absent {C : Type} (re : matcher C) (ch : Z) :
  (forall prev rest, ~ In ch rest -> re prev rest = None) ->
  forall rest prev, ~ In ch rest -> testFrom re prev rest = false.
Proof.
  intros Hre. induction rest as [|c rest IH]; intros prev Hnin.
  - cbn [testFrom]. now rewrite Hre.
  - cbn [testFrom]. rewrite Hre by assumption.
    apply IH. intros H. apply Hnin. now right.
Qed.

Lemma In_skipn (A : Type) (x : A) (l : list A) (n : nat) :
  In x (skipn n l) -> In x l.
Proof.
  intros H. rewrite <- (firstn_skipn n l). apply in_or_app. now right.
Qed.

Lemma startsWith_In (s p : jsstring) (c : Z) :
  startsWith s p = true -> In c p -> In c s.
Proof.
  intros H Hin. apply startsWith_true in H as [t ->].
  apply in_or_app. now left.
Qed.

Lemma reWordLit_equals (name : jsstring) (prev : option Z) (rest : jsstring) :
  ~ In ch_equals rest -> reWordLit name prev rest = None.
Proof.
  intros Hnin. unfold reWordLit.
  destruct (startsWith rest (name ++ lit "=")) eqn:E.
  - exfalso. apply Hnin. apply (startsWith_In _ _ _ E).
    apply in_or_app. right. now left.
  - now rewrite andb_false_r.
Qed.

Lemma reEvent_equals (prev : option Z) (rest : jsstring) :
  ~ In ch_equals rest -> reEvent prev rest = None.
Proof.
  intros Hnin. unfold reEvent.
  destruct (wordBoundary prev rest); [|reflexivity].
  destruct (eventName rest) as [name|]; [|reflexivity].
  destruct (startsWith (skipn (length name) rest) (lit "=")) eqn:E;
    [|reflexivity].
  exfalso. apply Hnin. apply (In_skipn _ _ _ (length name)).
  apply (startsWith_In _ _ _ E). now left.
Qed.

Lemma quotedValue_equals (rest : jsstring) :
  ~ In ch_equals rest -> quotedValue rest = None.
Proof.
  intros Hnin. destruct (quotedValue rest) as [[n value]|] eqn:E;
    [|reflexivity].
  apply quotedValue_head in E as [post ->]. exfalso. apply Hnin. now left.
Qed.

Lemma reSpreadPlaceholder_equals (prev : option Z) (rest : jsstring) :
  ~ In ch_equals rest -> reSpreadPlaceholder prev rest = None.
Proof.
  intros Hnin. unfold reSpreadPlaceholder. cbv zeta.
  destruct (wordBoundary prev rest && startsWith rest (lit "data-spread-"));
    [|reflexivity].
  destruct (takeWhile isDigit (skipn (length (lit "data-spread-")) rest))
    as [|d ds]; [reflexivity|].
  rewrite quotedValue_equals; [reflexivity|].
  intros H. apply Hnin. eapply In_skipn, H.
Qed.

Lemma reEventPlaceholder_equals (prev : option Z) (rest : jsstring) :
  ~ In ch_equals rest -> reEventPlaceholder prev rest = None.
Proof.
  intros Hnin. unfold reEventPlaceholder. cbv zeta.
  destruct (wordBoundary prev rest && startsWith rest (lit "data-jsx-event-"));
    [|reflexivity].
  destruct (eventName (skipn (length (lit "data-jsx-event-")) rest))
    as [name|]; [|reflexivity].
  rewrite quotedValue_equals; [reflexivity|].
  intros H. apply Hnin. eapply In_skipn, H.
Qed.

Lemma rePayloadAttr_equals (prev : option Z) (rest : jsstring) :
  ~ In ch_equals rest -> rePayloadAttr prev rest = None.
Proof.
  intros Hnin. unfold rePayloadAttr. cbv zeta.
  destruct (takeWhile isWordChar rest) as [|a attr]; [reflexivity|].
  destruct (skipn (length (a :: attr)) rest) as [|e [|q rest']] eqn:E;
    try reflexivity.
  destruct (Z.eqb_spec e ch_equals) as [->|Hne]; [|reflexivity].
  exfalso. apply Hnin. apply (In_skipn _ _ _ (length (a :: attr))).
  rewrite E. now left.
Qed.

Lemma reBraced_absent (open : jsstring) (ch : Z) (prev : option Z)
    (rest : jsstring) :
  In ch open -> ~ In ch rest -> reBraced open prev rest = None.
Proof.
  intros Hin Hnin. unfold reBraced.
  destruct (startsWith rest open) eqn:E; [|reflexivity].
  exfalso. apply Hnin. now apply (startsWith_In _ _ _ E).
Qed.

Lemma hover_table : SvgHoverProvider.jsxToSvgAttributes = jsxToSvgAttributeMap.
Proof. reflexivity. Qed.

Lemma gutter_table : SvgGutterPreview.jsxToSvgAttributes = jsxToSvgAttributeMap.
Proof. reflexivity. Qed.

Lemma replaceJsxExpressions_no_open (s : jsstring) :
  (forall k, startsWith (skipn k s) (lit "={") = false) ->
  replaceJsxExpressions s = Some s.
Proof.
  intros H. unfold replaceJsxExpressions.
  rewrite replaceLoop_unmatched; [reflexivity | | lia].
  intros k Hk. rewrite H in Hk. discriminate.
Qed.

(* ================================================================== *)
(** ** Entity escaping *)

Lemma isHtmlSpecial_cases (c : Z) :
  isHtmlSpecial c = true
  <-> c = ch_amp \/ c = ch_lt \/ c = ch_gt \/ c = ch_dquote \/ c = ch_squote.
Proof.
  unfold isHtmlSpecial. rewrite !orb_true_iff, !Z.eqb_eq. tauto.
Qed.

Lemma escapeChar_plain (c : Z) : isHtmlSpecial c = false -> escapeChar c = [c].
Proof.
  unfold isHtmlSpecial, escapeChar. rewrite !orb_false_iff.
  intros ((((-> & ->) & ->) & ->) & ->). reflexivity.
Qed.

(** [escapeHtml] replaces every code unit on its own. *)
Lemma escapeHtml_flat_map (text : jsstring) :
  escapeHtml text = flat_map escapeChar text.
Proof.
  unfold escapeHtml. rewrite replaceAll_replaceFrom.
  generalize (@None Z). induction text as [|c text IH]; intros p.
  - reflexivity.
  - cbn [flat_map]. destruct (isHtmlSpecial c) eqn:E.
    + change (c :: text) with ([c] ++ text).
      rewrite (replaceFrom_found _ _ p [c] text tt).
      * rewrite IH. f_equal.
        apply isHtmlSpecial_cases in E as [-> | [-> | [-> | [-> | ->]]]];
          reflexivity.
      * discriminate.
      * cbn [app reHtmlSpecial]. now rewrite E.
    + rewrite replaceFrom_keep by (cbn [reHtmlSpecial]; now rewrite E).
      rewrite IH. now rewrite escapeChar_plain.
Qed.

(** *** Literal replacement in a text made of chunks *)

Lemma replaceFrom_chunkFree (from : jsstring) (fn : jsstring -> unit -> jsstring)
    (rest : jsstring) (chunk : jsstring) :
  forall p,
    (forall i, (i < length chunk)%nat ->
               startsWith (skipn i (chunk ++ rest)) from = false) ->
    replaceFrom (reLiteral from) fn p (chunk ++ rest)
    = chunk ++ replaceFrom (reLiteral from) fn (lastOr p chunk) rest.
Proof.
  induction chunk as [|c chunk IH]; intros p H; [reflexivity|].
  cbn [app lastOr]. rewrite replaceFrom_keep.
  - f_equal. apply IH. intros i Hi. apply (H (S i)). simpl. lia.
  - unfold reLiteral. destruct from; [reflexivity|].
    specialize (H 0%nat ltac:(simpl; lia)). cbn [skipn app] in H.
    now rewrite H.
Qed.

Lemma replaceLiteral_flat_map (from to : jsstring) (f g : Z -> jsstring)
    (t : jsstring) :
  from <> [] ->
  (forall c, (f c = from /\ g c = to) \/ (g c = f c /\ chunkFree from (f c))) ->
  replaceLiteral from to (flat_map f t) = flat_map g t.
Proof.
  intros Hne H. unfold replaceLiteral. rewrite replaceAll_replaceFrom.
  generalize (@None Z). induction t as [|c t IH]; intros p; [reflexivity|].
  cbn [flat_map]. destruct (H c) as [[Ef Eg] | [Eg Hfree]].
  - rewrite Ef, Eg. rewrite (replaceFrom_found _ _ p from _ tt Hne).
    + now rewrite IH.
    + unfold reLiteral. destruct from; [contradiction|].
      now rewrite startsWith_app.
  - rewrite Eg. rewrite replaceFrom_chunkFree by (intros i; apply Hfree).
    now rewrite IH.
Qed.

(** A single code unit other than the ampersand starts no entity. *)
Lemma chunkFree_plain (from : jsstring) (c : Z) :
  c <> ch_amp -> chunkFree (ch_amp :: from) [c].
Proof.
  intros Hc rest i Hi. destruct i as [|i]; [|simpl in Hi; lia].
  cbn [skipn app startsWith].
  now replace (c =? ch_amp) with false by (symmetry; now apply Z.eqb_neq).
Qed.

Ltac chunk_free :=
  let rest := fresh "rest" in
  let i := fresh "i" in
  let Hi := fresh "Hi" in
  intros rest i Hi;
  repeat (destruct i as [|i]; [reflexivity|]);
  simpl in Hi; lia.

(** Case analysis on a code unit of an escaped text. *)
Ltac entity_cases c :=
  destruct (Z.eqb_spec c ch_amp) as [->|?];
  [|destruct (Z.eqb_spec c ch_lt) as [->|?];
    [|destruct (Z.eqb_spec c ch_gt) as [->|?];
      [|destruct (Z.eqb_spec c ch_dquote) as [->|?];
        [|destruct (Z.eqb_spec c ch_squote) as [->|?]]]]].

Lemma unescapeEntities_escapeHtml_flat_map (text : jsstring) :
  unescapeEntities (escapeHtml text)
  = flat_map (fun c => if c =? ch_squote then lit "&#039;" else [c]) text.
Proof.
  unfold unescapeEntities. rewrite escapeHtml_flat_map.
  rewrite (replaceLiteral_flat_map (lit "&quot;") dq escapeChar
             (fun c => if c =? ch_dquote then [c] else escapeChar c)).
  2: discriminate.
  2: { intros c. entity_cases c.
       - right. split; [reflexivity | chunk_free].
       - right. split; [reflexivity | chunk_free].
       - right. split; [reflexivity | chunk_free].
       - left. split; reflexivity.
       - right. split; [reflexivity | chunk_free].
       - right. split.
         + now replace (c =? ch_dquote) with false
             by (symmetry; now apply Z.eqb_neq).
         + rewrite escapeChar_plain.
           * now apply (chunkFree_plain (lit "quot;")).
           * unfold isHtmlSpecial.
             repeat match goal with
                    | H : ?a <> ?b |- _ =>
                        apply Z.eqb_neq in H; rewrite H; clear H
                    end.
             reflexivity. }
  rewrite (replaceLiteral_flat_map (lit "&gt;") (lit ">")
             (fun c => if c =? ch_dquote then [c] else escapeChar c)
             (fun c => if (c =? ch_dquote) || (c =? ch_gt) then [c]
                       else escapeChar c)).
  2: discriminate.
  2: { intros c. entity_cases c.
       - right. split; [reflexivity | chunk_free].
       - right. split; [reflexivity | chunk_free].
       - left. split; reflexivity.
       - right. split; [reflexivity |].
         now apply (chunkFree_plain (lit "gt;")).
       - right. split; [reflexivity | chunk_free].
       - right.
         assert (Ep : escapeChar c = [c]).
         { apply escapeChar_plain. unfold isHtmlSpecial.
           repeat match goal with
                  | H : ?a <> ?b |- _ =>
                      apply Z.eqb_neq in H; rewrite H
                  end.
           reflexivity. }
         rewrite Ep. split.
         + now destruct (c =? ch_dquote), (c =? ch_gt).
         + destruct (c =? ch_dquote);
             now apply (chunkFree_plain (lit "gt;")). }
  rewrite (replaceLiteral_flat_map (lit "&lt;") (lit "<")
             (fun c => if (c =? ch_dquote) || (c =? ch_gt) then [c]
                       else escapeChar c)
             (fun c => if (c =? ch_dquote) || (c =? ch_gt) || (c =? ch_lt)
                       then [c] else escapeChar c)).
  2: discriminate.
  2: { intros c. entity_cases c.
       - right. split; [reflexivity | chunk_free].
       - left. split; reflexivity.
       - right. split; [reflexivity |].
         now apply (chunkFree_plain (lit "lt;")).
       - right. split; [reflexivity |].
         now apply (chunkFree_plain (lit "lt;")).
       - right. split; [reflexivity | chunk_free].
       - right.
         assert (Ep : escapeChar c = [c]).
         { apply escapeChar_plain. unfold isHtmlSpecial.
           repeat match goal with
                  | H : ?a <> ?b |- _ =>
                      apply Z.eqb_neq in H; rewrite H
                  end.
           reflexivity. }
         rewrite Ep. split.
         + now destruct (c =? ch_dquote), (c =? ch_gt), (c =? ch_lt).
         + destruct ((c =? ch_dquote) || (c =? ch_gt));
             now apply (chunkFree_plain (lit "lt;")). }
  apply (replaceLiteral_flat_map (lit "&amp;") (lit "&")).
  1: discriminate.
  intros c. entity_cases c.
  - left. split; reflexivity.
  - right. split; [reflexivity |].
    now apply (chunkFree_plain (lit "amp;")).
  - right. split; [reflexivity |].
    now apply (chunkFree_plain (lit "amp;")).
  - right. split; [reflexivity |].
    now apply (chunkFree_plain (lit "amp;")).
  - right. split; [reflexivity | chunk_free].
  - right.
    assert (Ep : escapeChar c = [c]).
    { apply escapeChar_plain. unfold isHtmlSpecial.
      repeat match goal with
             | H : ?a <> ?b |- _ =>
                 apply Z.eqb_neq in H; rewrite H
             end.
      reflexivity. }
    rewrite Ep. split.
    + now destruct (c =? ch_dquote), (c =? ch_gt), (c =? ch_lt).
    + now apply (chunkFree_plain (lit "amp;")).
Qed.

(* ================================================================== *)
(** ** The placeholders of the forward transcoder, read by the reverse one *)

Lemma revapp_nonnil (d d' : Decimal.uint) :
  d' <> Decimal.Nil -> Decimal.revapp d d' <> Decimal.Nil.
Proof.
  revert d'. induction d; intros d' H; cbn [Decimal.revapp];
    try assumption; apply IHd; discriminate.
Qed.

Lemma little_succ_nonnil (d : Decimal.uint) :
  Decimal.Little.succ d <> Decimal.Nil.
Proof. destruct d; discriminate. Qed.

Lemma to_little_uint_nonnil (n : nat) :
  forall acc, acc <> Decimal.Nil -> Nat.to_little_uint n acc <> Decimal.Nil.
Proof.
  induction n as [|n IH]; intros acc H; cbn [Nat.to_little_uint].
  - assumption.
  - apply IH, little_succ_nonnil.
Qed.

Lemma string_of_uint_digits (d : Decimal.uint) :
  Forall (fun c => isDigit c = true) (lit (NilEmpty.string_of_uint d)).
Proof.
  induction d; cbn [NilEmpty.string_of_uint]; try constructor;
    try reflexivity; assumption.
Qed.

Lemma string_of_uint_nonempty (d : Decimal.uint) :
  d <> Decimal.Nil -> lit (NilEmpty.string_of_uint d) <> [].
Proof. destruct d; intros H; [contradiction | discriminate ..]. Qed.

(** The decimal rendering of a counter is a non-empty run of digits. *)
Lemma decimal_digits (n : nat) :
  decimal n <> [] /\ Forall (fun c => isDigit c = true) (decimal n).
Proof.
  unfold decimal. split; [|apply string_of_uint_digits].
  apply string_of_uint_nonempty. unfold Nat.to_uint, Decimal.rev.
  destruct (Nat.to_little_uint n Decimal.zero) eqn:E.
  - exfalso. revert E. apply to_little_uint_nonnil. discriminate.
  - cbn [Decimal.revapp]. apply revapp_nonnil. discriminate.
  - cbn [Decimal.revapp]. apply revapp_nonnil. discriminate.
  - cbn [Decimal.revapp]. apply revapp_nonnil. discriminate.
  - cbn [Decimal.revapp]. apply revapp_nonnil. discriminate.
  - cbn [Decimal.revapp]. apply revapp_nonnil. discriminate.
  - cbn [Decimal.revapp]. apply revapp_nonnil. discriminate.
  - cbn [Decimal.revapp]. apply revapp_nonnil. discriminate.
  - cbn [Decimal.revapp]. apply revapp_nonnil. discriminate.
  - cbn [Decimal.revapp]. apply revapp_nonnil. discriminate.
  - cbn [Decimal.revapp]. apply revapp_nonnil. discriminate.
Qed.

Lemma isPayloadChar_notQuote (c : Z) :
  isPayloadChar c = true -> notQuote c = true /\ notDQuote c = true.
Proof.
  unfold isPayloadChar, isBase64Char, notQuote, notDQuote, ch_underscore,
    ch_equals, ch_dquote, ch_squote.
  rewrite !orb_true_iff, !inRange_iff, !Z.eqb_eq. intros H.
  assert (Hd : c <> 34) by lia. assert (Hs : c <> 39) by lia.
  apply Z.eqb_neq in Hd, Hs. now rewrite Hd, Hs.
Qed.

Lemma encodeJsx_payloadChars (body : jsstring) :
  Forall (fun c => isPayloadChar c = true) (encodeJsx body).
Proof.
  unfold encodeJsx. apply Forall_app. split; [|apply Forall_app; split].
  - repeat constructor.
  - eapply Forall_impl; [|apply base64_encode_alphabet].
    intros c Hc. unfold isPayloadChar. cbv beta in Hc. rewrite Hc.
    apply orb_true_r.
  - repeat constructor.
Qed.

Lemma encodeJsx_notDQuote (body : jsstring) :
  Forall (fun c => notDQuote c = true) (encodeJsx body).
Proof.
  eapply Forall_impl; [|apply encodeJsx_payloadChars].
  intros c Hc. now apply isPayloadChar_notQuote.
Qed.

Lemma quotedValue_of (value post : jsstring) :
  Forall (fun c => notDQuote c = true) value ->
  quotedValue (lit "=" ++ dq ++ value ++ dq ++ post)
  = Some ((2 + length value + 1)%nat, value).
Proof.
  intros Hv. apply quotedValue_some. repeat split; [assumption|].
  exists post. now rewrite <- !app_assoc.
Qed.

Lemma wordBoundary_start (prev : option Z) (a rest : jsstring) :
  isWordBefore prev = false -> isWordAfter a = true ->
  wordBoundary prev (a ++ rest) = true.
Proof.
  intros Hp Hc. unfold wordBoundary. destruct a as [|c a]; [discriminate|].
  cbn [app isWordAfter] in *. now rewrite Hp, Hc.
Qed.

Lemma lastOr_app (p : option Z) (a b : jsstring) :
  lastOr p (a ++ b) = lastOr (lastOr p a) b.
Proof. revert p. induction a as [|x a IH]; intros p; [reflexivity | apply IH]. Qed.

(** The spread placeholder is what the reverse pattern looks for. *)
Lemma reSpreadPlaceholder_of (prev : option Z) (n : nat)
    (e post : jsstring) :
  isWordBefore prev = false ->
  reSpreadPlaceholder prev (spreadPlaceholder n e ++ post)
  = Some (length (spreadPlaceholder n e), encodeJsx e).
Proof.
  intros Hp. destruct (decimal_digits n) as [Hne Hdig].
  unfold spreadPlaceholder. rewrite <- !app_assoc.
  unfold reSpreadPlaceholder. cbv zeta.
  rewrite wordBoundary_start by (assumption || reflexivity).
  rewrite startsWith_app. cbn [andb].
  rewrite skipn_app_exact.
  change (lit "=" ++ dq ++ encodeJsx e ++ dq ++ post)
    with (ch_equals :: dq ++ encodeJsx e ++ dq ++ post).
  rewrite takeWhile_app by (assumption || reflexivity).
  destruct (decimal n) as [|d ds] eqn:Ed; [contradiction|].
  rewrite <- Ed. rewrite skipn_app_length, skipn_app_exact.
  change (ch_equals :: dq ++ encodeJsx e ++ dq ++ post)
    with (lit "=" ++ dq ++ encodeJsx e ++ dq ++ post).
  rewrite quotedValue_of by apply encodeJsx_notDQuote.
  f_equal. f_equal. rewrite !length_app. simpl. lia.
Qed.

(** The payload of an attribute is what the payload pattern looks for;
    the attribute is written with either quote. *)
Lemma rePayloadAttr_of (prev : option Z) (name e post : jsstring) (q : Z) :
  name <> [] -> Forall (fun c => isWordChar c = true) name ->
  isAttrQuote q = true ->
  rePayloadAttr prev
    ((name ++ lit "=" ++ [q] ++ encodeJsx e ++ [q]) ++ post)
  = Some (length (name ++ lit "=" ++ [q] ++ encodeJsx e ++ [q]),
          (name, encodeJsx e)).
Proof.
  intros Hne Hname Hq. rewrite <- !app_assoc.
  unfold rePayloadAttr. cbv zeta.
  change (lit "=" ++ [q] ++ encodeJsx e ++ [q] ++ post)
    with (ch_equals :: q :: encodeJsx e ++ q :: post).
  rewrite takeWhile_app by (assumption || reflexivity).
  destruct name as [|a name'] eqn:En; [contradiction|].
  cbv iota. rewrite <- En.
  rewrite skipn_app_exact. rewrite Z.eqb_refl.
  unfold isAttrQuote in Hq. rewrite Hq. cbn [andb].
  unfold encodeJsx. rewrite <- !app_assoc.
  rewrite startsWith_app. rewrite skipn_app_exact.
  assert (Hbody : Forall (fun c => notQuote c = true)
                    (base64_encode (utf8_encode e) ++ BASE64_SUFFIX)).
  { apply Forall_app. split.
    - eapply Forall_impl; [|apply base64_encode_alphabet].
      intros c Hc. apply isPayloadChar_notQuote. unfold isPayloadChar.
      cbv beta in Hc. rewrite Hc. apply orb_true_r.
    - repeat constructor. }
  assert (Hqn : notQuote q = false) by now apply isAttrQuote_notQuote.
  rewrite (app_assoc (base64_encode (utf8_encode e))).
  rewrite takeWhile_app by assumption.
  rewrite skipn_app_length, skipn_app_exact.
  rewrite Z.eqb_refl, endsWith_app. cbn [andb].
  f_equal. f_equal.
  rewrite !length_app. simpl. lia.
Qed.

Lemma eventPlaceholder_of (prev : option Z) (c : Z)
    (run value post : jsstring) :
  isWordBefore prev = false -> isUpper c = true ->
  Forall (fun c => isWordChar c = true) run ->
  Forall (fun c => notDQuote c = true) value ->
  let name := lit "on" ++ c :: run in
  let m := lit "data-jsx-event-" ++ name ++ lit "=" ++ dq ++ value ++ dq in
  reEventPlaceholder prev (m ++ post) = Some (length m, (name, value)).
Proof.
  intros Hp Hc Hrun Hv name m. subst m.
  rewrite <- !app_assoc. unfold reEventPlaceholder. cbv zeta.
  rewrite wordBoundary_start by (assumption || reflexivity).
  rewrite startsWith_app. cbn [andb]. rewrite skipn_app_exact.
  change (name ++ lit "=" ++ dq ++ value ++ dq ++ post)
    with (name ++ ch_equals :: dq ++ value ++ dq ++ post).
  unfold name at 1. rewrite eventName_before_equals by assumption.
  fold name. rewrite skipn_app_length, skipn_app_exact.
  change (ch_equals :: dq ++ value ++ dq ++ post)
    with (lit "=" ++ dq ++ value ++ dq ++ post).
  rewrite quotedValue_of by assumption.
  f_equal. f_equal. rewrite !length_app. simpl. lia.
Qed.

Lemma reEvent_of (prev : option Z) (c : Z) (run post : jsstring) :
  isWordBefore prev = false -> isUpper c = true ->
  Forall (fun c => isWordChar c = true) run ->
  let name := lit "on" ++ c :: run in
  reEvent prev ((name ++ lit "=") ++ post)
  = Some (length (name ++ lit "="), name).
Proof.
  intros Hp Hc Hrun name. rewrite <- app_assoc.
  unfold reEvent.
  rewrite wordBoundary_start by (assumption || reflexivity).
  change (name ++ lit "=" ++ post) with (name ++ ch_equals :: post).
  unfold name at 1. rewrite eventName_before_equals by assumption.
  fold name. rewrite skipn_app_exact, length_app. reflexivity.
Qed.

(* ================================================================== *)
(** ** The expression pass on a text and on its parts *)

(** The scanner on an expression without quotes whose braces are
    balanced: it stops at the brace that follows the expression. *)
Lemma scanBrace_balanced (e : jsstring) :
  forall (post : jsstring) (prev : Z) (j : nat) (depth : Z),
    quoteFree e -> 0 <= depth -> balancedFrom e depth = true ->
    scanBrace (e ++ ch_rbrace :: post) prev j (1 + depth) false None
    = Some (j + length e + 1)%nat.
Proof.
  induction e as [|c r IH]; intros post prev j depth Hq Hd Hb.
  - cbn [balancedFrom] in Hb. apply Z.eqb_eq in Hb. subst depth.
    cbn. f_equal. lia.
  - inversion Hq as [|? ? Hc Hr]; subst.
    cbn [app scanBrace]. rewrite Hc. cbn [balancedFrom] in Hb.
    cbn [length]. replace (j + S (length r) + 1)%nat
      with (S j + length r + 1)%nat by lia.
    destruct (c =? ch_lbrace) eqn:El.
    + cbv zeta iota beta. cbn [negb andb].
      replace (1 + depth + 1 =? 0) with false
        by (symmetry; apply Z.eqb_neq; lia).
      replace (1 + depth + 1) with (1 + (depth + 1)) by lia.
      apply IH; [assumption | lia | assumption].
    + destruct (c =? ch_rbrace) eqn:Er.
      * apply andb_true_iff in Hb as [H1 Hb]. apply Z.leb_le in H1.
        cbv zeta iota beta. cbn [negb andb].
        replace (1 + depth - 1 =? 0) with false
          by (symmetry; apply Z.eqb_neq; lia).
        replace (1 + depth - 1) with (1 + (depth - 1)) by lia.
        apply IH; [assumption | lia | assumption].
      * cbv zeta iota beta. cbn [negb andb].
        replace (1 + depth =? 0) with false
          by (symmetry; apply Z.eqb_neq; lia).
        apply IH; assumption.
Qed.

Lemma findClosing_balanced (pre e post : jsstring) :
  quoteFree e -> balanced e = true ->
  findClosing (pre ++ lit "={" ++ e ++ lit "}" ++ post) (length pre)
  = Some (length pre + 2 + length e + 1)%nat.
Proof.
  intros Hq Hb. unfold findClosing.
  rewrite skipn_app_length. cbn [lit list_ascii_of_string map app skipn].
  change (1 :: nil) with [1].
  rewrite (scanBrace_balanced e post _ _ 0 Hq ltac:(lia) Hb). reflexivity.
Qed.

(** *** Positions in a text that follows a prefix *)

Lemma indexOfAt_shift (pat rest : jsstring) (a : nat) :
  forall i, indexOfAt pat rest (a + i)
            = option_map (Nat.add a) (indexOfAt pat rest i).
Proof.
  induction rest as [|c rest IH]; intros i; cbn [indexOfAt].
  - now destruct (startsWith [] pat).
  - destruct (startsWith (c :: rest) pat); [reflexivity|].
    rewrite <- Nat.add_succ_r. apply IH.
Qed.

Lemma indexOf_shift (pre s pat : jsstring) (i : nat) :
  indexOf (pre ++ s) pat (length pre + i)
  = option_map (Nat.add (length pre)) (indexOf s pat i).
Proof.
  unfold indexOf. rewrite skipn_app_length, length_app.
  rewrite Nat.add_min_distr_l. apply indexOfAt_shift.
Qed.

Lemma scanBrace_shift (rest : jsstring) (a : nat) :
  forall (prev : Z) (j : nat) (balance : Z) (inString : bool)
         (stringChar : option Z),
    scanBrace rest prev (a + j) balance inString stringChar
    = option_map (Nat.add a)
        (scanBrace rest prev j balance inString stringChar).
Proof.
  induction rest as [|c rest IH]; intros prev j balance inString stringChar;
    [reflexivity|].
  cbn [scanBrace].
  destruct (if inString
            then if optEqb stringChar c && negb (prev =? ch_backslash)
                 then (false, stringChar, balance)
                 else (inString, stringChar, balance)
            else if isQuoteChar c then (true, Some c, balance)
                 else if c =? ch_lbrace
                      then (inString, stringChar, balance + 1)
                      else if c =? ch_rbrace
                           then (inString, stringChar, balance - 1)
                           else (inString, stringChar, balance))
    as [[i1 s1] b1].
  cbv zeta. rewrite <- Nat.add_succ_r.
  destruct (negb i1 && (b1 =? 0)); [reflexivity | apply IH].
Qed.

Lemma findClosing_shift (pre s : jsstring) (k : nat) :
  findClosing (pre ++ s) (length pre + k)
  = option_map (Nat.add (length pre)) (findClosing s k).
Proof.
  unfold findClosing. rewrite <- !Nat.add_assoc.
  rewrite skipn_app_length, app_nth2_plus. apply scanBrace_shift.
Qed.

Lemma slice_shift (pre s : jsstring) (a b : nat) :
  slice (pre ++ s) (length pre + a) (length pre + b) = slice s a b.
Proof.
  unfold slice. rewrite skipn_app_length. f_equal. lia.
Qed.

Lemma replaceLoop_shift (fuel : nat) :
  forall (pre s : jsstring) (i : nat),
    replaceLoop fuel (pre ++ s) (length pre + i) []
    = replaceLoop fuel s i [].
Proof.
  induction fuel as [|fuel IH]; intros pre s i; [reflexivity|].
  cbn [replaceLoop].
  replace (length pre + i <? length (pre ++ s))%nat with (i <? length s)%nat.
  2: { rewrite length_app.
       destruct (Nat.ltb_spec i (length s));
         destruct (Nat.ltb_spec (length pre + i) (length pre + length s));
         (reflexivity || lia). }
  destruct (i <? length s)%nat; [|reflexivity].
  rewrite indexOf_shift.
  destruct (indexOf s (lit "={") i) as [startIdx|] eqn:Ei; cbn [option_map].
  - rewrite findClosing_shift, slice_shift.
    destruct (findClosing s startIdx) as [j|] eqn:Ej; cbn [option_map].
    + apply findClosing_bounds in Ej as [Hj _].
      replace (length pre + startIdx + 2)%nat
        with (length pre + (startIdx + 2))%nat by lia.
      replace (length pre + j - 1)%nat with (length pre + (j - 1))%nat by lia.
      rewrite slice_shift.
      rewrite replaceLoop_result, IH. symmetry.
      now rewrite replaceLoop_result.
    + replace (length pre + startIdx + 2)%nat
        with (length pre + (startIdx + 2))%nat by lia.
      rewrite replaceLoop_result, IH. symmetry.
      now rewrite replaceLoop_result.
  - unfold sliceFrom. now rewrite skipn_app_length.
Qed.

(** The first [={] of a text that has none in its first part. *)
Lemma startsWith_open_app (a rest : jsstring) :
  a <> [] ->
  startsWith (a ++ lit "={" ++ rest) (lit "={") = startsWith a (lit "={").
Proof.
  intros Ha. destruct a as [|c [|d a]]; [contradiction | |].
  - cbn. destruct (c =? 61); reflexivity.
  - reflexivity.
Qed.

Lemma indexOfAt_first_open (pre rest : jsstring) :
  (forall m, startsWith (skipn m pre) (lit "={") = false) ->
  forall i, indexOfAt (lit "={") (pre ++ lit "={" ++ rest) i
            = Some (i + length pre)%nat.
Proof.
  induction pre as [|c pre IH]; intros H i.
  - cbn. f_equal. lia.
  - cbn [app indexOfAt].
    change (c :: pre ++ lit "={" ++ rest)
      with ((c :: pre) ++ lit "={" ++ rest).
    rewrite startsWith_open_app by discriminate.
    rewrite (H 0%nat : startsWith (c :: pre) (lit "={") = false).
    rewrite IH; [cbn [length]; f_equal; lia|].
    intros m. apply (H (S m)).
Qed.

Lemma indexOf_first_open (pre rest : jsstring) :
  includes pre (lit "={") = false ->
  indexOf (pre ++ lit "={" ++ rest) (lit "={") 0 = Some (length pre).
Proof.
  intros H. unfold indexOf. cbn [skipn Nat.min].
  rewrite indexOfAt_first_open; [reflexivity|].
  intros m. unfold includes in H.
  destruct (indexOf pre (lit "={") 0) eqn:E; [discriminate|].
  apply (indexOf_none _ _ _ m E). lia.
Qed.

(* ================================================================== *)
(** ** The text that the spread pass leaves *)

Lemma isPayloadChar_not_lbrace (c : Z) :
  isPayloadChar c = true -> c <> ch_lbrace.
Proof.
  unfold isPayloadChar, isBase64Char, ch_underscore, ch_equals, ch_lbrace.
  rewrite !orb_true_iff, !inRange_iff, !Z.eqb_eq. lia.
Qed.

Lemma isDigit_not_lbrace (c : Z) : isDigit c = true -> c <> ch_lbrace.
Proof. unfold isDigit, ch_lbrace. rewrite inRange_iff. lia. Qed.

(** A placeholder holds no opening brace. *)
Lemma spreadPlaceholder_no_lbrace (n : nat) (e : jsstring) :
  Forall (fun c => c <> ch_lbrace) (spreadPlaceholder n e).
Proof.
  unfold spreadPlaceholder.
  apply Forall_app; split; [repeat constructor; discriminate|].
  apply Forall_app; split.
  { eapply Forall_impl; [|apply decimal_digits].
    intros c. apply isDigit_not_lbrace. }
  apply Forall_app; split; [repeat constructor; discriminate|].
  apply Forall_app; split; [repeat constructor; discriminate|].
  apply Forall_app; split; [|repeat constructor; discriminate].
  eapply Forall_impl; [|apply encodeJsx_payloadChars].
  intros c. apply isPayloadChar_not_lbrace.
Qed.

Lemma reSpread_needs_lbrace (p : option Z) (c : Z) (rest : jsstring) :
  c <> ch_lbrace -> reSpread p (c :: rest) = None.
Proof.
  intros Hc. unfold reSpread, reBraced. cbn [lit list_ascii_of_string map startsWith].
  replace (c =? _) with false by (symmetry; now apply Z.eqb_neq).
  reflexivity.
Qed.

Lemma testFrom_reSpread_chunk (chunk out : jsstring) :
  Forall (fun c => c <> ch_lbrace) chunk ->
  forall p, testFrom reSpread p (chunk ++ out)
            = testFrom reSpread (lastOr p chunk) out.
Proof.
  induction 1 as [|c chunk Hc _ IH]; intros p; [reflexivity|].
  cbn [app testFrom lastOr]. rewrite reSpread_needs_lbrace by assumption.
  apply IH.
Qed.

Lemma spreadRewrite_inv (n : nat) (s out : jsstring) :
  spreadRewrite n s out ->
  (s = [] /\ out = [])
  \/ (exists expr rest out',
        s = spreadOccurrence expr rest
        /\ out = spreadPlaceholder n expr ++ out')
  \/ (exists c rest out',
        s = c :: rest /\ out = c :: out' /\ spreadRewrite n rest out').
Proof.
  destruct 1 as [n | n expr rest out _ _ _ | n c rest out _ H].
  - now left.
  - right. left. now exists expr, rest, out.
  - right. right. now exists c, rest, out.
Qed.

(** A character of the result other than the first character of a
    placeholder is a character of the text. *)
Lemma spreadRewrite_head (n : nat) (rest o : jsstring) (c : Z) :
  c <> 100 -> spreadRewrite n rest (c :: o) ->
  exists r, rest = c :: r /\ spreadRewrite n r o.
Proof.
  intros Hc H.
  apply spreadRewrite_inv in H
    as [[_ E] | [(expr & rest' & out' & _ & E)
                | (c' & rest' & out' & -> & E & H)]].
  - discriminate.
  - exfalso. apply Hc. unfold spreadPlaceholder in E.
    cbn [lit list_ascii_of_string map app] in E. now injection E.
  - injection E as <- <-. now exists rest'.
Qed.

(** A text without closing brace holds no spread and is left as it is. *)
Lemma spreadRewrite_no_rbrace (n : nat) (r o : jsstring) :
  spreadRewrite n r o -> ~ In ch_rbrace r -> o = r.
Proof.
  induction 1 as [| n expr rest out _ _ _ _ | n c rest out _ _ IH];
    intros Hnin.
  - reflexivity.
  - exfalso. apply Hnin. unfold spreadOccurrence.
    apply in_or_app. right. apply in_or_app. right. now left.
  - f_equal. apply IH. intros H. apply Hnin. now right.
Qed.

Lemma spreadRewrite_rbrace (n : nat) (r o : jsstring) :
  spreadRewrite n (ch_rbrace :: r) o -> exists o', o = ch_rbrace :: o'.
Proof.
  intros H.
  apply spreadRewrite_inv in H
    as [[E _] | [(expr & rest' & out' & E & _)
                | (c' & rest' & out' & E & -> & H)]].
  - discriminate.
  - unfold spreadOccurrence in E. discriminate.
  - injection E as <- <-. now exists out'.
Qed.

Lemma spreadRewrite_no_match (n : nat) (s out : jsstring) :
  spreadRewrite n s out -> forall p, testFrom reSpread p out = false.
Proof.
  induction 1 as [| n expr rest out _ _ _ IH | n c rest out Hns Hrw IH];
    intros p.
  - reflexivity.
  - rewrite testFrom_reSpread_chunk by apply spreadPlaceholder_no_lbrace.
    apply IH.
  - cbn [testFrom]. rewrite IH.
    destruct (reSpread p (c :: out)) as [[k body]|] eqn:E; [|reflexivity].
    exfalso. apply reBraced_some in E as (Hne & Hnin & _ & post & E).
    cbn [lit list_ascii_of_string map app] in E.
    injection E as -> E. rewrite E in Hrw.
    apply spreadRewrite_head in Hrw as (r1 & -> & H1); [|discriminate].
    apply spreadRewrite_head in H1 as (r2 & -> & H2); [|discriminate].
    apply spreadRewrite_head in H2 as (r3 & -> & H3); [|discriminate].
    destruct (takeWhile_cases notRBrace r3) as (rem & Hr3 & Hrem).
    assert (Htw : ~ In ch_rbrace (takeWhile notRBrace r3))
      by (apply notRBrace_iff, takeWhile_all).
    destruct Hrem as [-> | (x & r & -> & Hx)].
    + rewrite app_nil_r in Hr3.
      assert (Hno : ~ In ch_rbrace r3) by (rewrite Hr3; exact Htw).
      apply (spreadRewrite_no_rbrace _ _ _ H3) in Hno.
      apply Htw. rewrite <- Hr3, <- Hno.
      apply in_or_app. right. now left.
    + assert (Ex : x = ch_rbrace).
      { unfold notRBrace in Hx. apply negb_false_iff in Hx.
        now apply Z.eqb_eq in Hx. }
      subst x.
      destruct (takeWhile notRBrace r3) as [|t tw] eqn:Etw.
      * cbn [app] in Hr3. rewrite Hr3 in H3.
        apply spreadRewrite_rbrace in H3 as [o' Ho].
        destruct body as [|b body]; [contradiction|].
        cbn [app] in Ho. injection Ho as -> _.
        apply Hnin. now left.
      * apply Hns. exists (t :: tw), r. split; [discriminate|].
        split; [exact Htw|].
        unfold spreadOccurrence.
        cbn [lit list_ascii_of_string map app]. now rewrite Hr3.
Qed.

(* ================================================================== *)
(** * The properties *)

(** C1 (the code breaks the round trip): on the input of the repository's
    own round-trip test for font attributes, the forward transform turns
    [fontStyle=] into [font-style=] and then, the hyphen being a word
    boundary, its style pass turns that into
    [font-data-better-svg-style=]; the reverse transform restores
    [font-style=] only after its dictionary pass has run, so the result
    holds [font-style=] where the input had [fontStyle=]. *)
Theorem roundTrip_fontStyle :
  let x :=
    lit "<svg><text " ++ attr "fontFamily" "Arial" ++ lit " "
      ++ attr "fontSize" "12" ++ lit " " ++ attr "fontWeight" "bold"
      ++ lit " " ++ attr "fontStyle" "italic" ++ lit " /></svg>" in
  convertJsxToSvg x
  = Some (lit "<svg><text " ++ attr "font-family" "Arial" ++ lit " "
            ++ attr "font-size" "12" ++ lit " " ++ attr "font-weight" "bold"
            ++ lit " " ++ attr "font-data-better-svg-style" "italic"
            ++ lit " /></svg>")
  /\ roundTrip x
     = Some (lit "<svg><text " ++ attr "fontFamily" "Arial" ++ lit " "
               ++ attr "fontSize" "12" ++ lit " " ++ attr "fontWeight" "bold"
               ++ lit " " ++ attr "font-style" "italic" ++ lit " /></svg>")
  /\ roundTrip x <> Some x.
Proof.
  cbv zeta. split; [vm_compute; reflexivity|].
  split; [vm_compute; reflexivity|]. vm_compute. discriminate.
Qed.

(** The two scenarios of the specification do survive the round trip. *)
Example roundTrip_event_scenario :
  roundTrip (lit "<e onClick={() => log(1)} a={2}/>")
  = Some (lit "<e onClick={() => log(1)} a={2}/>").
Proof. vm_compute. reflexivity. Qed.

Example roundTrip_spread_scenario :
  roundTrip (lit "<e {...p}{...q} " ++ attr "className" "c" ++ lit "/>")
  = Some (lit "<e {...p}{...q} " ++ attr "className" "c" ++ lit "/>").
Proof. vm_compute. reflexivity. Qed.

(** C2: from the position after an opening [={], the scanner of the source
    computes the run of the specification's scanner (balance 1, outside a
    string; quotes open and close string mode, a quote after a backslash
    does not close it; braces count outside strings; the run stops at the
    first character that brings the balance to 0 outside a string, and is
    not-found when the text ends first).  The index it returns is the one
    after the closing brace, which lies in the text after the [={] and
    holds a closing brace; the expression pass then replaces the [={], the
    expression up to that brace, and the brace by the quoted payload of
    the expression.  The nested expression and the quoted brace of the
    specification are captured in full. *)
Theorem expression_scanner_correct :
  (forall content startIdx r,
      scanRun content (startIdx + 2) scanStart r
      <-> findClosing content startIdx = option_map S r)
  /\ (forall content startIdx j,
         findClosing content startIdx = Some j ->
         (startIdx + 2 < j <= length content)%nat
         /\ nth_error content (j - 1) = Some ch_rbrace)
  /\ (forall content currentIndex result startIdx j,
         (currentIndex < length content)%nat ->
         indexOf content (lit "={") currentIndex = Some startIdx ->
         findClosing content startIdx = Some j ->
         exists out,
           replaceLoop (S (length content)) content j [] = Some out
           /\ replaceLoop (S (length content)) content currentIndex result
              = Some (result ++ slice content currentIndex startIdx
                        ++ lit "=" ++ dq
                        ++ encodeJsx (slice content (startIdx + 2) (j - 1))
                        ++ dq ++ out))
  /\ (let content := lit "<e f={() => { return {a:1} }} g={2}/>" in
      indexOf content (lit "={") 0 = Some 4%nat
      /\ findClosing content 4 = Some 29%nat
      /\ slice content (4 + 2) (29 - 1) = lit "() => { return {a:1} }")
  /\ (let content := lit "<e f={" ++ dq ++ lit "}" ++ dq ++ lit "}/>" in
      indexOf content (lit "={") 0 = Some 4%nat
      /\ findClosing content 4 = Some 10%nat
      /\ slice content (4 + 2) (10 - 1) = dq ++ lit "}" ++ dq).
Proof.
  split; [exact findClosing_scanRun|].
  split; [exact findClosing_bounds|].
  split.
  - intros content currentIndex result startIdx j Hlt Hi Hc.
    pose proof (findClosing_bounds _ _ _ Hc) as [Hj _].
    destruct (replaceLoop_total (length content) content j []) as [out Hout];
      [lia|].
    exists out. split.
    + eapply replaceLoop_fuel; [exact Hout | lia].
    + cbn [replaceLoop].
      apply Nat.ltb_lt in Hlt. rewrite Hlt, Hi, Hc.
      rewrite replaceLoop_result, Hout. cbn [option_map].
      now rewrite <- !app_assoc.
  - split; cbv zeta; repeat split; vm_compute; reflexivity.
Qed.

Lemma expression_scanner_correct_witness :
  let content := lit "<e f={() => { return {a:1} }} g={2}/>" in
  (4 + 2 < 29 <= length content)%nat
  /\ nth_error content (29 - 1) = Some ch_rbrace.
Proof.
  cbv zeta.
  apply (proj1 (proj2 expression_scanner_correct)
           (lit "<e f={() => { return {a:1} }} g={2}/>") 4%nat 29%nat).
  reflexivity.
Defined.




(** C6 (amended): the forward transform runs the spread substitution on
    the text that the expression pass produced.  On any text the
    substitution is the rewriting of the specification: the occurrences of
    [{...expr}] (a non-empty [expr] without closing brace) are taken from
    left to right and the [n]-th one, counting from 0, becomes
    [data-spread-n] with the payload of [expr] as its value.  Two
    occurrences separated by text without an opening brace get 0 and 1. *)
Theorem spread_indices_left_to_right :
  (forall x,
      convertJsxToSvg x
      = option_map (fun y => forwardRenames (replaceSpreads y))
                   (replaceJsxExpressions x))
  /\ (forall s out, spreadRewrite 0 s out <-> out = replaceSpreads s)
  /\ (forall n expr,
         spreadPlaceholder n expr
         = lit "data-spread-" ++ decimal n ++ lit "=" ++ dq
             ++ encodeJsx expr ++ dq)
  /\ (forall t0 e1 t1 e2 t2,
         ~ In ch_lbrace t0 -> ~ In ch_lbrace t1 -> ~ In ch_lbrace t2 ->
         e1 <> [] -> ~ In ch_rbrace e1 -> e2 <> [] -> ~ In ch_rbrace e2 ->
         replaceSpreads
           (t0 ++ spreadOccurrence e1 (t1 ++ spreadOccurrence e2 t2))
         = t0 ++ spreadPlaceholder 0 e1 ++ t1 ++ spreadPlaceholder 1 e2 ++ t2)
  /\ convertJsxToSvg
       (lit "<e {...p}{...q} " ++ attr "className" "c" ++ lit "/>")
     = Some (lit "<e " ++ attr "data-spread-0" "__JSX_BASE64__cA==__"
               ++ attr "data-spread-1" "__JSX_BASE64__cQ==__" ++ lit " "
               ++ attr "class" "c" ++ lit "/>").
Proof.
  split.
  { intros x. unfold convertJsxToSvg.
    now destruct (replaceJsxExpressions x). }
  split.
  { intros s out. split.
    - apply spreadRewrite_sound.
    - intros ->. apply spreadRewrite_complete. }
  split; [reflexivity|].
  split; [|vm_compute; reflexivity].
  intros t0 e1 t1 e2 t2 H0 H1 H2 He1 Hn1 He2 Hn2.
  symmetry. apply spreadRewrite_sound.
  apply spreadRewrite_plain; [assumption|].
  constructor; [assumption | assumption |].
  apply spreadRewrite_plain; [assumption|].
  constructor; [assumption | assumption |].
  rewrite <- (app_nil_r t2).
  apply spreadRewrite_plain; [assumption | constructor].
Qed.

Lemma spread_indices_left_to_right_witness :
  replaceSpreads
    (lit "<e " ++ spreadOccurrence (lit "p")
       (lit " x='1' " ++ spreadOccurrence (lit "q") (lit "/>")))
  = lit "<e " ++ spreadPlaceholder 0 (lit "p") ++ lit " x='1' "
      ++ spreadPlaceholder 1 (lit "q") ++ lit "/>".
Proof.
  apply (proj1 (proj2 (proj2 (proj2 spread_indices_left_to_right)))
           (lit "<e ") (lit "p") (lit " x='1' ") (lit "q") (lit "/>"));
    try discriminate;
    intros H; simpl in H;
    repeat (destruct H as [H|H]; [discriminate H|]); exact H.
Defined.

(** C6 as stated fails: a spread inside a brace-delimited value is part of
    the expression that the expression pass has already encoded; it gets
    no placeholder, and a spread after it gets index 0. *)
Lemma spread_inside_expression_kept :
  let x := lit "<e a={{...p}} {...q}/>" in
  x = lit "<e a={" ++ spreadOccurrence (lit "p")
        (lit "} " ++ spreadOccurrence (lit "q") (lit "/>"))
  /\ convertJsxToSvg x
     = Some (lit "<e " ++ attr "a" "__JSX_BASE64__ey4uLnB9__" ++ lit " "
               ++ attr "data-spread-0" "__JSX_BASE64__cQ==__" ++ lit "/>")
  /\ resultIncludes (convertJsxToSvg x) (lit "data-spread-1") = false.
Proof. cbv zeta. repeat split; vm_compute; reflexivity. Qed.

(** C7: the detector accepts the three sample inputs and every text that
    holds an authoring name of the dictionary followed by [=] at a word
    boundary; it rejects every text that has no brace-delimited value, no
    spread, no [className=] and no authoring name of the dictionary, such
    as standard markup with kebab-case names and [class=]. *)
Theorem isJsxSvg_sensitivity :
  isJsxSvg (lit "<e a={2}/>") = true
  /\ isJsxSvg (lit "<e " ++ attr "className" "x" ++ lit "/>") = true
  /\ isJsxSvg (lit "<e {...p}/>") = true
  /\ (forall s name,
         In name (dictKeys jsxToSvgAttributeMap) -> hasAttribute name s ->
         isJsxSvg s = true)
  /\ (forall s,
         ~ hasExpressionValue s -> ~ hasSpread s ->
         ~ hasAttribute (lit "className") s ->
         (forall name, In name (dictKeys jsxToSvgAttributeMap) ->
                       ~ hasAttribute name s) ->
         isJsxSvg s = false)
  /\ isJsxSvg (lit "<svg " ++ attr "class" "icon" ++ lit "><path "
                 ++ attr "stroke-linecap" "round" ++ lit " /></svg>") = false.
Proof.
  split; [reflexivity|]. split; [reflexivity|]. split; [reflexivity|].
  split.
  { intros s name Hin Ha. apply isJsxSvg_iff. do 3 right. now exists name. }
  split; [|reflexivity].
  intros s Ha Hb Hc Hd.
  destruct (isJsxSvg s) eqn:E; [|reflexivity].
  apply isJsxSvg_iff in E as [H | [H | [H | (name & Hin & H)]]];
    [now destruct Ha | now destruct Hb | now destruct Hc
     | now destruct (Hd name Hin)].
Qed.

Lemma isJsxSvg_sensitivity_witness :
  isJsxSvg (lit "<path " ++ attr "strokeLinecap" "round" ++ lit " />") = true.
Proof.
  apply (proj1 (proj2 (proj2 (proj2 isJsxSvg_sensitivity)))
           (lit "<path " ++ attr "strokeLinecap" "round" ++ lit " />")
           (lit "strokeLinecap")).
  - simpl. tauto.
  - exists (lit "<path "), (dq ++ lit "round" ++ dq ++ lit " />").
    split; reflexivity.
Defined.

(** C9: every transform returns a value on every string: the detector and
    the reverse transform are structural recursions, and the loop of the
    expression pass, the only one that is not, ends within its budget; a
    larger budget gives the same result. *)
Theorem transforms_total (s : jsstring) :
  (exists b, isJsxSvg s = b)
  /\ (exists out, convertJsxToSvg s = Some out)
  /\ (exists out, convertSvgToJsx s = out)
  /\ (exists p, prepareForOptimization s = Some p)
  /\ (forall wasJsx, exists out, finalizeAfterOptimization s wasJsx = out)
  /\ (forall fuel, (length s < fuel)%nat ->
                   replaceLoop fuel s 0 [] = replaceJsxExpressions s).
Proof.
  split; [eexists; reflexivity|].
  split; [apply convertJsxToSvg_total|].
  split; [eexists; reflexivity|].
  split; [|split; [intros; eexists; reflexivity|]].
  - unfold prepareForOptimization.
    destruct (isJsxSvg s); [|eexists; reflexivity].
    destruct (convertJsxToSvg_total s) as [out ->]. eexists; reflexivity.
  - intros fuel Hf.
    destruct (replaceJsxExpressions_total s) as [out Hout]. rewrite Hout.
    eapply replaceLoop_fuel; [exact Hout | lia].
Qed.

(** C3 (amended): for every well-formed body (no unpaired surrogate),
    decoding the encoded payload gives the body back; the payload is the
    prefix [__JSX_BASE64__], the base64 text of the UTF-8 bytes of the body,
    and the suffix [__]. *)
Theorem decodeJsx_encodeJsx (body : jsstring) :
  wellFormed body = true ->
  encodeJsx body
  = lit "__JSX_BASE64__" ++ base64_encode (utf8_encode body) ++ lit "__"
  /\ decodeJsx (encodeJsx body) = Some body.
Proof.
  intros Hwf. split; [reflexivity|].
  rewrite encodeJsx_decodeJsx.
  rewrite base64_roundtrip
    by (apply utf8_encode_bytes, wellFormed_range, Hwf).
  now rewrite utf8_roundtrip.
Qed.

Lemma decodeJsx_encodeJsx_witness :
  wellFormed (lit "() => log(1)") = true
  /\ decodeJsx (encodeJsx (lit "() => log(1)")) = Some (lit "() => log(1)").
Proof.
  split; [reflexivity|].
  apply (decodeJsx_encodeJsx (lit "() => log(1)")). reflexivity.
Defined.

(** C3 as stated fails: a body that is one unpaired surrogate is encoded as
    U+FFFD and decodes to U+FFFD. *)
Lemma decodeJsx_encodeJsx_lone_surrogate :
  decodeJsx (encodeJsx [0xD800]) = Some [0xFFFD]
  /\ decodeJsx (encodeJsx [0xD800]) <> Some [0xD800].
Proof. split; [reflexivity | discriminate]. Qed.

(** C4: a string that does not both start with the prefix and end with the
    suffix is not a payload: [decodeJsx] returns [null]; on any other
    string it returns a string.  No input makes it fail. *)
Theorem decodeJsx_not_payload (s : jsstring) :
  (~ isEnvelope s -> decodeJsx s = None)
  /\ (isEnvelope s -> exists body, decodeJsx s = Some body).
Proof.
  unfold decodeJsx, isEnvelope.
  destruct (startsWith s BASE64_PREFIX) eqn:E1;
    [destruct (endsWith s BASE64_SUFFIX) eqn:E2|]; cbn [andb].
  - split; [|intros _; eexists; reflexivity].
    intros H. exfalso. apply H. split.
    + now apply startsWith_iff.
    + now apply endsWith_iff.
  - split; [reflexivity|]. intros [_ H].
    apply endsWith_iff in H. change (lit "__") with BASE64_SUFFIX in H.
    congruence.
  - split; [reflexivity|]. intros [H _].
    apply startsWith_iff in H.
    change (lit "__JSX_BASE64__") with BASE64_PREFIX in H. congruence.
Qed.

Lemma decodeJsx_not_payload_witness : decodeJsx (lit "props") = None.
Proof.
  apply (proj1 (decodeJsx_not_payload (lit "props"))).
  intros [[t Ht] _]. discriminate Ht.
Defined.

(** C10: an encoded payload is made of underscores and base64 characters
    only, so it holds no quote, brace or angle bracket. *)
Theorem encodeJsx_alphabet (body : jsstring) :
  Forall (fun c => isPayloadChar c = true) (encodeJsx body)
  /\ (forall c, In c delimiters -> ~ In c (encodeJsx body)).
Proof.
  assert (H : Forall (fun c => isPayloadChar c = true) (encodeJsx body)).
  { unfold encodeJsx. apply Forall_app. split; [|apply Forall_app; split].
    - apply Forall_forall, forallb_forall. reflexivity.
    - eapply Forall_impl; [|apply base64_encode_alphabet].
      intros c Hc. unfold isPayloadChar. rewrite Hc. apply orb_true_r.
    - apply Forall_forall, forallb_forall. reflexivity. }
  split; [exact H|].
  intros c Hc Hin. rewrite Forall_forall in H. specialize (H c Hin).
  unfold delimiters in Hc. simpl in Hc.
  repeat (destruct Hc as [<- | Hc]; [discriminate H|]). exact Hc.
Qed.

(** C8: the two direction maps have the same number of entries, no name
    occurs twice on either side, and each map undoes the other. *)
Theorem dictionary_bijective :
  length jsxToSvgAttributeMap = length svgToJsxAttributeMap
  /\ NoDup (dictKeys jsxToSvgAttributeMap)
  /\ NoDup (dictKeys svgToJsxAttributeMap)
  /\ (forall jsx svg, dictGet jsxToSvgAttributeMap jsx = Some svg ->
                      dictGet svgToJsxAttributeMap svg = Some jsx)
  /\ (forall svg jsx, dictGet svgToJsxAttributeMap svg = Some jsx ->
                      dictGet jsxToSvgAttributeMap jsx = Some svg).
Proof.
  split; [reflexivity|].
  split; [apply nodupb_NoDup; vm_compute; reflexivity|].
  split; [apply nodupb_NoDup; vm_compute; reflexivity|].
  split.
  - intros jsx svg H. apply dictGet_In in H.
    assert (Hall : forallb (fun e =>
              match dictGet svgToJsxAttributeMap (snd e) with
              | Some j => jseqb j (fst e)
              | None => false
              end) jsxToSvgAttributeMap = true) by (vm_compute; reflexivity).
    rewrite forallb_forall in Hall. specialize (Hall _ H). cbn [fst snd] in Hall.
    destruct (dictGet svgToJsxAttributeMap svg); [|discriminate].
    apply jseqb_eq in Hall. now subst.
  - intros svg jsx H. apply dictGet_In in H.
    assert (Hall : forallb (fun e =>
              match dictGet jsxToSvgAttributeMap (snd e) with
              | Some j => jseqb j (fst e)
              | None => false
              end) svgToJsxAttributeMap = true) by (vm_compute; reflexivity).
    rewrite forallb_forall in Hall. specialize (Hall _ H). cbn [fst snd] in Hall.
    destruct (dictGet jsxToSvgAttributeMap jsx); [|discriminate].
    apply jseqb_eq in Hall. now subst.
Qed.

(* ================================================================== *)
(** * Further properties of the code *)

(* ================================================================== *)
(** ** Further properties of the payload codec *)

(** X1. Round trip of the codec on every string: for a body of 16-bit
    code units, decoding the payload of the body gives the body with every
    unpaired surrogate replaced by U+FFFD (the [toWellFormed] of the body);
    that text is well formed, and it is the body itself exactly when the
    body is well formed. *)
Theorem decodeJsx_encodeJsx_toWellFormed (body : jsstring) :
  Forall isCodeUnit body ->
  decodeJsx (encodeJsx body) = Some (toWellFormed body)
  /\ wellFormed (toWellFormed body) = true
  /\ (toWellFormed body = body <-> wellFormed body = true).
Proof.
  intros Hb. split; [|split].
  - rewrite encodeJsx_decodeJsx, base64_roundtrip.
    + now rewrite utf8_toWellFormed.
    + now apply utf8_encode_bytes.
  - now apply wellFormed_toWellFormed.
  - split.
    + intros E. rewrite <- E. now apply wellFormed_toWellFormed.
    + apply toWellFormed_fixed.
Qed.

Lemma decodeJsx_encodeJsx_toWellFormed_witness :
  Forall isCodeUnit [0x61; 0xDC00; 0xD83D; 0xDE00; 0xD800]
  /\ decodeJsx (encodeJsx [0x61; 0xDC00; 0xD83D; 0xDE00; 0xD800])
     = Some [0x61; 0xFFFD; 0xD83D; 0xDE00; 0xFFFD].
Proof.
  assert (H : Forall isCodeUnit [0x61; 0xDC00; 0xD83D; 0xDE00; 0xD800])
    by (repeat constructor; unfold isCodeUnit; lia).
  split; [exact H|].
  exact (proj1 (decodeJsx_encodeJsx_toWellFormed _ H)).
Defined.



(** X3. The size of a payload: sixteen characters of envelope and four
    characters for every three bytes of UTF-8 (rounded up); the UTF-8 of a
    body has between one and three bytes for each code unit, so a payload
    is never longer than four times the body plus sixteen. *)
Theorem encodeJsx_length (body : jsstring) :
  length (encodeJsx body)
  = (16 + 4 * ((length (utf8_encode body) + 2) / 3))%nat
  /\ (length body <= length (utf8_encode body) <= 3 * length body)%nat
  /\ (16 + 4 * ((length body + 2) / 3) <= length (encodeJsx body)
      <= 16 + 4 * length body)%nat.
Proof.
  assert (L : length (encodeJsx body)
              = (16 + 4 * ((length (utf8_encode body) + 2) / 3))%nat).
  { unfold encodeJsx. rewrite !length_app, base64_encode_length.
    change (length BASE64_PREFIX) with 14%nat.
    change (length BASE64_SUFFIX) with 2%nat. lia. }
  assert (U := utf8_encode_length body).
  split; [exact L|]. split; [exact U|]. rewrite L.
  split.
  - apply Nat.add_le_mono_l, Nat.mul_le_mono_l.
    apply Nat.Div0.div_le_mono. lia.
  - apply Nat.add_le_mono_l, Nat.mul_le_mono_l.
    apply Nat.le_trans with ((2 + length body * 3) / 3)%nat.
    + apply Nat.Div0.div_le_mono. lia.
    + rewrite Nat.div_add by lia. simpl. lia.
Qed.

(** X4. Two well-formed bodies with the same payload are the same body. *)
Theorem encodeJsx_injective (a b : jsstring) :
  wellFormed a = true -> wellFormed b = true ->
  encodeJsx a = encodeJsx b -> a = b.
Proof.
  intros Ha Hb E.
  assert (E' : Some a = Some b).
  { rewrite <- (decode_of_encode a Ha), <- (decode_of_encode b Hb).
    now rewrite E. }
  now injection E'.
Qed.

Lemma encodeJsx_injective_witness :
  wellFormed (lit "p") = true /\ lit "p" = lit "p".
Proof.
  split; [reflexivity|].
  apply (encodeJsx_injective (lit "p") (lit "p")); reflexivity.
Defined.

(* ================================================================== *)
(** ** Further properties of the attribute dictionary *)



(* ================================================================== *)
(** ** Further properties of the transcoders and of the previews *)

(** X8. A text that the detector does not take for JSX is returned
    unchanged by the [convertJsxToSvg] of the hover provider and by the one
    of the gutter preview, which are the same function and use the table
    of the transcoder. *)
Theorem preview_convertJsxToSvg_standard (s : jsstring) :
  isJsxSvg s = false ->
  SvgHoverProvider.convertJsxToSvg s = s
  /\ SvgGutterPreview.convertJsxToSvg s = s
  /\ SvgHoverProvider.jsxToSvgAttributes = jsxToSvgAttributeMap
  /\ (forall t, SvgGutterPreview.convertJsxToSvg t
                = SvgHoverProvider.convertJsxToSvg t).
Proof.
  intros H. unfold isJsxSvg in H.
  destruct (regexTest reExprValue s) eqn:Ha; [discriminate|].
  destruct (regexTest reSpread s) eqn:Hb; [discriminate|].
  destruct (regexTest (reWordLit (lit "className")) s) eqn:Hc; [discriminate|].
  assert (Hd : forall name, In name (dictKeys jsxToSvgAttributeMap) ->
                            regexTest (reWordLit name) s = false).
  { intros name Hin.
    destruct (regexTest (reWordLit name) s) eqn:E; [|reflexivity].
    assert (X : existsb (fun jsxAttr => regexTest (reWordLit jsxAttr) s)
                        (dictKeys jsxToSvgAttributeMap) = true).
    { apply existsb_exists. now exists name. }
    congruence. }
  assert (E : SvgHoverProvider.convertJsxToSvg s = s).
  { unfold SvgHoverProvider.convertJsxToSvg. cbv zeta.
    rewrite (replaceAll_no_match reExprValue) by exact Ha.
    rewrite renameAttr_no_match by exact Hc.
    rewrite hover_table. now apply renameByDict_no_match. }
  split; [exact E|]. split; [exact E|]. split; reflexivity.
Qed.

Lemma preview_convertJsxToSvg_standard_witness :
  let s := lit "<svg " ++ attr "class" "icon" ++ lit "><path "
             ++ attr "stroke-width" "2" ++ lit "/></svg>" in
  isJsxSvg s = false /\ SvgHoverProvider.convertJsxToSvg s = s.
Proof.
  split; [reflexivity|].
  apply (preview_convertJsxToSvg_standard
           (lit "<svg " ++ attr "class" "icon" ++ lit "><path "
              ++ attr "stroke-width" "2" ++ lit "/></svg>")).
  reflexivity.
Defined.

(** X13. A text without an equals sign holds no attribute, so no pass
    that renames or restores attributes touches it: the reverse
    transcoder, the preview conversion and the expression pass return it
    unchanged; if it holds no opening brace either, the forward transcoder
    and the round trip return it unchanged as well. *)
Theorem text_without_attributes_unchanged (s : jsstring) :
  ~ In ch_equals s ->
  convertSvgToJsx s = s
  /\ SvgHoverProvider.convertJsxToSvg s = s
  /\ replaceJsxExpressions s = Some s
  /\ forwardRenames s = s
  /\ (~ In ch_lbrace s -> convertJsxToSvg s = Some s /\ roundTrip s = Some s).
Proof.
  intros Hnin.
  assert (Hw : forall name, regexTest (reWordLit name) s = false).
  { intros name. apply (testFrom_absent _ ch_equals); [|assumption].
    intros prev rest. apply reWordLit_equals. }
  assert (Hrev : convertSvgToJsx s = s).
  { unfold convertSvgToJsx. cbv zeta.
    rewrite (renameAttr_no_match (lit "class")) by apply Hw.
    rewrite renameByDict_no_match by (intros; apply Hw).
    rewrite (replaceAll_no_match reSpreadPlaceholder)
      by (apply (testFrom_absent _ ch_equals);
          [apply reSpreadPlaceholder_equals | assumption]).
    rewrite (replaceAll_no_match reEventPlaceholder)
      by (apply (testFrom_absent _ ch_equals);
          [apply reEventPlaceholder_equals | assumption]).
    rewrite renameAttr_no_match by apply Hw.
    apply replaceAll_no_match.
    apply (testFrom_absent _ ch_equals);
      [apply rePayloadAttr_equals | assumption]. }
  assert (Hpre : SvgHoverProvider.convertJsxToSvg s = s).
  { unfold SvgHoverProvider.convertJsxToSvg. cbv zeta.
    rewrite (replaceAll_no_match reExprValue)
      by (apply (testFrom_absent _ ch_equals);
          [intros prev rest; apply reBraced_absent; now left | assumption]).
    rewrite renameAttr_no_match by apply Hw.
    apply renameByDict_no_match. intros; apply Hw. }
  assert (Hexp : replaceJsxExpressions s = Some s).
  { apply replaceJsxExpressions_no_open. intros k.
    destruct (startsWith (skipn k s) (lit "={")) eqn:E; [|reflexivity].
    exfalso. apply Hnin. apply (In_skipn _ _ _ k).
    apply (startsWith_In _ _ _ E). now left. }
  assert (Hfwd : forwardRenames s = s).
  { unfold forwardRenames. cbv zeta.
    rewrite (renameAttr_no_match (lit "className")) by apply Hw.
    rewrite renameByDict_no_match by (intros; apply Hw).
    rewrite (replaceAll_no_match reEvent)
      by (apply (testFrom_absent _ ch_equals);
          [apply reEvent_equals | assumption]).
    apply renameAttr_no_match, Hw. }
  repeat split; try assumption.
  - unfold convertJsxToSvg. rewrite Hexp.
    unfold replaceSpreads, replaceSpreadsFrom, replaceAllSt.
    rewrite replaceWalk_no_match.
    + cbn [fst]. now rewrite Hfwd.
    + apply (testFrom_absent _ ch_lbrace); [|assumption].
      intros prev rest. apply reBraced_absent. now left.
  - unfold roundTrip, convertJsxToSvg. rewrite Hexp.
    unfold replaceSpreads, replaceSpreadsFrom, replaceAllSt.
    rewrite replaceWalk_no_match.
    + cbn [fst]. now rewrite Hfwd, Hrev.
    + apply (testFrom_absent _ ch_lbrace); [|assumption].
      intros prev rest. apply reBraced_absent. now left.
Qed.

Lemma text_without_attributes_unchanged_witness :
  ~ In ch_equals (lit "<title>a < b</title>")
  /\ convertSvgToJsx (lit "<title>a < b</title>") = lit "<title>a < b</title>".
Proof.
  assert (H : ~ In ch_equals (lit "<title>a < b</title>")).
  { intros H. cbv in H. repeat (destruct H as [H|H]; [discriminate|]).
    exact H. }
  split; [exact H|].
  exact (proj1 (text_without_attributes_unchanged _ H)).
Defined.

(* ================================================================== *)
(** ** Properties of [escapeHtml] *)

(** X6. [escapeHtml] replaces every code unit on its own, so the escaping
    of a concatenation is the concatenation of the escapings; its output
    holds no angle bracket and no quote, whatever the text; and a text
    without the five characters is returned unchanged. *)
Theorem escapeHtml_safe (text : jsstring) :
  Forall (fun c => c <> ch_lt /\ c <> ch_gt /\ c <> ch_dquote
                   /\ c <> ch_squote) (escapeHtml text)
  /\ (forall more, escapeHtml (text ++ more)
                   = escapeHtml text ++ escapeHtml more)
  /\ (Forall (fun c => isHtmlSpecial c = false) text ->
      escapeHtml text = text).
Proof.
  split; [|split].
  - rewrite escapeHtml_flat_map. induction text as [|c text IH].
    + constructor.
    + cbn [flat_map]. apply Forall_app. split; [|exact IH].
      destruct (isHtmlSpecial c) eqn:E.
      * apply isHtmlSpecial_cases in E as [-> | [-> | [-> | [-> | ->]]]];
          repeat constructor; discriminate.
      * rewrite escapeChar_plain by assumption.
        unfold isHtmlSpecial in E. rewrite !orb_false_iff, !Z.eqb_neq in E.
        repeat constructor; tauto.
  - intros more. rewrite !escapeHtml_flat_map. apply flat_map_app.
  - intros H. rewrite escapeHtml_flat_map.
    induction H as [|c text Hc _ IH]; [reflexivity|].
    cbn [flat_map]. now rewrite escapeChar_plain, IH.
Qed.

(** X7. The entity unescaping of the reverse transcoder undoes
    [escapeHtml] on every text without an apostrophe: the ampersand is
    restored last, so an entity written in the text itself comes back as it
    was. *)
Theorem unescapeEntities_escapeHtml (text : jsstring) :
  ~ In ch_squote text -> unescapeEntities (escapeHtml text) = text.
Proof.
  intros Hnin. rewrite unescapeEntities_escapeHtml_flat_map.
  induction text as [|c text IH]; [reflexivity|].
  cbn [flat_map].
  replace (c =? ch_squote) with false.
  - cbn [app]. f_equal. apply IH. intros H. apply Hnin. now right.
  - symmetry. apply Z.eqb_neq. intros ->. apply Hnin. now left.
Qed.

Lemma unescapeEntities_escapeHtml_witness :
  let text := lit "<a b=" ++ dq ++ lit "&lt;&amp;" ++ dq ++ lit ">" in
  ~ In ch_squote text /\ unescapeEntities (escapeHtml text) = text.
Proof.
  assert (H : ~ In ch_squote
                (lit "<a b=" ++ dq ++ lit "&lt;&amp;" ++ dq ++ lit ">")).
  { intros H. cbv in H. repeat (destruct H as [H|H]; [discriminate|]).
    exact H. }
  split; [exact H|].
  exact (unescapeEntities_escapeHtml _ H).
Defined.

(* ================================================================== *)
(** ** The reverse transcoder restores what the forward one writes *)

(** X9. The spread placeholder that the forward transcoder writes for
    the index [n] and the expression [e] is, wherever it stands after a
    character that is not a word character (or at the head of the text),
    one match of the spread pattern of the reverse transcoder, whatever
    [n], [e] and the text after it; for a well-formed [e] the reverse pass
    writes the spread back and goes on with the text after the
    placeholder. *)
Theorem spread_placeholder_restored (prev : option Z) (n : nat)
    (e post : jsstring) :
  isWordBefore prev = false ->
  reSpreadPlaceholder prev (spreadPlaceholder n e ++ post)
  = Some (length (spreadPlaceholder n e), encodeJsx e)
  /\ (wellFormed e = true ->
      replaceFrom reSpreadPlaceholder (fun _ value => restoreSpread value)
                  prev (spreadPlaceholder n e ++ post)
      = lit "{..." ++ e ++ lit "}"
          ++ replaceFrom reSpreadPlaceholder
               (fun _ value => restoreSpread value) (Some ch_dquote) post).
Proof.
  intros Hp. split; [now apply reSpreadPlaceholder_of|].
  intros Hwf.
  rewrite (replaceFrom_found _ _ prev (spreadPlaceholder n e) post
             (encodeJsx e)).
  - unfold restoreSpread. rewrite decode_of_encode by assumption.
    rewrite <- !app_assoc. do 3 f_equal.
    unfold spreadPlaceholder. rewrite !app_assoc. now rewrite lastOr_app.
  - discriminate.
  - now apply reSpreadPlaceholder_of.
Qed.

Lemma spread_placeholder_restored_witness :
  replaceAll reSpreadPlaceholder (fun _ value => restoreSpread value)
    (spreadPlaceholder 12 (lit "a.b") ++ lit " x")
  = lit "{...a.b} x".
Proof.
  assert (H := proj2 (spread_placeholder_restored None 12 (lit "a.b")
                        (lit " x") eq_refl) eq_refl).
  exact H.
Defined.

(** X10. An attribute [name] whose value is the payload of a well-formed
    expression [e], written with double or single quotes, is one match of
    the payload pattern wherever it stands; the reverse pass writes
    [name={e}] for it and goes on with the text after the closing quote. *)
Theorem payload_attribute_restored (prev : option Z) (name e post : jsstring)
    (q : Z) :
  name <> [] -> Forall (fun c => isWordChar c = true) name ->
  isAttrQuote q = true -> wellFormed e = true ->
  let m := name ++ lit "=" ++ [q] ++ encodeJsx e ++ [q] in
  rePayloadAttr prev (m ++ post) = Some (length m, (name, encodeJsx e))
  /\ replaceFrom rePayloadAttr restorePayload prev (m ++ post)
     = name ++ lit "={" ++ e ++ lit "}"
         ++ replaceFrom rePayloadAttr restorePayload (Some q) post.
Proof.
  intros Hne Hname Hq Hwf m.
  assert (Hre := rePayloadAttr_of prev name e post q Hne Hname Hq).
  fold m in Hre. split; [exact Hre|].
  rewrite (replaceFrom_found _ _ prev m post (name, encodeJsx e)).
  - unfold restorePayload. rewrite decode_of_encode by assumption.
    rewrite <- !app_assoc. do 4 f_equal.
    unfold m. rewrite !app_assoc. now rewrite lastOr_app.
  - unfold m. destruct name; [contradiction | discriminate].
  - exact Hre.
Qed.

Lemma payload_attribute_restored_witness :
  replaceAll rePayloadAttr restorePayload
    (lit "r='" ++ encodeJsx (lit "{a:1}") ++ lit "'/>")
  = lit "r={{a:1}}/>".
Proof.
  assert (Hn : Forall (fun c => isWordChar c = true) (lit "r"))
    by (repeat constructor).
  assert (Hne : lit "r" <> []) by discriminate.
  assert (H := proj2 (payload_attribute_restored None (lit "r") (lit "{a:1}")
                        (lit "/>") ch_squote Hne Hn eq_refl eq_refl)).
  exact H.
Defined.

(** X14. An event handler attribute: after a character that is not a
    word character, the forward pass writes [data-jsx-event-] before a name
    made of [on], an upper-case letter and word characters, and the reverse
    pass, finding that name with a double-quoted value, writes the name and
    the value back, whatever the value (without double quote) and the text
    after it. *)
Theorem event_attribute_restored (prev : option Z) (c : Z)
    (run value post : jsstring) :
  isWordBefore prev = false -> isUpper c = true ->
  Forall (fun c => isWordChar c = true) run ->
  Forall (fun c => notDQuote c = true) value ->
  let name := lit "on" ++ c :: run in
  let forward := fun (_ : jsstring) name => lit "data-jsx-event-" ++ name ++ lit "=" in
  let reverse :=
    fun (_ : jsstring) (caps : jsstring * jsstring) =>
      fst caps ++ lit "=" ++ dq ++ snd caps ++ dq in
  replaceFrom reEvent forward prev ((name ++ lit "=") ++ post)
  = (lit "data-jsx-event-" ++ name ++ lit "=")
      ++ replaceFrom reEvent forward (Some ch_equals) post
  /\ replaceFrom reEventPlaceholder reverse prev
       ((lit "data-jsx-event-" ++ name ++ lit "=" ++ dq ++ value ++ dq)
          ++ post)
     = (name ++ lit "=" ++ dq ++ value ++ dq)
         ++ replaceFrom reEventPlaceholder reverse (Some ch_dquote) post.
Proof.
  intros Hp Hc Hrun Hv name forward reverse. split.
  - rewrite (replaceFrom_found _ _ prev (name ++ lit "=") post name).
    + unfold forward. f_equal. now rewrite lastOr_app.
    + unfold name. discriminate.
    + now apply reEvent_of.
  - rewrite (replaceFrom_found _ _ prev _ post (name, value)).
    + unfold reverse. cbn [fst snd]. f_equal.
      f_equal. rewrite !app_assoc. now rewrite lastOr_app.
    + discriminate.
    + now apply eventPlaceholder_of.
Qed.

Lemma event_attribute_restored_witness :
  replaceAll reEventPlaceholder
    (fun _ caps => fst caps ++ lit "=" ++ dq ++ snd caps ++ dq)
    (lit "data-jsx-event-onClick=" ++ dq ++ lit "f" ++ dq ++ lit "/>")
  = lit "onClick=" ++ dq ++ lit "f" ++ dq ++ lit "/>".
Proof.
  assert (Hr : Forall (fun c => isWordChar c = true) (lit "lick"))
    by (repeat constructor).
  assert (Hv : Forall (fun c => notDQuote c = true) (lit "f"))
    by (repeat constructor).
  assert (H := proj2 (event_attribute_restored None 67 (lit "lick") (lit "f")
                        (lit "/>") eq_refl eq_refl Hr Hv)).
  exact H.
Defined.

(* ================================================================== *)
(** ** The expression pass, attribute by attribute *)

(** X11. The first brace-delimited value of a text: when the text
    before it holds no [={] and the expression holds no quote character
    and has balanced braces, the nesting scanner stops at the brace that
    closes the value, the value becomes the quoted payload of the whole
    expression, and the text after the closing brace is processed as a
    text of its own. *)
Theorem replaceJsxExpressions_balanced (pre e post : jsstring) :
  includes pre (lit "={") = false -> quoteFree e -> balanced e = true ->
  findClosing (pre ++ lit "={" ++ e ++ lit "}" ++ post) (length pre)
  = Some (length pre + 2 + length e + 1)%nat
  /\ exists out,
       replaceJsxExpressions post = Some out
       /\ replaceJsxExpressions (pre ++ lit "={" ++ e ++ lit "}" ++ post)
          = Some (pre ++ lit "=" ++ dq ++ encodeJsx e ++ dq ++ out).
Proof.
  intros Hpre Hq Hb.
  assert (Hf := findClosing_balanced pre e post Hq Hb).
  split; [exact Hf|].
  destruct (replaceJsxExpressions_total post) as [out Hout].
  exists out. split; [exact Hout|].
  unfold replaceJsxExpressions. cbn [replaceLoop].
  set (content := pre ++ lit "={" ++ e ++ lit "}" ++ post) in *.
  assert (Hlen : length content
                 = (length pre + 2 + length e + 1 + length post)%nat).
  { unfold content. rewrite !length_app. simpl. lia. }
  replace (0 <? length content)%nat with true
    by (symmetry; apply Nat.ltb_lt; lia).
  unfold content at 1. rewrite indexOf_first_open by assumption.
  fold content. rewrite Hf.
  assert (Hs1 : slice content 0 (length pre) = pre).
  { unfold slice, content. cbn [skipn]. rewrite Nat.sub_0_r.
    apply firstn_app_exact. }
  assert (Hs2 : slice content (length pre + 2)
                      (length pre + 2 + length e + 1 - 1) = e).
  { unfold slice, content. rewrite skipn_app_length.
    cbn [lit list_ascii_of_string map app skipn].
    replace (length pre + 2 + length e + 1 - 1 - (length pre + 2))%nat
      with (length e) by lia.
    apply firstn_app_exact. }
  rewrite Hs1, Hs2. rewrite replaceLoop_result.
  assert (Hsplit : content = (pre ++ lit "={" ++ e ++ lit "}") ++ post)
    by (unfold content; now rewrite <- !app_assoc).
  assert (Hj : (length pre + 2 + length e + 1
                = length (pre ++ lit "={" ++ e ++ lit "}") + 0)%nat)
    by (rewrite !length_app; simpl; lia).
  assert (Hloop : replaceLoop (length content) content
                    (length pre + 2 + length e + 1) [] = Some out).
  { assert (Hfuel : (S (length post) <= length content)%nat) by lia.
    revert Hfuel. generalize (length content) as fuel. intros fuel Hfuel.
    rewrite Hsplit, Hj, replaceLoop_shift.
    exact (replaceLoop_fuel _ fuel _ _ _ _ Hout Hfuel). }
  rewrite Hloop. cbn [option_map app]. now rewrite <- !app_assoc.
Qed.

Lemma replaceJsxExpressions_balanced_witness :
  replaceJsxExpressions (lit "<e f={() => { return {a:1} }} g={2}/>")
  = Some (lit "<e f=" ++ dq ++ encodeJsx (lit "() => { return {a:1} }") ++ dq
            ++ lit " g=" ++ dq ++ encodeJsx (lit "2") ++ dq ++ lit "/>").
Proof.
  assert (Hq : quoteFree (lit "() => { return {a:1} }"))
    by (repeat constructor).
  destruct (replaceJsxExpressions_balanced (lit "<e f")
              (lit "() => { return {a:1} }") (lit " g={2}/>")
              eq_refl Hq eq_refl) as [_ [out [Hout H]]].
  cbv in Hout. injection Hout as <-. exact H.
Defined.

(* ================================================================== *)
(** ** The spread pass ends with a text without spread *)

(** X12. Whatever the text, the result of the spread pass holds no
    spread: no opening brace followed by three dots, a non-empty run
    without closing brace and a closing brace.  Running the pass again
    changes nothing. *)
Theorem replaceSpreads_leaves_no_spread (s : jsstring) :
  ~ hasSpread (replaceSpreads s)
  /\ replaceSpreads (replaceSpreads s) = replaceSpreads s.
Proof.
  assert (H : regexTest reSpread (replaceSpreads s) = false).
  { unfold regexTest, replaceSpreads.
    apply (spreadRewrite_no_match 0 s), spreadRewrite_complete. }
  split.
  - intros Hs. apply (regexTest_braced (lit "{...")) in Hs.
    unfold reSpread in H. congruence.
  - unfold replaceSpreads at 1. unfold replaceSpreadsFrom, replaceAllSt.
    now rewrite replaceWalk_no_match.
Qed.
